(** * Narrative memory system: decay engine and hybrid retriever

    A shallow embedding of [decay_scheduler.py] ([DecayConfig],
    [DecayEngine]), of [InMemoryBackend] of [memory_backend.py] and of
    [memory_store.py] ([FAISSRetriever], [retrieve_memories_from_ltm],
    [_fallback_retrieve], [add_memory_to_ltm], [rebuild_faiss_index]),
    followed by the properties of the decay cycle and of retrieval.  The
    code around them is embedded as well: [ingest_story] of
    [ingestion_module.py], which makes the dicts that are stored,
    [summarize_memory] of [summarizer.py], the summarizer the application
    gives the decay engine, and [_build_context_from_memories] and
    [_calculate_confidence] of [rag_module.py], which read the results of
    a retrieval.

    Conventions of the embedding.
    - A Python [float] is a real number of [R]: rounding, overflow,
      infinities and NaN are not modelled.  [math.exp] is [exp],
      [math.log] is [ln], [0.01] is [1 / 100].  Two places where a float
      that is no real number changes what the code does are kept out by
      hypotheses of the statements they would affect: [math.exp] raises
      [OverflowError] for an exponent above about 709.78, which takes a
      negative decay rate or a negative age (see [calculate_decay]), and
      the quotient by a norm 0 in the linear scan is [nan] (see
      [similarities_defined]).
    - A memory is a Python dict; the keys the code reads are the fields of
      [Memory] and [Metadata], and an absent key is [None].
    - Memory dicts are shared mutable objects: a heap maps an address to
      the dict stored there, and the store list, its copies and the
      retrieval results hold addresses.  [InMemoryBackend.get_all] copies
      the list, not the dicts, so the decay engine writes into the stored
      dicts themselves.
    - A Python exception is [None]: the [KeyError] of a dict without
      ["metadata"], the [IndexError] of a position outside a list, the
      [ValueError] of [np.dot] on vectors of different lengths.
    - A string is a string of ASCII characters: [len] is the number of
      characters, [str.lower] and the white space of [str.split] and
      [str.strip] are those of ASCII.
    - Code of other libraries is a parameter: the clock and the ISO
      timestamp parser ([age_days_of], [utcnow]), the summarizer
      ([summarizer_fn]), the embedding model ([generate_embedding]), the
      construction and the search of the FAISS index ([new_index],
      [index_search]), the hash of Python ([hash_str], [object_id]) and
      the regular expressions of [re] ([split_sentences],
      [findall_words]).
    - The engine is embedded with the in-memory backend, the one the
      application wraps around [_MEM_STORE]; [ChromaBackend] delegates to
      a database and is not embedded.
    - [decay_module.run_decay_cycle] is an older cycle.  The module imports
      the list [_MEM_STORE] under the name [collection], and its first
      statement calls [collection.get(include=...)], a method lists do not
      have: the call raises before any record is read, so this cycle
      completes for no store and is not embedded. *)

From Stdlib Require Import Reals Lra Lia ZArith List String Ascii Bool.
From Stdlib Require Import Permutation Sorted.
Import ListNotations.

Local Open Scope R_scope.

(** ** Data model *)

(** The [metadata] dict of a memory. *)
Record Metadata := mkMetadata {
  importance_score : option R;
  access_count : option Z;
  timestamp : option string;
  consolidated : option bool
}.

(** A memory dict. *)
Record Memory := mkMemory {
  mem_id : string;
  content_summary : option string;
  raw : option string;
  embedding : option (list R);
  metadata : option Metadata
}.

(** [{}], the default of [memory.get("metadata", {})]. *)
Definition empty_metadata : Metadata := mkMetadata None None None None.

(** [memory.get("metadata", {})] *)
Definition get_metadata (memory : Memory) : Metadata :=
  match metadata memory with
  | Some md => md
  | None => empty_metadata
  end.

(** [float(metadata.get("importance_score", 0.5))] *)
Definition get_importance_score (md : Metadata) : R :=
  match importance_score md with
  | Some s => s
  | None => 5 / 10
  end.

(** [metadata.get("access_count", 1)] *)
Definition get_access_count (md : Metadata) : Z :=
  match access_count md with
  | Some a => a
  | None => 1%Z
  end.

(** [metadata.get("consolidated", False)] *)
Definition get_consolidated (md : Metadata) : bool :=
  match consolidated md with
  | Some b => b
  | None => false
  end.

(** Truth value of a Python string. *)
Definition truthy (s : string) : bool :=
  match s with
  | EmptyString => false
  | String _ _ => true
  end.

(** [d.get(key, "")] on an optional text field. *)
Definition get_text (field : option string) : string :=
  match field with
  | Some s => s
  | None => EmptyString
  end.

(** [a or b] on strings. *)
Definition str_or (a b : string) : string :=
  if truthy a then a else b.

Definition set_importance_score (md : Metadata) (s : R) : Metadata :=
  mkMetadata (Some s) (access_count md) (timestamp md) (consolidated md).

Definition set_access_count (md : Metadata) (a : Z) : Metadata :=
  mkMetadata (importance_score md) (Some a) (timestamp md) (consolidated md).

Definition set_consolidated (md : Metadata) (b : bool) : Metadata :=
  mkMetadata (importance_score md) (access_count md) (timestamp md) (Some b).

Definition set_metadata (memory : Memory) (md : option Metadata) : Memory :=
  mkMemory (mem_id memory) (content_summary memory) (raw memory)
           (embedding memory) md.

Definition set_texts (memory : Memory) (gist : string) : Memory :=
  mkMemory (mem_id memory) (Some gist) (Some gist)
           (embedding memory) (metadata memory).

(** ** The heap of memory dicts and the in-memory backend *)

Definition Heap := nat -> Memory.

Definition heap_set (h : Heap) (a : nat) (m : Memory) : Heap :=
  fun b => if Nat.eqb b a then m else h b.

(** A call of the decay engine on its backend. *)
Inductive BackendCall :=
| CallDelete (memory_id : string)
| CallUpdate (memory_id : string) (updates : Metadata).

(** [InMemoryBackend]: [_store] is the list of the stored dicts (their
    addresses), [objects] the dicts themselves.  [calls] records the
    [delete] and [update] calls received, latest first. *)
Record Backend := mkBackend {
  objects : Heap;
  _store : list nat;
  calls : list BackendCall
}.

Definition has_id (h : Heap) (memory_id : string) (a : nat) : bool :=
  String.eqb (mem_id (h a)) memory_id.

(** [dict.update]: the keys of [src] overwrite those of [dst]. *)
Definition merge_field {A} (dst src : option A) : option A :=
  match src with
  | Some v => Some v
  | None => dst
  end.

Definition metadata_update (dst src : Metadata) : Metadata :=
  mkMetadata (merge_field (importance_score dst) (importance_score src))
             (merge_field (access_count dst) (access_count src))
             (merge_field (timestamp dst) (timestamp src))
             (merge_field (consolidated dst) (consolidated src)).

(** [self._store.pop(i)] for the first [i] whose dict has the id. *)
Fixpoint remove_first (h : Heap) (memory_id : string) (l : list nat)
    : list nat :=
  match l with
  | [] => []
  | a :: t =>
      if has_id h memory_id a then t else a :: remove_first h memory_id t
  end.

(** [l[i]], with Python's negative indices; [None] is [IndexError]. *)
Definition py_index {A} (l : list A) (i : Z) : option A :=
  let n := Z.of_nat (List.length l) in
  if (0 <=? i)%Z then nth_error l (Z.to_nat i)
  else if (0 <=? n + i)%Z then nth_error l (Z.to_nat (n + i))
  else None.

(** [l[:k]]: a negative [k] counts from the end. *)
Definition py_take {A} (l : list A) (k : Z) : list A :=
  if (0 <=? k)%Z then firstn (Z.to_nat k) l
  else firstn (Z.to_nat (Z.of_nat (List.length l) + k)) l.

(** The methods of [InMemoryBackend]. *)
Module InMemoryBackend.

(** [for mem in self._store: if mem.get("id") == memory_id: return mem] *)
Definition get (b : Backend) (memory_id : string) : option nat :=
  find (has_id (objects b) memory_id) (_store b).

(** [InMemoryBackend.update(memory_id, {"metadata": updates})]:
    [mem.setdefault("metadata", {}).update(updates["metadata"])] on the
    first stored dict with that id. *)
Definition update (b : Backend) (memory_id : string)
    (updates : Metadata) : Backend :=
  let logged := CallUpdate memory_id updates :: calls b in
  match get b memory_id with
  | Some a =>
      let mem := objects b a in
      let mem' :=
        set_metadata mem (Some (metadata_update (get_metadata mem) updates)) in
      mkBackend (heap_set (objects b) a mem') (_store b) logged
  | None => mkBackend (objects b) (_store b) logged
  end.

(** [InMemoryBackend.delete(memory_id)] *)
Definition delete (b : Backend) (memory_id : string) : Backend :=
  mkBackend (objects b) (remove_first (objects b) memory_id (_store b))
            (CallDelete memory_id :: calls b).

(** [InMemoryBackend.get_all]: [self._store.copy()], a new list of the same
    dicts. *)
Definition get_all (b : Backend) : list nat := _store b.

(** [InMemoryBackend.add(memory)], for the dict at address [a]:
    [self._store.append(memory)]; the call returns [memory["id"]]. *)
Definition add (b : Backend) (a : nat) : Backend :=
  mkBackend (objects b) (_store b ++ [a]) (calls b).

(** [InMemoryBackend.query(query_embedding, top_k)]:
    [self._store[:top_k] if len(self._store) > top_k
     else self._store.copy()]. *)
Definition query (b : Backend) (query_embedding : list R) (top_k : Z)
    : list nat :=
  if (top_k <? Z.of_nat (List.length (_store b)))%Z
  then py_take (_store b) top_k
  else _store b.

(** The value [update] and [delete] return: [True] when a stored dict has
    the id, [False] at the end of the loop otherwise. *)
Definition returns_true (b : Backend) (memory_id : string) : bool :=
  match get b memory_id with
  | Some _ => true
  | None => false
  end.

End InMemoryBackend.

(** ** The decay engine *)

(** [max(0.0, min(1.0, x))] *)
Definition clamp01 (x : R) : R := Rmax 0 (Rmin 1 x).

Record DecayConfig := mkDecayConfig {
  decay_rate : R;
  forget_threshold : R;
  consolidation_threshold : R;
  min_age_days : Z
}.

(** [DecayConfig()] *)
Definition default_config : DecayConfig :=
  mkDecayConfig (5 / 100) (2 / 10) (4 / 10) 1.

(** The [stats] dict of a cycle. *)
Record Stats := mkStats {
  total : nat;
  updated : nat;
  consolidated_count : nat;
  forgotten : nat;
  errors : nat
}.

Definition add_updated (s : Stats) : Stats :=
  mkStats (total s) (S (updated s)) (consolidated_count s) (forgotten s)
          (errors s).

Definition add_consolidated (s : Stats) : Stats :=
  mkStats (total s) (updated s) (S (consolidated_count s)) (forgotten s)
          (errors s).

Definition add_forgotten (s : Stats) : Stats :=
  mkStats (total s) (updated s) (consolidated_count s) (S (forgotten s))
          (errors s).

Definition add_error (s : Stats) : Stats :=
  mkStats (total s) (updated s) (consolidated_count s) (forgotten s)
          (S (errors s)).

(** The methods of [DecayEngine]; [config], [backend] and [summarizer_fn]
    are the fields of the engine. *)
Module DecayEngine.

Section Methods.

(** [self.config] *)
Variable config : DecayConfig.

(** [(datetime.utcnow() - datetime.fromisoformat(ts)).days], [None] when
    the parser raises. *)
Variable age_days_of : string -> option Z.

(** [self.summarizer_fn]; the function returns [None] when it raises. *)
Variable summarizer_fn : option (string -> Z -> Z -> option string).

(** [DecayEngine.calculate_decay]: the score it returns.  The exponent
    is at most 0 when the decay rate and the age are not negative; for an
    exponent above about 709.78 [math.exp] raises [OverflowError], which
    is not modelled: the statements on the errors of a cycle are for
    configurations whose decay rate and minimum age are not negative. *)
Definition calculate_decay (memory : Memory) : R :=
  let md := get_metadata memory in
  let initial_score := get_importance_score md in
  let access := Z.max 1 (get_access_count md) in
  match timestamp md with
  | None => initial_score
  | Some timestamp_str =>
      if negb (truthy timestamp_str) then initial_score
      else
        match age_days_of timestamp_str with
        | None => initial_score
        | Some age_days =>
            if (age_days <? min_age_days config)%Z then initial_score
            else
              let new_score :=
                initial_score *
                exp (- decay_rate config * IZR age_days
                     / (ln (IZR access) + 1)) in
              clamp01 new_score
        end
  end.

(** [DecayEngine.consolidate_memory], on the dict at address [a]. *)
Definition consolidate_memory (h : Heap) (a : nat) : Heap :=
  match summarizer_fn with
  | None => h
  | Some summarize =>
      let memory := h a in
      let raw_text :=
        str_or (get_text (raw memory)) (get_text (content_summary memory)) in
      if negb (truthy raw_text) then h
      else
        match summarize raw_text 20%Z 80%Z with
        | None => h
        | Some gist =>
            let memory1 := set_texts memory gist in
            match metadata memory1 with
            | Some md =>
                heap_set h a
                  (set_metadata memory1 (Some (set_consolidated md true)))
            | None =>
                (* KeyError on memory["metadata"], caught: the texts are
                   already overwritten *)
                heap_set h a memory1
            end
        end
  end.

(** [memory["metadata"]["importance_score"] = new_score]; [None] is the
    [KeyError] of a dict without ["metadata"]. *)
Definition store_score (h : Heap) (a : nat) (new_score : R) : option Heap :=
  match metadata (h a) with
  | Some md =>
      Some (heap_set h a
              (set_metadata (h a) (Some (set_importance_score md new_score))))
  | None => None
  end.

(** The two statements that persist a score:
    [memory["metadata"]["importance_score"] = new_score;
     self.backend.update(mem_id, {"metadata": memory["metadata"]});
     stats["updated"] += 1], with the [except] of the loop body. *)
Definition persist_score (b : Backend) (st : Stats) (a : nat)
    (memory_id : string) (new_score : R) : Backend * Stats :=
  match store_score (objects b) a new_score with
  | None => (b, add_error st)
  | Some h =>
      let b1 := mkBackend h (_store b) (calls b) in
      (InMemoryBackend.update b1 memory_id (get_metadata (h a)),
       add_updated st)
  end.

(** The body of the loop of [run_decay_cycle], for the dict at [a]. *)
Definition process_memory (bs : Backend * Stats) (a : nat)
    : Backend * Stats :=
  let (b, st) := bs in
  let memory := objects b a in
  let memory_id := mem_id memory in
  let old_score := get_importance_score (get_metadata memory) in
  let new_score := calculate_decay memory in
  if Rlt_dec new_score (forget_threshold config) then
    (InMemoryBackend.delete b memory_id, add_forgotten st)
  else if Rlt_dec new_score (consolidation_threshold config) then
    let (b1, st1) :=
      if negb (get_consolidated (get_metadata memory)) then
        (mkBackend (consolidate_memory (objects b) a) (_store b) (calls b),
         add_consolidated st)
      else (b, st) in
    persist_score b1 st1 a memory_id new_score
  else
    if Rgt_dec (Rabs (new_score - old_score)) (1 / 100) then
      persist_score b st a memory_id new_score
    else (b, st).

(** [DecayEngine.run_decay_cycle] with an [InMemoryBackend]. *)
Definition run_decay_cycle (b : Backend) : Backend * Stats :=
  let memories := InMemoryBackend.get_all b in
  fold_left process_memory memories
            (b, mkStats (List.length memories) 0 0 0 0).

End Methods.

End DecayEngine.

Import DecayEngine.

(** ** Python lists and strings *)

(** [str.lower], on ASCII letters. *)
Definition lower_ascii (c : ascii) : ascii :=
  let n := nat_of_ascii c in
  if (65 <=? n)%nat && (n <=? 90)%nat then ascii_of_nat (n + 32) else c.

Fixpoint lower (s : string) : string :=
  match s with
  | EmptyString => EmptyString
  | String c rest => String (lower_ascii c) (lower rest)
  end.

(** The ASCII characters [str.split()] separates on. *)
Definition is_space (c : ascii) : bool :=
  let n := nat_of_ascii c in
  ((9 <=? n)%nat && (n <=? 13)%nat) || ((28 <=? n)%nat && (n <=? 32)%nat).

(** [str.split()]: the maximal runs of characters that are not spaces;
    [cur] is the run being read. *)
Fixpoint split_from (cur : string) (s : string) : list string :=
  match s with
  | EmptyString => if truthy cur then [cur] else []
  | String c rest =>
      if is_space c then
        if truthy cur then cur :: split_from EmptyString rest
        else split_from EmptyString rest
      else split_from (cur ++ String c EmptyString)%string rest
  end.

Definition split (s : string) : list string := split_from EmptyString s.

(** [set(s.split())], as a list without repetition. *)
Definition token_set (s : string) : list string :=
  nodup string_dec (split s).

(** [len(query_tokens & content_tokens)] *)
Definition overlap (query_tokens content_tokens : list string) : nat :=
  List.length
    (filter (fun t => existsb (String.eqb t) content_tokens) query_tokens).

(** [np.dot] of two vectors; [None] is the [ValueError] of vectors of
    different lengths. *)
Fixpoint np_dot (u v : list R) : option R :=
  match u, v with
  | [], [] => Some 0
  | x :: u', y :: v' =>
      match np_dot u' v' with
      | Some d => Some (x * y + d)
      | None => None
      end
  | _, _ => None
  end.

(** [np.linalg.norm] *)
Definition np_norm (u : list R) : R :=
  sqrt (fold_right (fun x acc => x * x + acc) 0 u).

(** ** Retrieval *)

(** A result dict [{**memory, "score": ..., "debug_semantic": ...,
    "debug_lexical": ...}]: a new dict with the values of the memory at
    [res_source] (the metadata dict is shared with it) and three scores. *)
Record Result := mkResult {
  res_source : nat;
  score : R;
  debug_semantic : R;
  debug_lexical : R
}.

(** [list.sort(key=lambda x: x["score"], reverse=True)]: a stable sort,
    equal scores keep their order. *)
Fixpoint insert_desc (x : Result) (l : list Result) : list Result :=
  match l with
  | [] => [x]
  | y :: t =>
      if Rlt_dec (score x) (score y) then y :: insert_desc x t else x :: l
  end.

Definition sort_desc (l : list Result) : list Result :=
  fold_right insert_desc [] l.

(** [memory.get("content_summary", "") or memory.get("raw", "")] *)
Definition text_to_index (memory : Memory) : string :=
  str_or (get_text (content_summary memory)) (get_text (raw memory)).

(** The lexical score of a memory for the tokens of the query. *)
Definition lexical_score (query_tokens : list string) (memory : Memory) : R :=
  let content := lower (text_to_index memory) in
  let content_tokens := token_set content in
  if (0 <? List.length query_tokens)%nat then
    INR (overlap query_tokens content_tokens) / INR (List.length query_tokens)
  else 0.

(** [memory["metadata"]["access_count"] =
     memory["metadata"].get("access_count", 1) + 1]; [None] is the
    [KeyError] of a dict without ["metadata"]. *)
Definition bump_access_count (h : Heap) (a : nat) : option Heap :=
  match metadata (h a) with
  | Some md =>
      Some (heap_set h a
              (set_metadata (h a)
                 (Some (set_access_count md (get_access_count md + 1)))))
  | None => None
  end.

(** [not mem_emb]: no embedding, or an empty one. *)
Definition has_embedding (memory : Memory) : bool :=
  match embedding memory with
  | Some (_ :: _) => true
  | _ => false
  end.

Section Retrieval.

(** The type of a FAISS index. *)
Variable FaissIndex : Type.

(** [index.search(query_vec, k)] on the normalized query: the [k] pairs
    (position, inner product) of [indices[0]] and [scores[0]]. *)
Variable index_search : FaissIndex -> list R -> Z -> list (Z * R).

(** [encoder.generate_embedding]; [None] when it raises. *)
Variable generate_embedding : string -> option (list R).

Variable FAISS_AVAILABLE : bool.

Record FAISSRetriever := mkFAISSRetriever {
  faiss_index : option FaissIndex;
  min_confidence : R;
  memory_ids : list string
}.

(** The loop of [FAISSRetriever.retrieve] over the hits of the search. *)
Fixpoint retrieve_hits (r : FAISSRetriever) (hits : list (Z * R))
    : option (list (string * R)) :=
  match hits with
  | [] => Some []
  | (idx, hit_score) :: rest =>
      if (idx <? Z.of_nat (List.length (memory_ids r)))%Z then
        if Rge_dec hit_score (min_confidence r) then
          match py_index (memory_ids r) idx with
          | Some memory_id =>
              match retrieve_hits r rest with
              | Some found => Some ((memory_id, hit_score) :: found)
              | None => None
              end
          | None => None
          end
        else retrieve_hits r rest
      else retrieve_hits r rest
  end.

(** [FAISSRetriever.retrieve]: the ids and scores found, paired. *)
Definition retrieve (r : FAISSRetriever) (query_embedding : list R)
    (top_k : Z) : option (list (string * R)) :=
  if negb FAISS_AVAILABLE then Some []
  else
    match faiss_index r with
    | None => Some []
    | Some idx => retrieve_hits r (index_search idx query_embedding top_k)
    end.

(** The loop of the indexed path of [retrieve_memories_from_ltm]: the
    heap after it and the list [results], [None] if it raised. *)
Fixpoint score_candidates (_MEM_STORE : list nat)
    (query_tokens : list string) (hybrid_weight : R) (h : Heap)
    (candidates : list (string * R)) : Heap * option (list Result) :=
  match candidates with
  | [] => (h, Some [])
  | (memory_id, sem_score) :: rest =>
      match find (has_id h memory_id) _MEM_STORE with
      | None => score_candidates _MEM_STORE query_tokens hybrid_weight h rest
      | Some a =>
          let lex_score := lexical_score query_tokens (h a) in
          let hybrid_score :=
            hybrid_weight * sem_score + (1 - hybrid_weight) * lex_score in
          match bump_access_count h a with
          | None => (h, None)
          | Some h1 =>
              let (h2, results) :=
                score_candidates _MEM_STORE query_tokens hybrid_weight
                                 h1 rest in
              (h2,
               option_map
                 (cons (mkResult a hybrid_score sem_score lex_score))
                 results)
          end
      end
  end.

(** The loop of [_fallback_retrieve] over [_MEM_STORE].  The similarity
    is the quotient of real numbers; it is the one [numpy] computes where
    neither norm is 0 (see [similarities_defined]). *)
Fixpoint scan_memories (query_emb : list R) (query_tokens : list string)
    (hybrid_weight : R) (h : Heap) (memories : list nat)
    : Heap * option (list Result) :=
  match memories with
  | [] => (h, Some [])
  | a :: rest =>
      if negb (has_embedding (h a)) then
        scan_memories query_emb query_tokens hybrid_weight h rest
      else
        let mem_emb :=
          match embedding (h a) with Some e => e | None => [] end in
        match np_dot query_emb mem_emb with
        | None => (h, None)
        | Some dot =>
            let semantic_score :=
              dot / (np_norm query_emb * np_norm mem_emb) in
            let lexical := lexical_score query_tokens (h a) in
            let hybrid_score :=
              hybrid_weight * semantic_score
              + (1 - hybrid_weight) * lexical in
            match bump_access_count h a with
            | None => (h, None)
            | Some h1 =>
                let (h2, results) :=
                  scan_memories query_emb query_tokens hybrid_weight
                                h1 rest in
                (h2,
                 option_map
                   (cons (mkResult a hybrid_score semantic_score lexical))
                   results)
            end
        end
  end.

(** [results.sort(key=..., reverse=True); return results[:top_k]] *)
Definition rank (top_k : Z) (scored : Heap * option (list Result))
    : Heap * option (list Result) :=
  (fst scored,
   option_map (fun results => py_take (sort_desc results) top_k)
              (snd scored)).

(** [_fallback_retrieve] *)
Definition _fallback_retrieve (h : Heap) (_MEM_STORE : list nat)
    (query_embedding : list R) (query_tokens : list string) (top_k : Z)
    (hybrid_weight : R) : Heap * option (list Result) :=
  rank top_k
    (scan_memories query_embedding query_tokens hybrid_weight h _MEM_STORE).

(** The test that selects the indexed path. *)
Definition indexed_path (r : FAISSRetriever) (use_faiss : bool) : bool :=
  use_faiss && FAISS_AVAILABLE &&
  match faiss_index r with Some _ => true | None => false end.

(** [retrieve_memories_from_ltm]: the heap after the call and the list
    returned, [None] if the call raised. *)
Definition retrieve_memories_from_ltm (r : FAISSRetriever) (h : Heap)
    (_MEM_STORE : list nat) (query : string) (top_k : Z)
    (use_faiss : bool) (hybrid_weight : R) : Heap * option (list Result) :=
  match _MEM_STORE with
  | [] => (h, Some [])
  | _ :: _ =>
      match generate_embedding query with
      | None => (h, None)
      | Some query_embedding =>
          let query_tokens := token_set (lower query) in
          if indexed_path r use_faiss then
            match retrieve r query_embedding (top_k * 2) with
            | None => (h, None)
            | Some candidates =>
                rank top_k
                  (score_candidates _MEM_STORE query_tokens hybrid_weight
                                    h candidates)
            end
          else
            _fallback_retrieve h _MEM_STORE query_embedding query_tokens
                               top_k hybrid_weight
      end
  end.

End Retrieval.

Arguments faiss_index {FaissIndex} _.
Arguments min_confidence {FaissIndex} _.
Arguments memory_ids {FaissIndex} _.
Arguments retrieve_hits {FaissIndex} _ _.
Arguments retrieve {FaissIndex} _ _ _ _ _.
Arguments indexed_path {FaissIndex} _ _ _.
Arguments retrieve_memories_from_ltm {FaissIndex} _ _ _ _ _ _ _ _ _ _.

(** ** Vocabulary of the properties *)

(** The records whose score the recomputation does not touch: no
    timestamp (absent or empty), a timestamp the parser rejects, or an age
    below [min_age_days]. *)
Inductive keeps_score (config : DecayConfig)
    (age_days_of : string -> option Z) (memory : Memory) : Prop :=
| ks_missing :
    timestamp (get_metadata memory) = None ->
    keeps_score config age_days_of memory
| ks_empty :
    timestamp (get_metadata memory) = Some EmptyString ->
    keeps_score config age_days_of memory
| ks_unparsable ts :
    timestamp (get_metadata memory) = Some ts ->
    age_days_of ts = None ->
    keeps_score config age_days_of memory
| ks_young ts age_days :
    timestamp (get_metadata memory) = Some ts ->
    age_days_of ts = Some age_days ->
    (age_days < min_age_days config)%Z ->
    keeps_score config age_days_of memory.

(** The records the decay formula is applied to, with their age. *)
Definition decays_at (config : DecayConfig)
    (age_days_of : string -> option Z) (memory : Memory) (age_days : Z)
    : Prop :=
  exists ts,
    timestamp (get_metadata memory) = Some ts /\ ts <> EmptyString /\
    age_days_of ts = Some age_days /\ (min_age_days config <= age_days)%Z.

(** The age in days [calculate_decay] computes for a record; [None] for a
    record without a timestamp, with an empty one or with one the parser
    rejects. *)
Definition record_age (age_days_of : string -> option Z) (memory : Memory)
    : option Z :=
  match timestamp (get_metadata memory) with
  | None => None
  | Some timestamp_str =>
      if truthy timestamp_str then age_days_of timestamp_str else None
  end.

(** The text [consolidate_memory] hands to the summarizer:
    [memory.get("raw", "") or memory.get("content_summary", "")]. *)
Definition text_to_summarize (memory : Memory) : string :=
  str_or (get_text (raw memory)) (get_text (content_summary memory)).

(** The summarizer is called on the record and raises. *)
Definition summarizer_raises
    (summarizer_fn : option (string -> Z -> Z -> option string))
    (memory : Memory) : Prop :=
  exists summarize,
    summarizer_fn = Some summarize /\
    truthy (text_to_summarize memory) = true /\
    summarize (text_to_summarize memory) 20%Z 80%Z = None.

(** The summarizer is called on the record and returns [gist]. *)
Definition summarizer_returns
    (summarizer_fn : option (string -> Z -> Z -> option string))
    (memory : Memory) (gist : string) : Prop :=
  exists summarize,
    summarizer_fn = Some summarize /\
    truthy (text_to_summarize memory) = true /\
    summarize (text_to_summarize memory) 20%Z 80%Z = Some gist.

(** The score of the record at an address. *)
Definition score_at (h : Heap) (a : nat) : R :=
  get_importance_score (get_metadata (h a)).

(** The score of a record lies in [0,1]. *)
Definition score_in_range (h : Heap) (a : nat) : Prop :=
  0 <= score_at h a <= 1.

(** The recomputed score of the record at [a] is below the forget
    threshold. *)
Definition forgets (config : DecayConfig) (age_days_of : string -> option Z)
    (h : Heap) (a : nat) : bool :=
  if Rlt_dec (calculate_decay config age_days_of (h a))
             (forget_threshold config)
  then true else false.

(** The id a backend call is made with. *)
Definition call_id (c : BackendCall) : string :=
  match c with
  | CallDelete memory_id => memory_id
  | CallUpdate memory_id _ => memory_id
  end.

(** The calls made with the id [memory_id], latest first. *)
Definition calls_with (memory_id : string) (cs : list BackendCall)
    : list BackendCall :=
  filter (fun c => String.eqb (call_id c) memory_id) cs.

(** The ids of the stored records. *)
Definition stored_ids (h : Heap) (l : list nat) : list string :=
  map (fun a => mem_id (h a)) l.

(** ** Vocabulary of the retrieval properties *)

(** The result has hybrid score [v]. *)
Definition has_score (v : R) (x : Result) : bool :=
  if Req_dec_T (score x) v then true else false.

(** The scores do not increase along the list. *)
Definition sorted_desc (l : list Result) : Prop :=
  StronglySorted (fun x y => score x >= score y) l.

(** Ties keep the order of the candidates: among the candidates of any
    one score, [out] holds the first ones, in the order of [results]. *)
Definition keeps_tie_order (results out : list Result) : Prop :=
  forall v, exists later,
    filter (has_score v) results = filter (has_score v) out ++ later.

(** The stored dicts the candidates of the index resolve to, in the order
    of the candidates: [next((m for m in _MEM_STORE if m.get("id") ==
    mem_id), None)]. *)
Definition resolve_candidates (h : Heap) (_MEM_STORE : list nat)
    (candidates : list (string * R)) : list nat :=
  flat_map
    (fun c =>
       match find (has_id h (fst c)) _MEM_STORE with
       | Some a => [a]
       | None => []
       end)
    candidates.

(** The stored dicts the linear scan scores. *)
Definition scanned_memories (h : Heap) (_MEM_STORE : list nat) : list nat :=
  filter (fun a => has_embedding (h a)) _MEM_STORE.


(** The access count of the record at an address. *)
Definition access_count_at (h : Heap) (a : nat) : Z :=
  get_access_count (get_metadata (h a)).

Section ScoredResults.

Variable FaissIndex : Type.
Variable index_search : FaissIndex -> list R -> Z -> list (Z * R).
Variable generate_embedding : string -> option (list R).
Variable FAISS_AVAILABLE : bool.

(** The list [results] of [retrieve_memories_from_ltm] before it is
    sorted and cut, in the order the candidates were scored, and the heap
    at that point. *)
Definition scored_results (r : FAISSRetriever FaissIndex) (h : Heap)
    (_MEM_STORE : list nat) (query : string) (top_k : Z)
    (use_faiss : bool) (hybrid_weight : R) : Heap * option (list Result) :=
  match _MEM_STORE with
  | [] => (h, Some [])
  | _ :: _ =>
      match generate_embedding query with
      | None => (h, None)
      | Some query_embedding =>
          let query_tokens := token_set (lower query) in
          if indexed_path FAISS_AVAILABLE r use_faiss then
            match retrieve index_search FAISS_AVAILABLE r query_embedding
                           (top_k * 2) with
            | None => (h, None)
            | Some candidates =>
                score_candidates _MEM_STORE query_tokens hybrid_weight
                                 h candidates
            end
          else
            scan_memories query_embedding query_tokens hybrid_weight
                          h _MEM_STORE
      end
  end.

(** The addresses of the dicts that are scored, once per scoring. *)
Definition scored_memories (r : FAISSRetriever FaissIndex) (h : Heap)
    (_MEM_STORE : list nat) (query : string) (top_k : Z)
    (use_faiss : bool) : list nat :=
  match _MEM_STORE with
  | [] => []
  | _ :: _ =>
      match generate_embedding query with
      | None => []
      | Some query_embedding =>
          if indexed_path FAISS_AVAILABLE r use_faiss then
            match retrieve index_search FAISS_AVAILABLE r query_embedding
                           (top_k * 2) with
            | None => []
            | Some candidates =>
                resolve_candidates h _MEM_STORE candidates
            end
          else scanned_memories h _MEM_STORE
      end
  end.

(** The ids [FAISSRetriever.retrieve] returns for the query, with their
    repetitions; none when the query has no embedding or the call
    raises. *)
Definition candidate_ids (r : FAISSRetriever FaissIndex) (query : string)
    (top_k : Z) : list string :=
  match generate_embedding query with
  | None => []
  | Some query_embedding =>
      match retrieve index_search FAISS_AVAILABLE r query_embedding
                     (top_k * 2) with
      | None => []
      | Some candidates => map fst candidates
      end
  end.

End ScoredResults.

Arguments scored_results {FaissIndex} _ _ _ _ _ _ _ _ _ _.
Arguments scored_memories {FaissIndex} _ _ _ _ _ _ _ _ _.
Arguments candidate_ids {FaissIndex} _ _ _ _ _ _.

(** ** Example records and collaborators *)

(** A record as [add_memory_to_ltm] stores it, with the given id, score,
    access count and timestamp. *)
Definition example_record (memory_id : string) (s : R) (a : Z)
    (ts : option string) : Memory :=
  mkMemory memory_id
           (Some "A knight fought a dragon."%string)
           (Some "A knight fought a dragon in the mountains."%string)
           None
           (Some (mkMetadata (Some s) (Some a) ts None)).

(** A clock and parser for which every timestamp is [age] days old. *)
Definition clock (age : Z) : string -> option Z := fun _ => Some age.

(** A backend that stores the one record [memory], at address 0. *)
Definition single (memory : Memory) : Backend :=
  mkBackend (fun _ => memory) [0%nat] [].

(** The statistics of a cycle before its loop. *)
Definition initial_stats (n : nat) : Stats := mkStats n 0 0 0 0.

(** A summarizer that returns the empty string. *)
Definition empty_summarizer : option (string -> Z -> Z -> option string) :=
  Some (fun _ _ _ => Some EmptyString).

(** A summarizer that raises. *)
Definition failing_summarizer : option (string -> Z -> Z -> option string) :=
  Some (fun _ _ _ => None).

(** [DecayConfig(decay_rate=-0.05)] *)
Definition negative_rate_config : DecayConfig :=
  mkDecayConfig (- 5 / 100) (2 / 10) (4 / 10) 1.

Definition today : option string := Some "2026-11-03T09:00:00"%string.

(** A record with an embedding, as ingestion stores it. *)
Definition embedded_record (memory_id : string) (emb : list R) : Memory :=
  mkMemory memory_id
           (Some "A knight fought a dragon."%string)
           (Some "A knight fought a dragon in the mountains."%string)
           (Some emb)
           (Some (mkMetadata (Some (5 / 10)) (Some 1%Z) today None)).

(** Two stored records, ["m0"] at address 0 and ["m1"] at address 1. *)
Definition two_records : Heap :=
  fun a =>
    match a with
    | O => embedded_record "m0" [1]
    | S _ => embedded_record "m1" [1]
    end.

(** An embedding model that maps every text to the same vector. *)
Definition constant_embedding : string -> option (list R) :=
  fun _ => Some [1].

(** A retriever without an index. *)
Definition no_index : FAISSRetriever unit :=
  mkFAISSRetriever unit None (45 / 100) [].

(** What a FAISS search for [k] neighbours returns beyond the vectors of
    the index: position -1, with the lowest [float32] as its score. *)
Definition faiss_padding (n : nat) : list (Z * R) :=
  repeat ((-1)%Z, - 340282346638528859811704183484516925440) n.

(** The search for [k] neighbours in an index whose vectors are found
    with the similarities [found], best first: the [k] best, padded to
    [k] entries.  FAISS refuses a search for [k <= 0] neighbours; the
    examples search with [k >= 1]. *)
Definition search_among (found : list (Z * R)) (k : Z) : list (Z * R) :=
  firstn (Z.to_nat k) found
  ++ faiss_padding (Z.to_nat k - List.length found).

(** A retriever with an index over the two records, and a search that
    finds the first with similarity 0.9 and the second with 0.3. *)
Definition two_record_index : FAISSRetriever unit :=
  mkFAISSRetriever unit (Some tt) (45 / 100) ["m0"; "m1"]%string.

Definition two_record_search : unit -> list R -> Z -> list (Z * R) :=
  fun _ _ k => search_among [(0%Z, 9 / 10); (1%Z, 3 / 10)] k.

(** The same retriever with the confidence floor 0.25:
    [FAISSRetriever(min_confidence=0.25)]. *)
Definition lenient_index : FAISSRetriever unit :=
  mkFAISSRetriever unit (Some tt) (25 / 100) ["m0"; "m1"]%string.

(** The same story stored twice: two dicts with the same id, the
    retriever [build_index] makes of them, and a search that finds both
    with similarity 1. *)
Definition twin_records : Heap := fun _ => embedded_record "m0" [1].

Definition twin_index : FAISSRetriever unit :=
  mkFAISSRetriever unit (Some tt) (45 / 100) ["m0"; "m0"]%string.

Definition twin_search : unit -> list R -> Z -> list (Z * R) :=
  fun _ _ k => search_among [(0%Z, 1); (1%Z, 1)] k.



(** Two stored records that carry the same id: the first of score 0.9,
    the second of score 0.15. *)
Definition shared_id_records : Heap :=
  fun a =>
    match a with
    | O => example_record "m0" (9 / 10) 1 today
    | S _ => example_record "m0" (15 / 100) 1 today
    end.

(** ** Vocabulary of the further properties *)

(** [l1] is [l2] with some elements left out, in the same order. *)
Inductive subseq {A : Type} : list A -> list A -> Prop :=
| subseq_nil : subseq [] []
| subseq_skip x l1 l2 : subseq l1 l2 -> subseq l1 (x :: l2)
| subseq_keep x l1 l2 : subseq l1 l2 -> subseq (x :: l1) (x :: l2).

(** Every stored dict has a ["metadata"] dict. *)
Definition all_have_metadata (h : Heap) (l : list nat) : Prop :=
  forall a, In a l -> metadata (h a) <> None.

(** The number of the dicts of a list that carry an id. *)
Definition count_id (h : Heap) (memory_id : string) (l : list nat) : nat :=
  List.length (filter (has_id h memory_id) l).

(** The dict at an address has no ["metadata"] key. *)
Definition no_metadata (h : Heap) (a : nat) : bool :=
  match metadata (h a) with
  | Some _ => false
  | None => true
  end.

(** The default score [0.5] of a dict without metadata falls between the
    two thresholds. *)
Definition default_score_consolidates (config : DecayConfig) : Prop :=
  forget_threshold config <= 5 / 10 < consolidation_threshold config.

(** The dict [memory] after [memory["metadata"]["importance_score"] = v]:
    the assignment raises on a dict without metadata and leaves it as it
    is. *)
Definition with_score (memory : Memory) (v : R) : Memory :=
  match metadata memory with
  | Some md => set_metadata memory (Some (set_importance_score md v))
  | None => memory
  end.

(** The recomputed score of a record lies in the consolidation band. *)
Definition in_consolidation_band (config : DecayConfig)
    (age_days_of : string -> option Z) (memory : Memory) : Prop :=
  forget_threshold config <= calculate_decay config age_days_of memory
  /\ calculate_decay config age_days_of memory
     < consolidation_threshold config.

(** A summarizer that returns the same gist for every text. *)
Definition gist_summarizer : option (string -> Z -> Z -> option string) :=
  Some (fun _ _ _ => Some "A knight fought a dragon."%string).

(** ** Vocabulary of the further retrieval properties *)

(** The dict [after] is the dict [before] but for a larger or equal access
    count. *)
Definition same_but_access_count (before after : Memory) : Prop :=
  mem_id after = mem_id before /\
  content_summary after = content_summary before /\
  raw after = raw before /\
  embedding after = embedding before /\
  (metadata after = None <-> metadata before = None) /\
  importance_score (get_metadata after)
  = importance_score (get_metadata before) /\
  timestamp (get_metadata after) = timestamp (get_metadata before) /\
  consolidated (get_metadata after) = consolidated (get_metadata before) /\
  (get_access_count (get_metadata before)
   <= get_access_count (get_metadata after))%Z.

(** The hybrid score of a result is the weighted sum of its two parts. *)
Definition is_hybrid_of (hybrid_weight : R) (x : Result) : Prop :=
  score x
  = hybrid_weight * debug_semantic x
    + (1 - hybrid_weight) * debug_lexical x.

(** ** Building the index and adding a memory ([memory_store.py]) *)

(** [mem.get("embedding")] of a dict that has one. *)
Definition get_embedding (memory : Memory) : list R :=
  match embedding memory with
  | Some e => e
  | None => []
  end.

Definition set_embedding (memory : Memory) (e : option (list R)) : Memory :=
  mkMemory (mem_id memory) (content_summary memory) (raw memory) e
           (metadata memory).

(** The dict handed to [add_memory_to_ltm]: any of its keys may be
    absent. *)
Record MemoryObj := mkMemoryObj {
  obj_id : option string;
  obj_content_summary : option string;
  obj_raw : option string;
  obj_embedding : option (list R);
  obj_metadata : option Metadata
}.

(** The three [if key not in memory_obj["metadata"]] statements of
    [add_memory_to_ltm]: a key that is present keeps its value. *)
Definition with_metadata_defaults (utcnow : string) (md : Metadata)
    : Metadata :=
  mkMetadata
    (match importance_score md with
     | Some s => Some s
     | None => Some (5 / 10)
     end)
    (match access_count md with
     | Some c => Some c
     | None => Some 1%Z
     end)
    (match timestamp md with
     | Some ts => Some ts
     | None => Some utcnow
     end)
    (consolidated md).

Section IndexBuilding.

Variable FaissIndex : Type.

Variable FAISS_AVAILABLE : bool.

(** [np.array(embeddings, dtype='float32')], [faiss.normalize_L2],
    [faiss.IndexFlatIP(dimension)] and [index.add]: the index over the
    embeddings; [None] when [np.array] raises, as it does on embeddings of
    different lengths. *)
Variable new_index : list (list R) -> option FaissIndex.

(** [encoder.generate_embedding]; [None] when it raises. *)
Variable generate_embedding : string -> option (list R).

(** [f"mem_{len(_MEM_STORE)}_{hash(str(memory_obj))}"] *)
Variable object_id : nat -> MemoryObj -> string.

(** [datetime.utcnow().isoformat()] at the time of the call. *)
Variable utcnow : string.

(** [FAISSRetriever.build_index]: the retriever after the call and the
    value returned, [None] if the call raised.  The write-only field
    [dimension] is left out. *)
Definition build_index (r : FAISSRetriever FaissIndex) (h : Heap)
    (memories : list nat) : FAISSRetriever FaissIndex * option bool :=
  if negb FAISS_AVAILABLE then (r, Some false)
  else
    match memories with
    | [] => (r, Some false)
    | _ :: _ =>
        let indexed := filter (fun a => has_embedding (h a)) memories in
        let embeddings := map (fun a => get_embedding (h a)) indexed in
        let ids := map (fun a => mem_id (h a)) indexed in
        match embeddings with
        | [] => (r, Some false)
        | _ :: _ =>
            match new_index embeddings with
            | None => (r, None)
            | Some index =>
                (mkFAISSRetriever FaissIndex (Some index) (min_confidence r)
                                  ids,
                 Some true)
            end
        end
    end.

(** [rebuild_faiss_index] *)
Definition rebuild_faiss_index (r : FAISSRetriever FaissIndex) (h : Heap)
    (_MEM_STORE : list nat) : FAISSRetriever FaissIndex * option bool :=
  if negb FAISS_AVAILABLE then (r, Some false)
  else build_index r h _MEM_STORE.

(** The dict of [add_memory_to_ltm] after its id and its metadata are
    completed, before the embedding is looked at. *)
Definition completed_memory (_MEM_STORE : list nat) (memory_obj : MemoryObj)
    : Memory :=
  let memory_id :=
    match obj_id memory_obj with
    | Some i => i
    | None => object_id (List.length _MEM_STORE) memory_obj
    end in
  let md :=
    match obj_metadata memory_obj with
    | Some md => md
    | None => empty_metadata
    end in
  mkMemory memory_id (obj_content_summary memory_obj) (obj_raw memory_obj)
           (obj_embedding memory_obj)
           (Some (with_metadata_defaults utcnow md)).

(** [if not memory_obj.get("embedding"): ...]: the dict with its
    embedding, [None] when [generate_embedding] raises. *)
Definition ensure_embedding (memory : Memory) : option Memory :=
  if has_embedding memory then Some memory
  else
    let content := text_to_index memory in
    if truthy content then
      match generate_embedding content with
      | Some e => Some (set_embedding memory (Some e))
      | None => None
      end
    else Some memory.

(** [add_memory_to_ltm], for the dict [memory_obj] that lives at address
    [a]: the retriever, the heap and [_MEM_STORE] after the call, and the
    id returned, [None] if the call raised. *)
Definition add_memory_to_ltm (r : FAISSRetriever FaissIndex) (h : Heap)
    (_MEM_STORE : list nat) (a : nat) (memory_obj : MemoryObj)
    : (FAISSRetriever FaissIndex * Heap * list nat) * option string :=
  let memory0 := completed_memory _MEM_STORE memory_obj in
  match ensure_embedding memory0 with
  | None => ((r, heap_set h a memory0, _MEM_STORE), None)
  | Some memory =>
      let h' := heap_set h a memory in
      let store' := _MEM_STORE ++ [a] in
      if FAISS_AVAILABLE && has_embedding memory then
        match build_index r h' store' with
        | (r', Some _) => ((r', h', store'), Some (mem_id memory))
        | (r', None) => ((r', h', store'), None)
        end
      else ((r, h', store'), Some (mem_id memory))
  end.

End IndexBuilding.

Arguments build_index {FaissIndex} _ _ _ _ _.
Arguments rebuild_faiss_index {FaissIndex} _ _ _ _ _.
Arguments add_memory_to_ltm {FaissIndex} _ _ _ _ _ _ _ _ _ _.

(** ** Ingestion ([ingestion_module.py]) *)

(** [str.lstrip()], [str.rstrip()] and [str.strip()], on ASCII. *)
Fixpoint lstrip (s : string) : string :=
  match s with
  | EmptyString => EmptyString
  | String c rest => if is_space c then lstrip rest else s
  end.

Fixpoint rstrip (s : string) : string :=
  match s with
  | EmptyString => EmptyString
  | String c rest =>
      let rest' := rstrip rest in
      if is_space c && negb (truthy rest') then EmptyString
      else String c rest'
  end.

Definition strip (s : string) : string := rstrip (lstrip s).

(** [s[:k]] *)
Definition str_take (s : string) (k : Z) : string :=
  string_of_list_ascii (py_take (list_ascii_of_string s) k).

Section Ingestion.

(** [str(hash(text))] *)
Variable hash_str : string -> string.

(** The outcome of the call of [generate_embedding] on the text after
    [n] calls have failed; [None] when it raises. *)
Variable attempt : string -> nat -> option (list R).

(** The [while] loop of [ingest_story], entered with [retry_count]
    failures and [remaining = max_retries - retry_count]. *)
Fixpoint embed_with_retries (text : string) (retry_count remaining : nat)
    : option (list R) :=
  match remaining with
  | O => None
  | S k =>
      match attempt text retry_count with
      | Some e => Some e
      | None => embed_with_retries text (S retry_count) k
      end
  end.

(** [ingest_story]; the argument [llm_chain] is not used. *)
Definition ingest_story (raw_story_text : string) : option MemoryObj :=
  if negb (truthy raw_story_text) || negb (truthy (strip raw_story_text))
  then None
  else
    let text := strip raw_story_text in
    let summary :=
      if (150 <? String.length text)%nat
      then (str_take text 150 ++ "...")%string
      else text in
    match embed_with_retries text 0 3 with
    | None => None
    | Some e =>
        Some (mkMemoryObj (Some (hash_str text)) (Some summary) (Some text)
                          (Some e)
                          (Some (mkMetadata (Some (5 / 10)) (Some 1%Z)
                                            None None)))
    end.

End Ingestion.

(** ** Answering ([rag_module.py]) *)

(** ["\n\n"] *)
Definition two_newlines : string :=
  String (ascii_of_nat 10) (String (ascii_of_nat 10) EmptyString).

(** The loop of [_build_context_from_memories] over the texts
    [mem.get("content_summary") or mem.get("raw") or ""] of the
    memories: the list [context_parts]. *)
Fixpoint context_parts (texts : list string) (max_chars total_chars : Z)
    : list string :=
  match texts with
  | [] => []
  | t :: rest =>
      let text := strip t in
      if negb (truthy text) then context_parts rest max_chars total_chars
      else
        let passage := (text ++ two_newlines)%string in
        if (max_chars <? total_chars + Z.of_nat (String.length passage))%Z
        then
          let remaining := (max_chars - total_chars)%Z in
          if (100 <? remaining)%Z
          then [(str_take text (remaining - 20) ++ "..." ++ two_newlines)
                %string]
          else []
        else
          passage ::
          context_parts rest max_chars
                        (total_chars + Z.of_nat (String.length passage))
  end.

(** [_build_context_from_memories]; a result dict holds the texts of the
    memory it was made from. *)
Definition _build_context_from_memories (h : Heap) (memories : list Result)
    (max_chars : Z) : string :=
  strip
    (String.concat EmptyString
       (context_parts
          (map (fun mem => text_to_index (h (res_source mem))) memories)
          max_chars 0)).

(** [_calculate_confidence] *)
Definition _calculate_confidence (memories : list Result) : R :=
  match memories with
  | [] => 0
  | top :: _ =>
      let top_score := score top in
      if (1 <? List.length memories)%nat then
        let scores := map score (py_take memories 3) in
        let avg_top3 := fold_left Rplus scores 0 / INR (List.length scores) in
        if Rgt_dec avg_top3 (4 / 10)
        then Rmin 1 (top_score * (11 / 10))
        else top_score
      else top_score
  end.

(** ** Example inputs of the further properties *)

(** An index builder that accepts every list of embeddings. *)
Definition unit_index : list (list R) -> option unit := fun _ => Some tt.

(** An id generator. *)
Definition numbered_id : nat -> MemoryObj -> string :=
  fun _ _ => "mem_0"%string.

(** A dict with a text and nothing else. *)
Definition bare_obj : MemoryObj :=
  mkMemoryObj None (Some "A knight fought a dragon."%string) None None None.

(** A hash of texts. *)
Definition constant_hash : string -> string := fun _ => "4242"%string.

(** An embedding model that fails twice and then answers. *)
Definition third_time_lucky : string -> nat -> option (list R) :=
  fun _ n => if (n <? 2)%nat then None else Some [1].

(** ** Vocabulary of the properties of [add_memory_to_ltm] *)

(** The retriever, the heap and [_MEM_STORE] after a call of
    [add_memory_to_ltm]. *)
Definition retriever_after {FaissIndex}
    (out : (FAISSRetriever FaissIndex * Heap * list nat) * option string)
    : FAISSRetriever FaissIndex :=
  fst (fst (fst out)).

Definition heap_after {FaissIndex}
    (out : (FAISSRetriever FaissIndex * Heap * list nat) * option string)
    : Heap :=
  snd (fst (fst out)).

Definition store_after {FaissIndex}
    (out : (FAISSRetriever FaissIndex * Heap * list nat) * option string)
    : list nat :=
  snd (fst out).

(** [memory_obj.get("metadata", {})] *)
Definition given_metadata (memory_obj : MemoryObj) : Metadata :=
  match obj_metadata memory_obj with
  | Some md => md
  | None => empty_metadata
  end.

(** [memory_obj.get("embedding")] is a non-empty list. *)
Definition obj_has_embedding (memory_obj : MemoryObj) : bool :=
  match obj_embedding memory_obj with
  | Some (_ :: _) => true
  | _ => false
  end.

(** [memory_obj.get("content_summary") or memory_obj.get("raw") or ""] *)
Definition obj_content (memory_obj : MemoryObj) : string :=
  str_or (get_text (obj_content_summary memory_obj))
         (get_text (obj_raw memory_obj)).

(** A story as typed, with surrounding white space, and the record
    [ingest_story] makes of it. *)
Definition knight_story : string := "  A knight fought a dragon. ".

Definition knight_parsed : MemoryObj :=
  mkMemoryObj (Some "4242"%string)
              (Some "A knight fought a dragon."%string)
              (Some "A knight fought a dragon."%string)
              (Some [1])
              (Some (mkMetadata (Some (5 / 10)) (Some 1%Z) None None)).

(** The story added to the two example records, once and twice. *)
Definition knight_added_once
    : (FAISSRetriever unit * Heap * list nat) * option string :=
  add_memory_to_ltm false unit_index constant_embedding numbered_id
    "2026-11-03T09:00:00" no_index two_records [0%nat; 1%nat] 2%nat
    knight_parsed.

Definition knight_added_twice
    : (FAISSRetriever unit * Heap * list nat) * option string :=
  add_memory_to_ltm false unit_index constant_embedding numbered_id
    "2026-11-03T09:05:00" (retriever_after knight_added_once)
    (heap_after knight_added_once) (store_after knight_added_once) 3%nat
    knight_parsed.

(** ** The extractive summarizer ([summarizer.py]) *)

(** [sorted(l, key=..., reverse=True)] on a real key and [sorted(l,
    key=...)] on a natural key: stable sorts, equal keys keep their
    order. *)
Fixpoint insert_by_score {A} (key : A -> R) (x : A) (l : list A) : list A :=
  match l with
  | [] => [x]
  | y :: t =>
      if Rlt_dec (key x) (key y) then y :: insert_by_score key x t
      else x :: l
  end.

Definition sorted_by_score_desc {A} (key : A -> R) (l : list A) : list A :=
  fold_right (insert_by_score key) [] l.

Fixpoint insert_by_index {A} (key : A -> nat) (x : A) (l : list A)
    : list A :=
  match l with
  | [] => [x]
  | y :: t =>
      if (key y <? key x)%nat then y :: insert_by_index key x t
      else x :: l
  end.

Definition sorted_by_index {A} (key : A -> nat) (l : list A) : list A :=
  fold_right (insert_by_index key) [] l.

(** [enumerate(l)], counting from [i]. *)
Fixpoint enumerate_from {A} (i : nat) (l : list A) : list (nat * A) :=
  match l with
  | [] => []
  | x :: t => (i, x) :: enumerate_from (S i) t
  end.

(** A tuple [(i, s, score, len(s))] of [sent_scores]. *)
Record ScoredSentence := mkScoredSentence {
  sent_index : nat;
  sent_text : string;
  sent_score : R;
  sent_len : nat
}.

(** [len(s)] as an [int]. *)
Definition len (s : string) : Z := Z.of_nat (String.length s).

(** [" ".join(s for _, s in selected).strip()] *)
Definition join_selected (selected : list (nat * string)) : string :=
  strip (String.concat " " (map snd selected)).

(** The first loop of [summarize_memory]: sentences are selected, best
    score first, until their total length reaches [min_len]. *)
Fixpoint select_sentences (sent_scores_sorted : list ScoredSentence)
    (min_len total_len : Z) : list (nat * string) :=
  match sent_scores_sorted with
  | [] => []
  | x :: rest =>
      if (min_len <=? total_len)%Z then []
      else
        (sent_index x, sent_text x) ::
        select_sentences rest min_len (total_len + len (sent_text x))
  end.

(** The last loop of [summarize_memory]: sentences are appended to a
    summary that is too short. *)
Fixpoint extend_summary (remaining : list (nat * string)) (summary : string)
    (min_len max_len : Z) : string :=
  match remaining with
  | [] => summary
  | (_, s) :: rest =>
      if (min_len <=? len summary)%Z then summary
      else
        let summary' := strip (summary ++ " " ++ s) in
        if (max_len <=? len summary')%Z then summary'
        else extend_summary rest summary' min_len max_len
  end.

Section Summarizer.

(** [_SENT_SPLIT_RE.split(text)], the pieces of the text between the
    runs of white space that follow a full stop, a question mark or an
    exclamation mark. *)
Variable split_sentences : string -> list string.

(** [re.findall(r"\w+", s)] *)
Variable findall_words : string -> list string.

(** [_tokens] *)
Definition _tokens (s : string) : list string :=
  filter truthy (findall_words (lower s)).

(** The score of a sentence: the mean frequency of its tokens in the
    text. *)
Definition sentence_score (tokens : list string) (s : string) : R :=
  let toks := _tokens s in
  match toks with
  | [] => 0
  | _ :: _ =>
      INR (fold_left
             (fun acc t => (acc + count_occ string_dec tokens t)%nat)
             toks 0%nat)
      / INR (List.length toks)
  end.

(** [summarize_memory] *)
Definition summarize_memory (text : string) (min_len max_len : Z)
    : string :=
  if negb (truthy text) then EmptyString
  else
    let text := strip text in
    if (len text <=? max_len)%Z then text
    else
      let sents :=
        map strip
            (filter (fun s => truthy (strip s)) (split_sentences text)) in
      match sents with
      | [] => rstrip (str_take text max_len)
      | first :: _ =>
          let tokens := _tokens text in
          match tokens with
          | [] => rstrip (str_take first max_len)
          | _ :: _ =>
              let sent_scores :=
                map (fun p =>
                       mkScoredSentence (fst p) (snd p)
                         (sentence_score tokens (snd p))
                         (String.length (snd p)))
                    (enumerate_from 0 sents) in
              let sent_scores_sorted :=
                sorted_by_score_desc sent_score sent_scores in
              let selected :=
                select_sentences sent_scores_sorted min_len 0 in
              match selected, sent_scores_sorted with
              | [], best :: _ => rstrip (str_take (sent_text best) max_len)
              | [], [] =>
                  (* not reached: [sent_scores_sorted] has the length of
                     [sents], which is not empty here *)
                  EmptyString
              | _ :: _, _ =>
                  let selected := sorted_by_index fst selected in
                  let summary := join_selected selected in
                  if (max_len <? len summary)%Z then
                    if (1 <? List.length selected)%nat then
                      let selected := py_take selected (-1) in
                      let summary := join_selected selected in
                      if (max_len <? len summary)%Z
                      then rstrip (str_take summary max_len)
                      else summary
                    else rstrip (str_take summary max_len)
                  else
                    if (len summary <? min_len)%Z then
                      let remaining :=
                        sorted_by_index fst
                          (map (fun x => (sent_index x, sent_text x))
                               (filter
                                  (fun x =>
                                     negb (existsb
                                             (Nat.eqb (sent_index x))
                                             (map fst selected)))
                                  sent_scores_sorted)) in
                      let summary :=
                        extend_summary remaining summary min_len max_len in
                      if (max_len <? len summary)%Z
                      then rstrip (str_take summary max_len)
                      else summary
                    else summary
              end
          end
      end.

End Summarizer.

(** The string is not empty and its first character is not white
    space. *)
Definition starts_with_text (s : string) : Prop :=
  match s with
  | EmptyString => False
  | String c _ => is_space c = false
  end.

(** [summarize_memory] as the application passes it to the decay engine;
    on a string it does not raise. *)
Definition summarize_memory_fn (split_sentences : string -> list string)
    (findall_words : string -> list string)
    : option (string -> Z -> Z -> option string) :=
  Some (fun text min_len max_len =>
          Some (summarize_memory split_sentences findall_words
                                 text min_len max_len)).

(** A sentence splitter and a word finder for the examples: the text is
    one sentence of one word. *)
Definition one_sentence : string -> list string := fun text => [text].

Definition one_word : string -> list string := fun text => [text].
(** ** Facts of real arithmetic used by the decay formula *)

Lemma clamp01_bounds (x : R) : 0 <= clamp01 x <= 1.
Proof.
  unfold clamp01, Rmax, Rmin.
  destruct (Rle_dec 1 x); destruct (Rle_dec 0 _); lra.
Qed.

Lemma clamp01_id (x : R) : 0 <= x <= 1 -> clamp01 x = x.
Proof.
  intros [H0 H1]. unfold clamp01, Rmax, Rmin.
  destruct (Rle_dec 1 x); destruct (Rle_dec 0 _); lra.
Qed.

Lemma clamp01_mono (x y : R) : x <= y -> clamp01 x <= clamp01 y.
Proof.
  intros Hxy. unfold clamp01, Rmax, Rmin.
  destruct (Rle_dec 1 x); destruct (Rle_dec 1 y);
    repeat destruct (Rle_dec 0 _); lra.
Qed.

Lemma exp_le_mono (x y : R) : x <= y -> exp x <= exp y.
Proof.
  intros [Hlt | Heq].
  - left. now apply exp_increasing.
  - subst. right. reflexivity.
Qed.

Lemma exp_nonpos_le_1 (x : R) : x <= 0 -> exp x <= 1.
Proof.
  intros Hx. rewrite <- exp_0. now apply exp_le_mono.
Qed.

Lemma ln_access_nonneg (a : Z) : (1 <= a)%Z -> 0 <= ln (IZR a).
Proof.
  intros Ha. apply IZR_le in Ha.
  destruct Ha as [Hlt | Heq].
  - left. rewrite <- ln_1. apply ln_increasing; lra.
  - rewrite <- Heq, ln_1. lra.
Qed.

Lemma ln_access_mono (a1 a2 : Z) :
  (1 <= a2)%Z -> (a2 <= a1)%Z -> ln (IZR a2) <= ln (IZR a1).
Proof.
  intros H1 H2. apply IZR_le in H1. apply IZR_le in H2.
  destruct H2 as [Hlt | Heq].
  - left. apply ln_increasing; lra.
  - rewrite Heq. lra.
Qed.

(** The exponent of the decay formula is not positive when neither the
    rate nor the age is negative. *)
Lemma decay_exponent_nonpos (rate : R) (age a : Z) :
  0 <= rate -> (0 <= age)%Z -> (1 <= a)%Z ->
  - rate * IZR age / (ln (IZR a) + 1) <= 0.
Proof.
  intros Hr Hage Ha.
  pose proof (ln_access_nonneg a Ha) as Hln.
  apply IZR_le in Hage.
  assert (Hinv : 0 < / (ln (IZR a) + 1)) by (apply Rinv_0_lt_compat; lra).
  assert (Hpos : 0 <= rate * IZR age * / (ln (IZR a) + 1)).
  { apply Rmult_le_pos; [apply Rmult_le_pos|]; lra. }
  unfold Rdiv.
  replace (- rate * IZR age * / (ln (IZR a) + 1))
    with (- (rate * IZR age * / (ln (IZR a) + 1))) by ring.
  lra.
Qed.

(** A larger access count gives a larger (less negative) exponent. *)
Lemma decay_exponent_mono (rate : R) (age a1 a2 : Z) :
  0 <= rate -> (0 <= age)%Z -> (1 <= a2)%Z -> (a2 <= a1)%Z ->
  - rate * IZR age / (ln (IZR a2) + 1) <= - rate * IZR age / (ln (IZR a1) + 1).
Proof.
  intros Hr Hage H2 H12.
  pose proof (ln_access_nonneg a2 H2) as Hln2.
  pose proof (ln_access_mono a1 a2 H2 H12) as Hln.
  apply IZR_le in Hage.
  assert (Hinv : / (ln (IZR a1) + 1) <= / (ln (IZR a2) + 1))
    by (apply Rinv_le_contravar; lra).
  assert (Hpos : 0 <= rate * IZR age) by (apply Rmult_le_pos; lra).
  assert (Hle : rate * IZR age * / (ln (IZR a1) + 1)
                <= rate * IZR age * / (ln (IZR a2) + 1))
    by (apply Rmult_le_compat_l; assumption).
  unfold Rdiv.
  replace (- rate * IZR age * / (ln (IZR a2) + 1))
    with (- (rate * IZR age * / (ln (IZR a2) + 1))) by ring.
  replace (- rate * IZR age * / (ln (IZR a1) + 1))
    with (- (rate * IZR age * / (ln (IZR a1) + 1))) by ring.
  lra.
Qed.

(** ** The score recomputation *)

Lemma truthy_false (s : string) : truthy s = false <-> s = EmptyString.
Proof. destruct s; simpl; split; congruence. Qed.

Lemma calculate_decay_keeps config age_days_of memory :
  keeps_score config age_days_of memory ->
  calculate_decay config age_days_of memory
  = get_importance_score (get_metadata memory).
Proof.
  intros Hk. unfold calculate_decay.
  destruct Hk as [Hts | Hts | ts Hts Hage | ts age Hts Hage Hlt];
    rewrite Hts; simpl; try reflexivity.
  - destruct (truthy ts); simpl; [rewrite Hage|]; reflexivity.
  - destruct (truthy ts); simpl; [rewrite Hage|]; try reflexivity.
    apply Z.ltb_lt in Hlt. rewrite Hlt. reflexivity.
Qed.

Lemma calculate_decay_decays config age_days_of memory age_days :
  decays_at config age_days_of memory age_days ->
  calculate_decay config age_days_of memory
  = clamp01 (get_importance_score (get_metadata memory) *
             exp (- decay_rate config * IZR age_days /
                  (ln (IZR (Z.max 1 (get_access_count (get_metadata memory))))
                   + 1))).
Proof.
  intros (ts & Hts & Hne & Hage & Hmin). unfold calculate_decay.
  rewrite Hts. destruct ts as [| c ts]; [congruence|]. simpl.
  rewrite Hage. apply Z.ltb_ge in Hmin. rewrite Hmin. reflexivity.
Qed.

(** Every record is in one of the two classes. *)
Lemma keeps_or_decays config age_days_of memory :
  keeps_score config age_days_of memory \/
  exists age_days, decays_at config age_days_of memory age_days.
Proof.
  destruct (timestamp (get_metadata memory)) as [ts|] eqn:Hts.
  - destruct ts as [| c ts].
    + left. now apply ks_empty.
    + destruct (age_days_of (String c ts)) as [age|] eqn:Hage.
      * destruct (Z.ltb_spec age (min_age_days config)).
        -- left. eapply ks_young; eauto.
        -- right. exists age, (String c ts). repeat split; auto. congruence.
      * left. eapply ks_unparsable; eauto.
  - left. now apply ks_missing.
Qed.

Lemma calculate_decay_in_range config age_days_of memory :
  0 <= get_importance_score (get_metadata memory) <= 1 ->
  0 <= calculate_decay config age_days_of memory <= 1.
Proof.
  intros Hs.
  destruct (keeps_or_decays config age_days_of memory) as [Hk | [age Hd]].
  - rewrite calculate_decay_keeps; assumption.
  - rewrite (calculate_decay_decays _ _ _ _ Hd). apply clamp01_bounds.
Qed.

Lemma clamp01_nonpos (x : R) : x <= 0 -> clamp01 x = 0.
Proof.
  intros Hx. unfold clamp01, Rmax, Rmin.
  destruct (Rle_dec 1 x); destruct (Rle_dec 0 _); lra.
Qed.

(** The decayed score as a function of the access count. *)
Lemma decayed_score_access_mono (rate s : R) (age a1 a2 : Z) :
  0 <= rate -> (0 <= age)%Z -> (1 <= a2)%Z -> (a2 <= a1)%Z ->
  clamp01 (s * exp (- rate * IZR age / (ln (IZR a2) + 1)))
  <= clamp01 (s * exp (- rate * IZR age / (ln (IZR a1) + 1))).
Proof.
  intros Hr Hage H2 H12.
  pose proof (decay_exponent_mono rate age a1 a2 Hr Hage H2 H12) as He.
  apply exp_le_mono in He.
  pose proof (exp_pos (- rate * IZR age / (ln (IZR a2) + 1))) as Hp2.
  pose proof (exp_pos (- rate * IZR age / (ln (IZR a1) + 1))) as Hp1.
  destruct (Rle_dec 0 s) as [Hs | Hs].
  - apply clamp01_mono. now apply Rmult_le_compat_l.
  - rewrite !clamp01_nonpos; [lra | |].
    + assert (0 <= (- s) * exp (- rate * IZR age / (ln (IZR a1) + 1)))
        by (apply Rmult_le_pos; lra).
      lra.
    + assert (0 <= (- s) * exp (- rate * IZR age / (ln (IZR a2) + 1)))
        by (apply Rmult_le_pos; lra).
      lra.
Qed.

Lemma decays_at_same_timestamp config age_days_of m1 m2 age_days :
  timestamp (get_metadata m1) = timestamp (get_metadata m2) ->
  decays_at config age_days_of m1 age_days ->
  decays_at config age_days_of m2 age_days.
Proof.
  intros Heq (ts & Hts & Hrest). exists ts. split; [congruence | exact Hrest].
Qed.

Lemma keeps_score_same_timestamp config age_days_of m1 m2 :
  timestamp (get_metadata m1) = timestamp (get_metadata m2) ->
  keeps_score config age_days_of m1 ->
  keeps_score config age_days_of m2.
Proof.
  intros Heq [H | H | ts H Ha | ts age H Ha Hlt]; rewrite Heq in H.
  - now apply ks_missing.
  - now apply ks_empty.
  - eapply ks_unparsable; eauto.
  - eapply ks_young; eauto.
Qed.

Lemma decays_at_age_nonneg config age_days_of memory age_days :
  (0 <= min_age_days config)%Z ->
  decays_at config age_days_of memory age_days -> (0 <= age_days)%Z.
Proof. intros Hmin (ts & _ & _ & _ & Hle). lia. Qed.

(** ** Decay never increases a score (C10) *)

(** C10.  For a record whose score lies in [0,1] and a configuration with
    a decay rate and a minimum age that are not negative, the recomputed
    score is at most the current score; it is equal to it when the record
    is too young or has no timestamp the parser accepts. *)
Theorem decay_never_increases config age_days_of memory :
  0 <= get_importance_score (get_metadata memory) <= 1 ->
  0 <= decay_rate config ->
  (0 <= min_age_days config)%Z ->
  calculate_decay config age_days_of memory
  <= get_importance_score (get_metadata memory)
  /\ (keeps_score config age_days_of memory ->
      calculate_decay config age_days_of memory
      = get_importance_score (get_metadata memory)).
Proof.
  intros Hs Hrate Hmin. split; [| apply calculate_decay_keeps].
  destruct (keeps_or_decays config age_days_of memory) as [Hk | [age Hd]].
  - rewrite calculate_decay_keeps by assumption. lra.
  - rewrite (calculate_decay_decays _ _ _ _ Hd).
    pose proof (decays_at_age_nonneg _ _ _ _ Hmin Hd) as Hage.
    set (s := get_importance_score (get_metadata memory)) in *.
    set (a := Z.max 1 (get_access_count (get_metadata memory))).
    assert (Ha : (1 <= a)%Z) by (unfold a; lia).
    pose proof (decay_exponent_nonpos _ _ _ Hrate Hage Ha) as He.
    apply exp_nonpos_le_1 in He.
    pose proof (exp_pos (- decay_rate config * IZR age / (ln (IZR a) + 1)))
      as Hp.
    rewrite clamp01_id; nra.
Qed.

(** ** Higher access slows decay (C5) *)

(** The recomputed score as a function of the age of the record. *)
Lemma calculate_decay_by_age config age_days_of memory :
  calculate_decay config age_days_of memory
  = match record_age age_days_of memory with
    | None => get_importance_score (get_metadata memory)
    | Some age_days =>
        if (age_days <? min_age_days config)%Z
        then get_importance_score (get_metadata memory)
        else
          clamp01
            (get_importance_score (get_metadata memory) *
             exp (- decay_rate config * IZR age_days /
                  (ln (IZR (Z.max 1
                              (get_access_count (get_metadata memory))))
                   + 1)))
    end.
Proof.
  unfold calculate_decay, record_age.
  destruct (timestamp (get_metadata memory)) as [ts|]; [| reflexivity].
  destruct (truthy ts); cbn [negb]; [| reflexivity].
  destruct (age_days_of ts) as [age_days|]; reflexivity.
Qed.

(** C5, amended.  Under a configuration whose decay rate and minimum age
    are not negative, of two records of the same age in days (stamped at
    the same time or not; or both without an age) and of the same score,
    the one with the larger access count has the larger or equal
    recomputed score. *)
Theorem higher_access_slows_decay config age_days_of m1 m2 a1 a2 :
  0 <= decay_rate config ->
  (0 <= min_age_days config)%Z ->
  record_age age_days_of m1 = record_age age_days_of m2 ->
  get_importance_score (get_metadata m1)
  = get_importance_score (get_metadata m2) ->
  access_count (get_metadata m1) = Some a1 ->
  access_count (get_metadata m2) = Some a2 ->
  (a1 > a2)%Z -> (a2 >= 1)%Z ->
  calculate_decay config age_days_of m1
  >= calculate_decay config age_days_of m2.
Proof.
  intros Hrate Hmin Hage Hs Ha1 Ha2 Hgt Hge. apply Rle_ge.
  rewrite !calculate_decay_by_age, Hage, Hs.
  destruct (record_age age_days_of m2) as [age_days|]; [| lra].
  destruct (Z.ltb_spec age_days (min_age_days config)) as [Hlt | Hle];
    [lra|].
  unfold get_access_count. rewrite Ha1, Ha2.
  replace (Z.max 1 a1) with a1 by lia.
  replace (Z.max 1 a2) with a2 by lia.
  apply decayed_score_access_mono; try assumption; lia.
Qed.

(** ** The three outcomes of the loop body *)

Section LoopBody.

Variable config : DecayConfig.
Variable age_days_of : string -> option Z.
Variable summarizer_fn : option (string -> Z -> Z -> option string).

Let new_score (b : Backend) (a : nat) : R :=
  calculate_decay config age_days_of (objects b a).

Let old_score (b : Backend) (a : nat) : R :=
  get_importance_score (get_metadata (objects b a)).

Let step := process_memory config age_days_of summarizer_fn.

Lemma process_memory_forget b st a :
  new_score b a < forget_threshold config ->
  step (b, st) a
  = (InMemoryBackend.delete b (mem_id (objects b a)), add_forgotten st).
Proof.
  intros Hlt. unfold step, process_memory. fold (new_score b a).
  destruct (Rlt_dec _ _); [reflexivity | contradiction].
Qed.

Lemma process_memory_consolidate b st a :
  ~ new_score b a < forget_threshold config ->
  new_score b a < consolidation_threshold config ->
  step (b, st) a
  = let (b1, st1) :=
      if negb (get_consolidated (get_metadata (objects b a))) then
        (mkBackend (consolidate_memory summarizer_fn (objects b) a)
                   (_store b) (calls b),
         add_consolidated st)
      else (b, st) in
    persist_score b1 st1 a (mem_id (objects b a)) (new_score b a).
Proof.
  intros Hge Hlt. unfold step, process_memory. fold (new_score b a).
  destruct (Rlt_dec _ (forget_threshold config)); [contradiction|].
  destruct (Rlt_dec _ (consolidation_threshold config));
    [reflexivity | contradiction].
Qed.

Lemma process_memory_retain_write b st a :
  ~ new_score b a < forget_threshold config ->
  ~ new_score b a < consolidation_threshold config ->
  Rabs (new_score b a - old_score b a) > 1 / 100 ->
  step (b, st) a
  = persist_score b st a (mem_id (objects b a)) (new_score b a).
Proof.
  intros Hf Hc Hd. unfold step, process_memory.
  fold (new_score b a). fold (old_score b a).
  destruct (Rlt_dec _ (forget_threshold config)); [contradiction|].
  destruct (Rlt_dec _ (consolidation_threshold config)); [contradiction|].
  destruct (Rgt_dec _ _); [reflexivity | contradiction].
Qed.

Lemma process_memory_retain_noop b st a :
  ~ new_score b a < forget_threshold config ->
  ~ new_score b a < consolidation_threshold config ->
  ~ Rabs (new_score b a - old_score b a) > 1 / 100 ->
  step (b, st) a = (b, st).
Proof.
  intros Hf Hc Hd. unfold step, process_memory.
  fold (new_score b a). fold (old_score b a).
  destruct (Rlt_dec _ (forget_threshold config)); [contradiction|].
  destruct (Rlt_dec _ (consolidation_threshold config)); [contradiction|].
  destruct (Rgt_dec _ _); [contradiction | reflexivity].
Qed.

End LoopBody.

(** ** The heap and the backend operations *)

Lemma heap_set_same h a m : heap_set h a m a = m.
Proof. unfold heap_set. now rewrite Nat.eqb_refl. Qed.

Lemma heap_set_other h a m x : x <> a -> heap_set h a m x = h x.
Proof.
  intros Hne. unfold heap_set.
  destruct (Nat.eqb_spec x a); [contradiction | reflexivity].
Qed.

Lemma heap_set_cases h a m x :
  (x = a /\ heap_set h a m x = m) \/ (x <> a /\ heap_set h a m x = h x).
Proof.
  destruct (Nat.eq_dec x a) as [-> | Hne].
  - left. split; [reflexivity | apply heap_set_same].
  - right. split; [assumption | now apply heap_set_other].
Qed.

Lemma metadata_update_self md : metadata_update md md = md.
Proof.
  destruct md as [s c t f]. unfold metadata_update, merge_field. simpl.
  destruct s, c, t, f; reflexivity.
Qed.

Lemma set_metadata_self memory md :
  metadata memory = Some md -> set_metadata memory (Some md) = memory.
Proof. destruct memory; simpl; intros ->; reflexivity. Qed.

Lemma find_has_id_ext h h' memory_id l :
  (forall x, mem_id (h' x) = mem_id (h x)) ->
  find (has_id h' memory_id) l = find (has_id h memory_id) l.
Proof.
  intros Hid. induction l as [| a t IH]; simpl; [reflexivity|].
  unfold has_id at 1 3. rewrite Hid, IH. reflexivity.
Qed.

Lemma find_has_id_some h memory_id l a :
  find (has_id h memory_id) l = Some a ->
  In a l /\ mem_id (h a) = memory_id.
Proof.
  intros Hf. apply find_some in Hf. destruct Hf as [Hin Hid].
  split; [assumption | now apply String.eqb_eq].
Qed.

(** With distinct ids, looking a stored record up by its id finds it. *)
Lemma find_has_id_unique h l a :
  In a l -> NoDup (stored_ids h l) ->
  find (has_id h (mem_id (h a))) l = Some a.
Proof.
  induction l as [| y t IH]; simpl; intros Hin Hnd; [contradiction|].
  inversion Hnd as [| ? ? Hnotin Hnd']; subst.
  unfold has_id at 1.
  destruct (String.eqb_spec (mem_id (h y)) (mem_id (h a))) as [Heq | Hne].
  - destruct Hin as [-> | Hin]; [reflexivity|].
    exfalso. apply Hnotin. rewrite Heq.
    apply (in_map (fun x => mem_id (h x))). assumption.
  - destruct Hin as [-> | Hin]; [congruence|]. now apply IH.
Qed.

(** With distinct ids, deleting by the id of a stored record removes it
    and nothing else. *)
Lemma remove_first_unique h kept a rest :
  NoDup (stored_ids h (kept ++ a :: rest)) ->
  remove_first h (mem_id (h a)) (kept ++ a :: rest) = kept ++ rest.
Proof.
  induction kept as [| y t IH]; simpl; intros Hnd.
  - unfold has_id. now rewrite String.eqb_refl.
  - inversion Hnd as [| ? ? Hnotin Hnd']; subst.
    unfold has_id at 1.
    destruct (String.eqb_spec (mem_id (h y)) (mem_id (h a))) as [Heq | Hne].
    + exfalso. apply Hnotin. rewrite Heq.
      apply (in_map (fun x => mem_id (h x))).
      apply in_or_app. right. now left.
    + f_equal. now apply IH.
Qed.

Lemma remove_first_incl h memory_id l x :
  In x (remove_first h memory_id l) -> In x l.
Proof.
  induction l as [| y t IH]; simpl; [tauto|].
  destruct (has_id h memory_id y); simpl; [tauto|].
  intros [-> | Hin]; [now left | right; now apply IH].
Qed.

(** What [InMemoryBackend.update] does to the dicts. *)
Lemma backend_update_objects b memory_id updates x :
  objects (InMemoryBackend.update b memory_id updates) x = objects b x
  \/ (InMemoryBackend.get b memory_id = Some x /\
      objects (InMemoryBackend.update b memory_id updates) x
      = set_metadata (objects b x)
          (Some (metadata_update (get_metadata (objects b x)) updates))).
Proof.
  unfold InMemoryBackend.update.
  destruct (InMemoryBackend.get b memory_id) as [t|] eqn:Hget; simpl;
    [| now left].
  destruct (heap_set_cases (objects b) t
              (set_metadata (objects b t)
                 (Some (metadata_update (get_metadata (objects b t)) updates)))
              x) as [[-> Hs] | [Hne Hs]]; rewrite Hs.
  - right. split; reflexivity.
  - now left.
Qed.

Lemma backend_update_store b memory_id updates :
  _store (InMemoryBackend.update b memory_id updates) = _store b.
Proof.
  unfold InMemoryBackend.update.
  destruct (InMemoryBackend.get b memory_id); reflexivity.
Qed.

Lemma backend_update_calls b memory_id updates :
  calls (InMemoryBackend.update b memory_id updates)
  = CallUpdate memory_id updates :: calls b.
Proof.
  unfold InMemoryBackend.update.
  destruct (InMemoryBackend.get b memory_id); reflexivity.
Qed.

(** Updating with the metadata dict of a record itself leaves that record
    as it is. *)
Lemma backend_update_self b memory_id a md :
  metadata (objects b a) = Some md ->
  objects (InMemoryBackend.update b memory_id md) a = objects b a.
Proof.
  intros Hmd.
  destruct (backend_update_objects b memory_id md a) as [H | [_ H]];
    rewrite H; [reflexivity|].
  unfold get_metadata. rewrite Hmd, metadata_update_self.
  now apply set_metadata_self.
Qed.

(** ** Consolidation and the score update *)

Section Consolidation.

Variable summarizer_fn : option (string -> Z -> Z -> option string).

Lemma consolidate_memory_raises h a :
  summarizer_raises summarizer_fn (h a) ->
  consolidate_memory summarizer_fn h a = h.
Proof.
  intros (f & -> & Htext & Hnone). unfold consolidate_memory.
  fold (text_to_summarize (h a)). now rewrite Htext, Hnone.
Qed.

Lemma consolidate_memory_returns h a gist :
  summarizer_returns summarizer_fn (h a) gist ->
  consolidate_memory summarizer_fn h a
  = heap_set h a
      (match metadata (h a) with
       | Some md =>
           set_metadata (set_texts (h a) gist)
                        (Some (set_consolidated md true))
       | None => set_texts (h a) gist
       end).
Proof.
  intros (f & -> & Htext & Hsome). unfold consolidate_memory.
  fold (text_to_summarize (h a)). rewrite Htext, Hsome. simpl.
  destruct (metadata (h a)); reflexivity.
Qed.

(** Consolidation touches the dict at [a] only, and there neither the
    id nor the keys the score is computed from. *)
Lemma consolidate_memory_other h a x :
  x <> a -> consolidate_memory summarizer_fn h a x = h x.
Proof.
  intros Hne. unfold consolidate_memory.
  destruct summarizer_fn as [f|]; [| reflexivity].
  destruct (negb _); [reflexivity|].
  destruct (f _ _ _); [| reflexivity].
  simpl. destruct (metadata (h a)); now apply heap_set_other.
Qed.

Lemma consolidate_memory_at h a :
  let m := consolidate_memory summarizer_fn h a a in
  mem_id m = mem_id (h a) /\
  embedding m = embedding (h a) /\
  importance_score (get_metadata m) = importance_score (get_metadata (h a))
  /\ access_count (get_metadata m) = access_count (get_metadata (h a))
  /\ timestamp (get_metadata m) = timestamp (get_metadata (h a))
  /\ (metadata m = None <-> metadata (h a) = None).
Proof.
  unfold consolidate_memory.
  destruct summarizer_fn as [f|]; [| simpl; tauto].
  destruct (negb _); [simpl; tauto|].
  destruct (f _ _ _); [| simpl; tauto].
  simpl. destruct (metadata (h a)) as [md|] eqn:Hmd;
    rewrite heap_set_same; unfold get_metadata; simpl; rewrite ?Hmd;
    repeat split; try reflexivity; try congruence.
Qed.

Lemma consolidate_memory_mem_id h a x :
  mem_id (consolidate_memory summarizer_fn h a x) = mem_id (h x).
Proof.
  destruct (Nat.eq_dec x a) as [-> | Hne].
  - apply consolidate_memory_at.
  - now rewrite consolidate_memory_other.
Qed.

Lemma consolidate_memory_score h a x :
  score_at (consolidate_memory summarizer_fn h a) x = score_at h x.
Proof.
  unfold score_at.
  destruct (Nat.eq_dec x a) as [-> | Hne].
  - unfold get_importance_score.
    destruct (consolidate_memory_at h a) as (_ & _ & -> & _). reflexivity.
  - now rewrite consolidate_memory_other.
Qed.

End Consolidation.

Lemma persist_score_some b st a memory_id new_score md :
  metadata (objects b a) = Some md ->
  persist_score b st a memory_id new_score
  = (InMemoryBackend.update
       (mkBackend
          (heap_set (objects b) a
             (set_metadata (objects b a)
                (Some (set_importance_score md new_score))))
          (_store b) (calls b))
       memory_id (set_importance_score md new_score),
     add_updated st).
Proof.
  intros Hmd. unfold persist_score, store_score. rewrite Hmd.
  cbv zeta. simpl objects. rewrite heap_set_same. reflexivity.
Qed.

Lemma persist_score_none b st a memory_id new_score :
  metadata (objects b a) = None ->
  persist_score b st a memory_id new_score = (b, add_error st).
Proof.
  intros Hmd. unfold persist_score, store_score. now rewrite Hmd.
Qed.

(** After the score is persisted the record carries it, and the rest of
    the record is as before. *)
Lemma persist_score_at b st a memory_id new_score md :
  metadata (objects b a) = Some md ->
  objects (fst (persist_score b st a memory_id new_score)) a
  = set_metadata (objects b a) (Some (set_importance_score md new_score)).
Proof.
  intros Hmd. rewrite (persist_score_some _ _ _ _ _ _ Hmd). simpl fst.
  rewrite backend_update_self; simpl; rewrite heap_set_same; reflexivity.
Qed.

Lemma persist_score_store b st a memory_id new_score :
  _store (fst (persist_score b st a memory_id new_score)) = _store b.
Proof.
  unfold persist_score. destruct (store_score _ _ _); [| reflexivity].
  simpl. now rewrite backend_update_store.
Qed.

(** If the recomputed score differs from the current one, the record has
    a metadata dict: without one the recomputation returns the default. *)
Lemma calculate_decay_no_metadata config age_days_of memory :
  metadata memory = None ->
  calculate_decay config age_days_of memory
  = get_importance_score (get_metadata memory).
Proof.
  intros Hmd. apply calculate_decay_keeps. apply ks_missing.
  unfold get_metadata. now rewrite Hmd.
Qed.

(** ** The Retain branch *)

(** The loop body in the Retain branch. *)
Lemma process_memory_retain config age_days_of summarizer_fn b st a :
  calculate_decay config age_days_of (objects b a)
    >= forget_threshold config ->
  calculate_decay config age_days_of (objects b a)
    >= consolidation_threshold config ->
  (Rabs (calculate_decay config age_days_of (objects b a)
         - get_importance_score (get_metadata (objects b a))) > 1 / 100 ->
   exists md,
     metadata (objects b a) = Some md /\
     let md' :=
       set_importance_score md
         (calculate_decay config age_days_of (objects b a)) in
     let r := process_memory config age_days_of summarizer_fn (b, st) a in
     objects (fst r) a = set_metadata (objects b a) (Some md') /\
     calls (fst r) = CallUpdate (mem_id (objects b a)) md' :: calls b /\
     _store (fst r) = _store b /\
     snd r = add_updated st)
  /\
  (~ Rabs (calculate_decay config age_days_of (objects b a)
           - get_importance_score (get_metadata (objects b a))) > 1 / 100 ->
   process_memory config age_days_of summarizer_fn (b, st) a = (b, st)).
Proof.
  intros Hf Hc.
  assert (Hf' : ~ calculate_decay config age_days_of (objects b a)
                  < forget_threshold config) by lra.
  assert (Hc' : ~ calculate_decay config age_days_of (objects b a)
                  < consolidation_threshold config) by lra.
  split; intros Hd.
  - destruct (metadata (objects b a)) as [md|] eqn:Hmd.
    + exists md. split; [reflexivity|]. cbv zeta.
      rewrite process_memory_retain_write by assumption.
      rewrite (persist_score_at _ _ _ _ _ _ Hmd).
      rewrite (persist_score_some _ _ _ _ _ _ Hmd). simpl fst. simpl snd.
      rewrite backend_update_calls, backend_update_store. simpl.
      repeat split; reflexivity.
    + exfalso.
      rewrite (calculate_decay_no_metadata _ _ _ Hmd) in Hd.
      rewrite Rminus_diag, Rabs_R0 in Hd. lra.
  - now apply process_memory_retain_noop.
Qed.

(** ** The consolidate band *)

Section ConsolidateBand.

Variable config : DecayConfig.
Variable age_days_of : string -> option Z.
Variable summarizer_fn : option (string -> Z -> Z -> option string).

Let step := process_memory config age_days_of summarizer_fn.
Let new_score (b : Backend) (a : nat) : R :=
  calculate_decay config age_days_of (objects b a).

(** The loop body on a record of the consolidate band that is not yet
    consolidated. *)
Lemma process_memory_consolidating b st a md :
  metadata (objects b a) = Some md ->
  get_consolidated md = false ->
  new_score b a >= forget_threshold config ->
  new_score b a < consolidation_threshold config ->
  step (b, st) a
  = persist_score
      (mkBackend (consolidate_memory summarizer_fn (objects b) a)
                 (_store b) (calls b))
      (add_consolidated st) a (mem_id (objects b a)) (new_score b a).
Proof.
  intros Hmd Hnc Hf Hc. unfold step, new_score in *.
  rewrite process_memory_consolidate by (try assumption; lra).
  unfold get_metadata. rewrite Hmd, Hnc. reflexivity.
Qed.

Lemma process_memory_summarizer_raises b st a md :
  metadata (objects b a) = Some md ->
  get_consolidated md = false ->
  new_score b a >= forget_threshold config ->
  new_score b a < consolidation_threshold config ->
  summarizer_raises summarizer_fn (objects b a) ->
  objects (fst (step (b, st) a)) a
  = set_metadata (objects b a)
      (Some (set_importance_score md (new_score b a)))
  /\ calls (fst (step (b, st) a))
     = CallUpdate (mem_id (objects b a))
         (set_importance_score md (new_score b a)) :: calls b
  /\ snd (step (b, st) a) = add_updated (add_consolidated st).
Proof.
  intros Hmd Hnc Hf Hc Hraise.
  rewrite (process_memory_consolidating _ _ _ _ Hmd Hnc Hf Hc).
  rewrite (consolidate_memory_raises _ _ _ Hraise).
  assert (Hmd' : metadata
                   (objects (mkBackend (objects b) (_store b) (calls b)) a)
                 = Some md) by exact Hmd.
  rewrite (persist_score_at _ _ _ _ _ _ Hmd').
  rewrite (persist_score_some _ _ _ _ _ _ Hmd'). simpl fst. simpl snd.
  rewrite backend_update_calls. simpl. repeat split; reflexivity.
Qed.

Lemma process_memory_summarizer_returns b st a md gist :
  metadata (objects b a) = Some md ->
  get_consolidated md = false ->
  new_score b a >= forget_threshold config ->
  new_score b a < consolidation_threshold config ->
  summarizer_returns summarizer_fn (objects b a) gist ->
  objects (fst (step (b, st) a)) a
  = set_metadata (set_texts (objects b a) gist)
      (Some (set_importance_score (set_consolidated md true)
                                  (new_score b a))).
Proof.
  intros Hmd Hnc Hf Hc Hret.
  rewrite (process_memory_consolidating _ _ _ _ Hmd Hnc Hf Hc).
  rewrite (consolidate_memory_returns _ _ _ _ Hret), Hmd.
  set (m1 := set_metadata (set_texts (objects b a) gist)
                          (Some (set_consolidated md true))).
  assert (Hmd' : metadata
                   (objects (mkBackend (heap_set (objects b) a m1)
                                       (_store b) (calls b)) a)
                 = Some (set_consolidated md true)).
  { simpl. rewrite heap_set_same. reflexivity. }
  rewrite (persist_score_at _ _ _ _ _ _ Hmd').
  simpl. rewrite heap_set_same. reflexivity.
Qed.

End ConsolidateBand.

(** ** Scores through a cycle *)

Lemma persist_score_scores b st a memory_id new_score x :
  score_at (objects (fst (persist_score b st a memory_id new_score))) x
  = score_at (objects b) x
  \/ score_at (objects (fst (persist_score b st a memory_id new_score))) x
     = new_score.
Proof.
  destruct (metadata (objects b a)) as [md|] eqn:Hmd.
  - rewrite (persist_score_some _ _ _ _ _ _ Hmd). simpl fst.
    match goal with
    | |- context [InMemoryBackend.update ?b1 ?i ?u] =>
        destruct (backend_update_objects b1 i u x) as [H | [_ H]]
    end; unfold score_at; rewrite H; simpl.
    + destruct (heap_set_cases (objects b) a
                  (set_metadata (objects b a)
                     (Some (set_importance_score md new_score))) x)
        as [[-> Hs] | [Hne Hs]]; rewrite Hs; [right | left]; reflexivity.
    + right. reflexivity.
  - rewrite (persist_score_none _ _ _ _ _ Hmd). now left.
Qed.

Section CycleScores.

Variable config : DecayConfig.
Variable age_days_of : string -> option Z.
Variable summarizer_fn : option (string -> Z -> Z -> option string).

Let step := process_memory config age_days_of summarizer_fn.

(** After the loop body has run on the record at [a], a record carries
    its former score or the score recomputed for [a]. *)
Lemma process_memory_scores b st a x :
  score_at (objects (fst (step (b, st) a))) x = score_at (objects b) x
  \/ score_at (objects (fst (step (b, st) a))) x
     = calculate_decay config age_days_of (objects b a).
Proof.
  unfold step, process_memory.
  destruct (Rlt_dec _ (forget_threshold config)); [now left|].
  destruct (Rlt_dec _ (consolidation_threshold config)).
  - destruct (negb _).
    + match goal with
      | |- context [persist_score ?b1 ?s ?a ?i ?n] =>
          destruct (persist_score_scores b1 s a i n x) as [H | H]
      end; rewrite H; [left | now right].
      simpl. apply consolidate_memory_score.
    + apply persist_score_scores.
  - destruct (Rgt_dec _ _); [apply persist_score_scores | now left].
Qed.

(** The loop body adds no record to the store. *)
Lemma process_memory_store_incl b st a x :
  In x (_store (fst (step (b, st) a))) -> In x (_store b).
Proof.
  unfold step, process_memory.
  destruct (Rlt_dec _ (forget_threshold config)).
  - simpl. apply remove_first_incl.
  - destruct (Rlt_dec _ (consolidation_threshold config)).
    + destruct (negb _); rewrite persist_score_store; simpl; tauto.
    + destruct (Rgt_dec _ _); [rewrite persist_score_store|]; tauto.
Qed.

Lemma process_memory_range (domain : list nat) b st a :
  In a domain ->
  (forall x, In x domain -> score_in_range (objects b) x) ->
  forall x, In x domain ->
            score_in_range (objects (fst (step (b, st) a))) x.
Proof.
  intros Ha Hall x Hx. unfold score_in_range.
  destruct (process_memory_scores b st a x) as [H | H]; rewrite H.
  - now apply Hall.
  - apply calculate_decay_in_range. now apply Hall.
Qed.

Lemma fold_process_memory_range (domain : list nat) memories :
  forall bs,
    incl memories domain ->
    (forall x, In x domain -> score_in_range (objects (fst bs)) x) ->
    (forall x, In x domain ->
               score_in_range (objects (fst (fold_left step memories bs))) x)
    /\
    (forall x, In x (_store (fst (fold_left step memories bs))) ->
               In x (_store (fst bs))).
Proof.
  induction memories as [| a rest IH]; intros [b st] Hincl Hall;
    cbn [fold_left].
  - split; [exact Hall | tauto].
  - assert (Ha : In a domain) by (apply Hincl; now left).
    assert (Hrest : incl rest domain)
      by (intros y Hy; apply Hincl; now right).
    destruct (step (b, st) a) as [b1 st1] eqn:Hstep.
    assert (Hall1 : forall x, In x domain ->
                              score_in_range (objects (fst (b1, st1))) x).
    { intros x Hx. rewrite <- Hstep.
      now apply process_memory_range with (domain := domain). }
    destruct (IH (b1, st1) Hrest Hall1) as [Hr Hs]. split; [exact Hr|].
    intros x Hx. apply Hs in Hx. cbn [fst] in *.
    apply (process_memory_store_incl b st a).
    fold step. now rewrite Hstep.
Qed.

End CycleScores.

(** ** The range of the scores (C1) *)

(** C1, amended.  The recomputed score lies in [0,1] when the decay
    formula is applied to the record, whatever its current score, and when
    the current score lies in [0,1]; and if the score of every stored
    record lies in [0,1] before a decay cycle, the score of every record
    stored after the cycle lies in [0,1]. *)
Theorem decay_cycle_keeps_scores_in_range
    config age_days_of summarizer_fn :
  (forall memory age_days,
     decays_at config age_days_of memory age_days ->
     0 <= calculate_decay config age_days_of memory <= 1)
  /\
  (forall memory,
     0 <= get_importance_score (get_metadata memory) <= 1 ->
     0 <= calculate_decay config age_days_of memory <= 1)
  /\
  (forall b,
     (forall a, In a (_store b) -> score_in_range (objects b) a) ->
     let b' := fst (run_decay_cycle config age_days_of summarizer_fn b) in
     forall a, In a (_store b') -> score_in_range (objects b') a).
Proof.
  split; [| split].
  - intros memory age Hd. rewrite (calculate_decay_decays _ _ _ _ Hd).
    apply clamp01_bounds.
  - intros memory. apply calculate_decay_in_range.
  - intros b Hall b' a Ha.
    unfold b', run_decay_cycle, InMemoryBackend.get_all in *.
    destruct (fold_process_memory_range config age_days_of summarizer_fn
                (_store b) (_store b)
                (b, mkStats (List.length (_store b)) 0 0 0 0)
                (incl_refl _) Hall) as [Hr Hs].
    apply Hr. apply Hs in Ha. exact Ha.
Qed.

(** ** Forgetting (C2) *)

Lemma persist_score_mem_id b st a memory_id new_score x :
  mem_id (objects (fst (persist_score b st a memory_id new_score)) x)
  = mem_id (objects b x).
Proof.
  destruct (metadata (objects b a)) as [md|] eqn:Hmd.
  - rewrite (persist_score_some _ _ _ _ _ _ Hmd). simpl fst.
    match goal with
    | |- context [InMemoryBackend.update ?b1 ?i ?u] =>
        destruct (backend_update_objects b1 i u x) as [H | [_ H]]
    end; rewrite H; simpl;
      destruct (heap_set_cases (objects b) a
                  (set_metadata (objects b a)
                     (Some (set_importance_score md new_score))) x)
        as [[-> Hs] | [Hne Hs]]; rewrite Hs; reflexivity.
  - rewrite (persist_score_none _ _ _ _ _ Hmd). reflexivity.
Qed.

Lemma persist_score_other b st a new_score x :
  InMemoryBackend.get b (mem_id (objects b a)) = Some a ->
  x <> a ->
  objects (fst (persist_score b st a (mem_id (objects b a)) new_score)) x
  = objects b x.
Proof.
  intros Hget Hne.
  destruct (metadata (objects b a)) as [md|] eqn:Hmd.
  - rewrite (persist_score_some _ _ _ _ _ _ Hmd). simpl fst.
    match goal with
    | |- context [InMemoryBackend.update ?b1 ?i ?u] =>
        destruct (backend_update_objects b1 i u x) as [H | [Hx _]]
    end.
    + rewrite H. simpl. now apply heap_set_other.
    + exfalso. unfold InMemoryBackend.get in Hx, Hget. simpl in Hx.
      rewrite find_has_id_ext with (h := objects b) in Hx.
      * congruence.
      * intros y.
        destruct (heap_set_cases (objects b) a
                    (set_metadata (objects b a)
                       (Some (set_importance_score md new_score))) y)
          as [[-> Hs] | [_ Hs]]; rewrite Hs; reflexivity.
  - rewrite (persist_score_none _ _ _ _ _ Hmd). reflexivity.
Qed.

Lemma persist_score_forgotten b st a memory_id new_score :
  forgotten (snd (persist_score b st a memory_id new_score)) = forgotten st.
Proof.
  unfold persist_score. destruct (store_score _ _ _); reflexivity.
Qed.

Section Forgetting.

Variable config : DecayConfig.
Variable age_days_of : string -> option Z.
Variable summarizer_fn : option (string -> Z -> Z -> option string).

Let step := process_memory config age_days_of summarizer_fn.
Let forgets_in (h : Heap) := forgets config age_days_of h.

Lemma process_memory_forgotten b st a :
  forgets_in (objects b) a = true ->
  step (b, st) a
  = (InMemoryBackend.delete b (mem_id (objects b a)), add_forgotten st).
Proof.
  unfold forgets_in, forgets, step, process_memory.
  destruct (Rlt_dec _ _); [reflexivity | discriminate].
Qed.

(** A record that is not forgotten stays in the store; with its id
    leading to itself, its processing touches no other record. *)
Lemma process_memory_kept b st a :
  forgets_in (objects b) a = false ->
  InMemoryBackend.get b (mem_id (objects b a)) = Some a ->
  _store (fst (step (b, st) a)) = _store b /\
  forgotten (snd (step (b, st) a)) = forgotten st /\
  (forall x, x <> a -> objects (fst (step (b, st) a)) x = objects b x) /\
  (forall x, mem_id (objects (fst (step (b, st) a)) x)
             = mem_id (objects b x)).
Proof.
  intros Hkeep Hget.
  unfold forgets_in, forgets in Hkeep. unfold step, process_memory.
  destruct (Rlt_dec _ (forget_threshold config)); [discriminate|].
  destruct (Rlt_dec _ (consolidation_threshold config)).
  - destruct (negb _).
    + set (b1 := mkBackend (consolidate_memory summarizer_fn (objects b) a)
                           (_store b) (calls b)).
      assert (Hid : mem_id (objects b1 a) = mem_id (objects b a))
        by apply consolidate_memory_mem_id.
      assert (Hget1 : InMemoryBackend.get b1 (mem_id (objects b1 a)) = Some a).
      { rewrite Hid. unfold InMemoryBackend.get, b1. simpl.
        rewrite find_has_id_ext with (h := objects b); [exact Hget|].
        intros y. apply consolidate_memory_mem_id. }
      rewrite <- Hid.
      rewrite persist_score_store, persist_score_forgotten.
      repeat split; try reflexivity.
      * intros x Hne. rewrite persist_score_other by assumption.
        simpl. now apply consolidate_memory_other.
      * intros x. rewrite persist_score_mem_id. simpl.
        apply consolidate_memory_mem_id.
    + rewrite persist_score_store, persist_score_forgotten.
      repeat split; try reflexivity.
      * intros x Hne. now apply persist_score_other.
      * intros x. apply persist_score_mem_id.
  - destruct (Rgt_dec _ _).
    + rewrite persist_score_store, persist_score_forgotten.
      repeat split; try reflexivity.
      * intros x Hne. now apply persist_score_other.
      * intros x. apply persist_score_mem_id.
    + simpl. repeat split; reflexivity.
Qed.

Lemma forgets_ext h h' l :
  (forall x, In x l -> h' x = h x) ->
  filter (forgets_in h') l = filter (forgets_in h) l.
Proof.
  intros Heq. apply filter_ext_in. intros x Hx.
  unfold forgets_in, forgets. now rewrite Heq.
Qed.

Lemma stored_ids_ext h h' l :
  (forall x, mem_id (h' x) = mem_id (h x)) ->
  stored_ids h' l = stored_ids h l.
Proof.
  intros Heq. unfold stored_ids. apply map_ext. intros x. apply Heq.
Qed.

Lemma NoDup_stored_ids_notin h kept a rest :
  NoDup (stored_ids h (kept ++ a :: rest)) -> ~ In a rest.
Proof.
  unfold stored_ids. rewrite map_app. simpl. intros Hnd Hin.
  apply NoDup_remove_2 in Hnd. apply Hnd.
  apply in_or_app. right.
  apply (in_map (fun x => mem_id (h x))). assumption.
Qed.

(** The store and the count of forgotten records after the loop has run
    over [rest], when the store holds [kept ++ rest] with distinct ids. *)
Lemma fold_process_memory_forgets rest :
  forall kept b st,
    _store b = kept ++ rest ->
    NoDup (stored_ids (objects b) (kept ++ rest)) ->
    _store (fst (fold_left step rest (b, st)))
    = kept ++ filter (fun a => negb (forgets_in (objects b) a)) rest
    /\ forgotten (snd (fold_left step rest (b, st)))
       = (forgotten st
          + List.length (filter (forgets_in (objects b)) rest))%nat.
Proof.
  induction rest as [| a rest IH]; intros kept b st Hstore Hnd;
    cbn [fold_left filter].
  - simpl. rewrite Nat.add_0_r. now split.
  - assert (Hget : InMemoryBackend.get b (mem_id (objects b a)) = Some a).
    { unfold InMemoryBackend.get. rewrite Hstore.
      apply find_has_id_unique; [| exact Hnd].
      apply in_or_app. right. now left. }
    pose proof (NoDup_stored_ids_notin _ _ _ _ Hnd) as Hnotin.
    destruct (forgets_in (objects b) a) eqn:Hf; cbn [negb].
    + rewrite process_memory_forgotten by assumption.
      destruct (IH kept (InMemoryBackend.delete b (mem_id (objects b a)))
                  (add_forgotten st)) as [Hs Hc].
      * simpl. rewrite Hstore. now apply remove_first_unique.
      * simpl. unfold stored_ids in *. rewrite map_app in *. simpl in Hnd.
        now apply NoDup_remove_1 in Hnd.
      * simpl in Hs, Hc. rewrite Hs, Hc. simpl. split; [reflexivity | lia].
    + destruct (process_memory_kept b st a Hf Hget)
        as (Hst & Hfo & Hother & Hid).
      destruct (step (b, st) a) as [b1 st1] eqn:Hstep. cbn [fst snd] in *.
      destruct (IH (kept ++ [a]) b1 st1) as [Hs Hc].
      * rewrite Hst, Hstore, <- app_assoc. reflexivity.
      * rewrite (stored_ids_ext (objects b)) by exact Hid.
        rewrite <- app_assoc. exact Hnd.
      * rewrite Hs, Hc, Hfo, <- app_assoc. simpl.
        assert (Hext : forall x, In x rest -> objects b1 x = objects b x).
        { intros x Hx. apply Hother. intros ->. contradiction. }
        rewrite (forgets_ext _ _ _ Hext). split; [| reflexivity].
        do 2 f_equal. apply filter_ext_in. intros x Hx.
        unfold forgets_in, forgets. now rewrite Hext.
Qed.

End Forgetting.

(** C2, amended.  For a record whose recomputed score is below the forget
    threshold, the loop body calls [delete] on the backend with the id of
    the record, which removes the first stored record with that id, and
    adds one to the forgotten count.  Over a whole cycle on a store whose
    records have distinct ids, every such record is absent from the store
    when the cycle returns, and the forgotten count is the number of these
    records. *)
Theorem forgotten_records_are_deleted
    config age_days_of summarizer_fn b :
  (forall st a,
     calculate_decay config age_days_of (objects b a)
       < forget_threshold config ->
     let r := process_memory config age_days_of summarizer_fn (b, st) a in
     calls (fst r) = CallDelete (mem_id (objects b a)) :: calls b /\
     _store (fst r)
     = remove_first (objects b) (mem_id (objects b a)) (_store b) /\
     forgotten (snd r) = S (forgotten st))
  /\
  (NoDup (stored_ids (objects b) (_store b)) ->
   let r := run_decay_cycle config age_days_of summarizer_fn b in
   (forall a,
      In a (_store b) ->
      calculate_decay config age_days_of (objects b a)
        < forget_threshold config ->
      ~ In a (_store (fst r)))
   /\ forgotten (snd r)
      = List.length
          (filter (forgets config age_days_of (objects b)) (_store b))).
Proof.
  split.
  - intros st a Hlt r. unfold r.
    rewrite process_memory_forget by exact Hlt. simpl.
    repeat split; reflexivity.
  - intros Hnd r. unfold r, run_decay_cycle, InMemoryBackend.get_all.
    destruct (fold_process_memory_forgets config age_days_of summarizer_fn
                (_store b) [] b
                (mkStats (List.length (_store b)) 0 0 0 0)
                eq_refl Hnd) as [Hs Hc].
    split.
    + intros a Ha Hlt. rewrite Hs. simpl. intros Hin.
      apply filter_In in Hin. destruct Hin as [_ Hkeep].
      unfold forgets in Hkeep.
      destruct (Rlt_dec _ _); [discriminate | contradiction].
    + rewrite Hc. reflexivity.
Qed.

(** ** Cycles on a single record *)

(** Unfolds the accessors on the example records and configurations. *)
Ltac unfold_example :=
  cbv [score_in_range score_at single example_record get_metadata
       get_importance_score get_access_count get_consolidated
       metadata importance_score access_count timestamp consolidated
       objects _store calls default_config negative_rate_config
       decay_rate forget_threshold consolidation_threshold min_age_days
       today clock].

Lemma example_young config memory_id s a :
  (0 < min_age_days config)%Z ->
  keeps_score config (clock 0) (example_record memory_id s a today).
Proof.
  intros Hmin.
  apply ks_young with (ts := "2026-11-03T09:00:00"%string) (age_days := 0%Z);
    [reflexivity | reflexivity | exact Hmin].
Qed.

Lemma run_decay_cycle_single config age_days_of summarizer_fn h a l :
  run_decay_cycle config age_days_of summarizer_fn (mkBackend h [a] l)
  = process_memory config age_days_of summarizer_fn
      (mkBackend h [a] l, initial_stats 1) a.
Proof. reflexivity. Qed.

Lemma Rabs_diag_small (x : R) : ~ Rabs (x - x) > 1 / 100.
Proof. rewrite Rminus_diag, Rabs_R0. lra. Qed.

(** A record that keeps its score, and whose score is below neither
    threshold, goes through the loop body without any effect. *)
Lemma process_memory_keeps_noop config age_days_of summarizer_fn b st a :
  keeps_score config age_days_of (objects b a) ->
  score_at (objects b) a >= forget_threshold config ->
  score_at (objects b) a >= consolidation_threshold config ->
  process_memory config age_days_of summarizer_fn (b, st) a = (b, st).
Proof.
  intros Hk Hf Hc. unfold score_at in *.
  apply process_memory_retain_noop;
    rewrite (calculate_decay_keeps _ _ _ Hk);
    try lra. apply Rabs_diag_small.
Qed.

(** ** Records that are too young or have no usable timestamp (C4) *)

(** C4.  The recomputation returns the current score of a record that is
    too young, or whose timestamp is absent, empty or rejected by the
    parser; and a cycle under the default configuration over a store with
    one record of score 0.5, access count 1 and age 0 days leaves the
    store and the record as they are, with nothing counted but the
    total. *)
Theorem young_or_undated_record_keeps_score age_days_of :
  (forall config memory,
     keeps_score config age_days_of memory ->
     calculate_decay config age_days_of memory
     = get_importance_score (get_metadata memory))
  /\
  (forall summarizer_fn h a l md ts,
     metadata (h a) = Some md ->
     importance_score md = Some (5 / 10) ->
     access_count md = Some 1%Z ->
     timestamp md = Some ts ->
     age_days_of ts = Some 0%Z ->
     run_decay_cycle default_config age_days_of summarizer_fn
                     (mkBackend h [a] l)
     = (mkBackend h [a] l, initial_stats 1)).
Proof.
  split.
  - intros config memory. apply calculate_decay_keeps.
  - intros summarizer_fn h a l md ts Hmd Hs Hac Hts Hage.
    rewrite run_decay_cycle_single.
    assert (Hscore : score_at h a = 5 / 10).
    { unfold score_at, get_metadata, get_importance_score.
      now rewrite Hmd, Hs. }
    apply process_memory_keeps_noop; simpl; try rewrite Hscore; try lra.
    apply ks_young with (ts := ts) (age_days := 0%Z).
    + unfold get_metadata. now rewrite Hmd.
    + exact Hage.
    + simpl. lia.
Qed.

Lemma young_or_undated_record_keeps_score_witness :
  calculate_decay default_config (clock 0)
                  (example_record "m0" (5 / 10) 1 today) = 5 / 10
  /\ run_decay_cycle default_config (clock 0) failing_summarizer
                     (single (example_record "m0" (5 / 10) 1 today))
     = (single (example_record "m0" (5 / 10) 1 today), initial_stats 1).
Proof.
  destruct (young_or_undated_record_keeps_score (clock 0)) as [Hkeep Hcycle].
  split.
  - apply (Hkeep default_config (example_record "m0" (5 / 10) 1 today)).
    apply ks_young with (ts := "2026-11-03T09:00:00"%string) (age_days := 0%Z);
      [reflexivity | reflexivity | simpl; lia].
  - unfold single.
    apply (Hcycle failing_summarizer _ 0%nat []
                  (mkMetadata (Some (5 / 10)) (Some 1%Z) today None)
                  "2026-11-03T09:00:00"%string);
      reflexivity.
Defined.

(** ** Scenarios of the score recomputation and of forgetting *)

(** C1, as stated, fails: a record of score 1.5 that was added today goes
    through a cycle under the default configuration with its score as it
    is, and is still stored. *)
Lemma overscored_young_record_stays_out_of_range :
  let b := single (example_record "m0" (15 / 10) 1 today) in
  let b' := fst (run_decay_cycle default_config (clock 0) None b) in
  calculate_decay default_config (clock 0) (objects b 0%nat) = 15 / 10 /\
  In 0%nat (_store b') /\
  score_at (objects b') 0%nat = 15 / 10 /\
  ~ score_in_range (objects b') 0%nat.
Proof.
  assert (Hk : keeps_score default_config (clock 0)
                 (example_record "m0" (15 / 10) 1 today)).
  { apply ks_young with (ts := "2026-11-03T09:00:00"%string) (age_days := 0%Z);
      [reflexivity | reflexivity | simpl; lia]. }
  cbv zeta. unfold single. rewrite run_decay_cycle_single.
  rewrite process_memory_keeps_noop;
    [| exact Hk | unfold_example; lra | unfold_example; lra].
  cbn [fst objects _store]. split; [| split; [| split]].
  - now rewrite (calculate_decay_keeps _ _ _ Hk).
  - now left.
  - reflexivity.
  - unfold_example. lra.
Qed.

Lemma decay_cycle_keeps_scores_in_range_witness :
  score_in_range
    (objects
       (fst (run_decay_cycle default_config (clock 0) failing_summarizer
               (single (example_record "m0" (5 / 10) 1 today)))))
    0%nat.
Proof.
  destruct (decay_cycle_keeps_scores_in_range default_config (clock 0)
              failing_summarizer) as (_ & _ & Hcycle).
  apply (Hcycle (single (example_record "m0" (5 / 10) 1 today))).
  - intros a _. unfold_example. lra.
  - unfold single. rewrite run_decay_cycle_single.
    rewrite process_memory_keeps_noop;
      [now left | apply example_young; simpl; lia
       | unfold_example; lra | unfold_example; lra].
Defined.

Lemma decay_never_increases_witness :
  let m := example_record "m0" (5 / 10) 3 today in
  calculate_decay default_config (clock 20) m
  <= get_importance_score (get_metadata m)
  /\ (keeps_score default_config (clock 20) m ->
      calculate_decay default_config (clock 20) m
      = get_importance_score (get_metadata m)).
Proof.
  apply (decay_never_increases default_config (clock 20)
           (example_record "m0" (5 / 10) 3 today)).
  - unfold_example. lra.
  - unfold_example. lra.
  - unfold_example. lia.
Defined.

Lemma example_decays config age ts_age memory_id s a :
  (min_age_days config <= ts_age)%Z ->
  age = ts_age ->
  decays_at config (clock ts_age) (example_record memory_id s a today) age.
Proof.
  intros Hmin ->. exists "2026-11-03T09:00:00"%string.
  repeat split; try reflexivity; [discriminate | exact Hmin].
Qed.

(** C5, as stated, fails: with [decay_rate = -0.05], of two records of
    score 0.1 that are 20 days old, the one with access count 3 gets a
    smaller recomputed score than the one with access count 1. *)
Lemma negative_rate_reverses_access_order :
  let m1 := example_record "m1" (1 / 10) 3 today in
  let m2 := example_record "m2" (1 / 10) 1 today in
  timestamp (get_metadata m1) = timestamp (get_metadata m2) /\
  record_age (clock 20) m1 = Some 20%Z /\
  record_age (clock 20) m2 = Some 20%Z /\
  get_importance_score (get_metadata m1)
  = get_importance_score (get_metadata m2) /\
  access_count (get_metadata m1) = Some 3%Z /\
  access_count (get_metadata m2) = Some 1%Z /\
  ~ (calculate_decay negative_rate_config (clock 20) m1
     >= calculate_decay negative_rate_config (clock 20) m2).
Proof.
  cbv zeta. repeat split; try reflexivity.
  rewrite (calculate_decay_decays negative_rate_config (clock 20) _ 20%Z)
    by (apply example_decays; [simpl; lia | reflexivity]).
  rewrite (calculate_decay_decays negative_rate_config (clock 20) _ 20%Z)
    by (apply example_decays; [simpl; lia | reflexivity]).
  unfold_example. cbn [Z.max Z.compare Pos.compare Pos.compare_cont].
  assert (Hln3 : 0 < ln 3) by (rewrite <- ln_1; apply ln_increasing; lra).
  assert (He2 : - (-5 / 100) * 20 / (ln 1 + 1) = 1) by (rewrite ln_1; field).
  assert (He1 : - (-5 / 100) * 20 / (ln 3 + 1) = / (ln 3 + 1))
    by (field; lra).
  rewrite He1, He2.
  assert (Hinv : / (ln 3 + 1) < 1).
  { apply Rmult_lt_reg_l with (ln 3 + 1); [lra|].
    rewrite Rinv_r by lra. lra. }
  pose proof (exp_increasing _ _ Hinv) as Hexp.
  pose proof (exp_pos (/ (ln 3 + 1))) as Hpos.
  pose proof exp_le_3 as H3.
  rewrite !clamp01_id by lra. lra.
Qed.

Lemma higher_access_slows_decay_witness :
  calculate_decay default_config (clock 20)
                  (example_record "m1" (5 / 10) 3
                                  (Some "2026-10-14T08:00:00"%string))
  >= calculate_decay default_config (clock 20)
                     (example_record "m2" (5 / 10) 1
                                     (Some "2026-10-14T21:30:00"%string)).
Proof.
  apply (higher_access_slows_decay default_config (clock 20)
           (example_record "m1" (5 / 10) 3
                           (Some "2026-10-14T08:00:00"%string))
           (example_record "m2" (5 / 10) 1
                           (Some "2026-10-14T21:30:00"%string)) 3%Z 1%Z).
  - unfold_example. lra.
  - unfold_example. lia.
  - reflexivity.
  - reflexivity.
  - reflexivity.
  - reflexivity.
  - lia.
  - lia.
Defined.

(** The scenario of the specification: one record of score 0.15 is no
    longer stored after a cycle, and one record is counted as forgotten. *)
Lemma forgotten_records_are_deleted_witness :
  let b := single (example_record "m0" (15 / 100) 1 today) in
  let r := run_decay_cycle default_config (clock 0) failing_summarizer b in
  ~ In 0%nat (_store (fst r)) /\ forgotten (snd r) = 1%nat.
Proof.
  cbv zeta.
  assert (Hnew : calculate_decay default_config (clock 0)
                   (example_record "m0" (15 / 100) 1 today) = 15 / 100).
  { rewrite calculate_decay_keeps by (apply example_young; simpl; lia).
    reflexivity. }
  destruct (forgotten_records_are_deleted default_config (clock 0)
              failing_summarizer
              (single (example_record "m0" (15 / 100) 1 today)))
    as [_ Hcycle].
  destruct Hcycle as [Habsent Hcount].
  - simpl. constructor; [simpl; tauto | constructor].
  - split.
    + apply Habsent; [now left|].
      cbn [single objects]. rewrite Hnew. unfold_example. lra.
    + rewrite Hcount. cbn [single objects _store filter].
      unfold forgets. rewrite Hnew.
      destruct (Rlt_dec _ _) as [_ | Hn]; [reflexivity|].
      exfalso. apply Hn. unfold_example. lra.
Defined.

(** C2, as stated, fails when two stored records carry the same id, as do
    two memories ingested from the same text: [delete] removes the first
    stored record with the id.  Here the second record is the one whose
    recomputed score is below the threshold; the cycle removes the first,
    and the second is still stored when the cycle returns. *)
Lemma shared_id_deletes_first_record :
  let b := mkBackend shared_id_records [0%nat; 1%nat] [] in
  let r := run_decay_cycle default_config (clock 0) failing_summarizer b in
  In 1%nat (_store b) /\
  calculate_decay default_config (clock 0) (objects b 1%nat)
    < forget_threshold default_config /\
  In 1%nat (_store (fst r)) /\
  _store (fst r) = [1%nat] /\
  forgotten (snd r) = 1%nat.
Proof.
  cbv zeta. split; [simpl; tauto|].
  assert (H0 : calculate_decay default_config (clock 0)
                 (shared_id_records 0%nat) = 9 / 10).
  { unfold shared_id_records.
    rewrite calculate_decay_keeps by (apply example_young; simpl; lia).
    reflexivity. }
  assert (H1 : calculate_decay default_config (clock 0)
                 (shared_id_records 1%nat) = 15 / 100).
  { unfold shared_id_records.
    rewrite calculate_decay_keeps by (apply example_young; simpl; lia).
    reflexivity. }
  split; [cbn [objects]; rewrite H1; unfold_example; lra|].
  unfold run_decay_cycle, InMemoryBackend.get_all.
  cbn [_store fold_left List.length].
  rewrite process_memory_keeps_noop;
    [| unfold shared_id_records; apply example_young; simpl; lia
     | unfold shared_id_records; unfold_example; lra
     | unfold shared_id_records; unfold_example; lra].
  rewrite process_memory_forget
    by (cbn [objects]; rewrite H1; unfold_example; lra).
  repeat split; try reflexivity. simpl. tauto.
Qed.

(** ** From the loop body to the cycle *)

(** What the loop body leaves at the address it runs on depends on the
    dict at that address alone. *)
Lemma persist_score_own b st a memory_id new_score :
  objects (fst (persist_score b st a memory_id new_score)) a
  = match metadata (objects b a) with
    | Some md =>
        set_metadata (objects b a) (Some (set_importance_score md new_score))
    | None => objects b a
    end.
Proof.
  destruct (metadata (objects b a)) as [md|] eqn:Hmd.
  - now apply persist_score_at.
  - now rewrite persist_score_none.
Qed.

Lemma consolidate_memory_own summarizer_fn h1 h2 a :
  h1 a = h2 a ->
  consolidate_memory summarizer_fn h1 a a
  = consolidate_memory summarizer_fn h2 a a.
Proof.
  intros Heq. unfold consolidate_memory.
  destruct summarizer_fn as [f|]; [| exact Heq].
  rewrite Heq. destruct (negb _); [exact Heq|].
  destruct (f _ _ _); [| exact Heq].
  cbv zeta. cbn [metadata set_texts]. destruct (metadata (h2 a));
    unfold heap_set; now rewrite Nat.eqb_refl.
Qed.

Section Locality.

Variable config : DecayConfig.
Variable age_days_of : string -> option Z.
Variable summarizer_fn : option (string -> Z -> Z -> option string).

Let step := process_memory config age_days_of summarizer_fn.

Lemma process_memory_own b1 st1 b2 st2 a :
  objects b1 a = objects b2 a ->
  objects (fst (step (b1, st1) a)) a = objects (fst (step (b2, st2) a)) a.
Proof.
  intros Heq. unfold step, process_memory. rewrite Heq.
  destruct (Rlt_dec _ (forget_threshold config)); [exact Heq|].
  destruct (Rlt_dec _ (consolidation_threshold config)).
  - destruct (negb _).
    + rewrite !persist_score_own. cbn [objects].
      now rewrite (consolidate_memory_own summarizer_fn _ _ a Heq).
    + rewrite !persist_score_own. now rewrite Heq.
  - destruct (Rgt_dec _ _); [| exact Heq].
    rewrite !persist_score_own. now rewrite Heq.
Qed.

(** In a store with distinct ids the loop body leaves the other dicts as
    they are. *)
Lemma process_memory_frame b st a x :
  InMemoryBackend.get b (mem_id (objects b a)) = Some a ->
  x <> a ->
  objects (fst (step (b, st) a)) x = objects b x.
Proof.
  intros Hget Hne.
  destruct (forgets config age_days_of (objects b) a) eqn:Hf.
  - unfold step. rewrite process_memory_forgotten by exact Hf. reflexivity.
  - destruct (process_memory_kept config age_days_of summarizer_fn
                b st a Hf Hget) as (_ & _ & Hother & _).
    now apply Hother.
Qed.

Lemma fold_process_memory_local rest :
  forall kept b st,
    _store b = kept ++ rest ->
    NoDup (stored_ids (objects b) (kept ++ rest)) ->
    (forall x, ~ In x rest ->
               objects (fst (fold_left step rest (b, st))) x = objects b x)
    /\
    (forall a, In a rest ->
               objects (fst (fold_left step rest (b, st))) a
               = objects (fst (step (b, st) a)) a).
Proof.
  induction rest as [| a0 rest IH]; intros kept b st Hstore Hnd;
    cbn [fold_left].
  - split; [reflexivity | intros a []].
  - assert (Hget : InMemoryBackend.get b (mem_id (objects b a0)) = Some a0).
    { unfold InMemoryBackend.get. rewrite Hstore.
      apply find_has_id_unique; [| exact Hnd].
      apply in_or_app. right. now left. }
    pose proof (NoDup_stored_ids_notin _ _ _ _ Hnd) as Hnotin.
    assert (Hframe : forall x, x <> a0 ->
                               objects (fst (step (b, st) a0)) x = objects b x)
      by (intros x Hx; now apply process_memory_frame).
    assert (Hnext : exists kept',
               _store (fst (step (b, st) a0)) = kept' ++ rest /\
               NoDup (stored_ids (objects (fst (step (b, st) a0)))
                                 (kept' ++ rest))).
    { destruct (forgets config age_days_of (objects b) a0) eqn:Hf.
      - exists kept. unfold step.
        rewrite process_memory_forgotten by exact Hf. simpl. split.
        + rewrite Hstore. now apply remove_first_unique.
        + unfold stored_ids in *. rewrite map_app in *. simpl in Hnd.
          now apply NoDup_remove_1 in Hnd.
      - destruct (process_memory_kept config age_days_of summarizer_fn
                    b st a0 Hf Hget) as (Hst & _ & _ & Hid).
        exists (kept ++ [a0]). fold step in Hst, Hid. split.
        + rewrite Hst, Hstore, <- app_assoc. reflexivity.
        + rewrite (stored_ids_ext (objects b)) by exact Hid.
          rewrite <- app_assoc. exact Hnd. }
    destruct Hnext as (kept' & Hstore' & Hnd').
    destruct (step (b, st) a0) as [b1 st1] eqn:Hstep. cbn [fst] in *.
    destruct (IH kept' b1 st1 Hstore' Hnd') as [Hout Hin]. split.
    + intros x Hx. rewrite Hout by (intros Hr; apply Hx; now right).
      apply Hframe. intros ->. apply Hx. now left.
    + intros a [<- | Ha].
      * rewrite Hout by assumption. now rewrite Hstep.
      * rewrite (Hin a Ha).
        apply process_memory_own. apply Hframe. intros ->. contradiction.
Qed.

(** In a store with distinct ids, the cycle leaves at the address of a
    stored record what the loop body, run on that record alone, leaves
    there. *)
Lemma run_decay_cycle_local b st a :
  NoDup (stored_ids (objects b) (_store b)) ->
  In a (_store b) ->
  objects (fst (run_decay_cycle config age_days_of summarizer_fn b)) a
  = objects (fst (step (b, st) a)) a.
Proof.
  intros Hnd Ha. unfold run_decay_cycle, InMemoryBackend.get_all.
  destruct (fold_process_memory_local (_store b) [] b
              (mkStats (List.length (_store b)) 0 0 0 0) eq_refl Hnd)
    as [_ Hin].
  fold step. rewrite (Hin a Ha). now apply process_memory_own.
Qed.

End Locality.

(** ** The calls of a cycle *)

Lemma persist_score_calls b st a memory_id new_score :
  calls (fst (persist_score b st a memory_id new_score))
  = match metadata (objects b a) with
    | Some md =>
        CallUpdate memory_id (set_importance_score md new_score) :: calls b
    | None => calls b
    end.
Proof.
  destruct (metadata (objects b a)) as [md|] eqn:Hmd.
  - rewrite (persist_score_some _ _ _ _ _ _ Hmd). simpl fst.
    now rewrite backend_update_calls.
  - now rewrite persist_score_none.
Qed.

Lemma calls_with_cons memory_id c cs :
  calls_with memory_id (c :: cs)
  = if String.eqb (call_id c) memory_id
    then c :: calls_with memory_id cs
    else calls_with memory_id cs.
Proof. reflexivity. Qed.

Section CycleCalls.

Variable config : DecayConfig.
Variable age_days_of : string -> option Z.
Variable summarizer_fn : option (string -> Z -> Z -> option string).

Let step := process_memory config age_days_of summarizer_fn.

(** The loop body makes at most one call, with the id of its record; the
    call depends on the dict of the record alone. *)
Lemma process_memory_calls b1 st1 b2 st2 a :
  objects b1 a = objects b2 a ->
  exists new,
    calls (fst (step (b1, st1) a)) = new ++ calls b1 /\
    calls (fst (step (b2, st2) a)) = new ++ calls b2 /\
    Forall (fun c => call_id c = mem_id (objects b1 a)) new.
Proof.
  intros Heq. unfold step, process_memory. rewrite Heq.
  destruct (Rlt_dec _ (forget_threshold config)).
  { exists [CallDelete (mem_id (objects b2 a))]. simpl.
    repeat split. constructor; [reflexivity | constructor]. }
  assert (Hpersist : forall h1 h2 s1 s2 v,
            metadata (h1 a) = metadata (h2 a) ->
            exists new,
              calls (fst (persist_score (mkBackend h1 (_store b1) (calls b1))
                            s1 a (mem_id (objects b2 a)) v))
              = new ++ calls b1 /\
              calls (fst (persist_score (mkBackend h2 (_store b2) (calls b2))
                            s2 a (mem_id (objects b2 a)) v))
              = new ++ calls b2 /\
              Forall (fun c => call_id c = mem_id (objects b2 a)) new).
  { intros h1 h2 s1 s2 v Hmd. rewrite !persist_score_calls. simpl.
    rewrite Hmd. destruct (metadata (h2 a)) as [md|].
    - exists [CallUpdate (mem_id (objects b2 a)) (set_importance_score md v)].
      repeat split. constructor; [reflexivity | constructor].
    - exists []. repeat split. constructor. }
  destruct (Rlt_dec _ (consolidation_threshold config)).
  - destruct (negb _).
    + apply Hpersist.
      now rewrite (consolidate_memory_own summarizer_fn _ _ a Heq).
    + destruct b1 as [h1 s1 c1], b2 as [h2 s2 c2]. simpl in *.
      apply (Hpersist h1 h2). now rewrite Heq.
  - destruct (Rgt_dec _ _).
    + destruct b1 as [h1 s1 c1], b2 as [h2 s2 c2]. simpl in *.
      apply (Hpersist h1 h2). now rewrite Heq.
    + exists []. repeat split. constructor.
Qed.

Lemma calls_with_new memory_id new cs other :
  Forall (fun c => call_id c = other) new ->
  other <> memory_id ->
  calls_with memory_id (new ++ cs) = calls_with memory_id cs.
Proof.
  intros Hall Hne. induction Hall as [| c new Hc _ IH]; [reflexivity|].
  cbn [app]. rewrite calls_with_cons, Hc.
  destruct (String.eqb_spec other memory_id); [contradiction | exact IH].
Qed.

Lemma process_memory_calls_with b1 st1 b2 st2 a :
  objects b1 a = objects b2 a ->
  calls_with (mem_id (objects b1 a)) (calls b1)
  = calls_with (mem_id (objects b1 a)) (calls b2) ->
  calls_with (mem_id (objects b1 a)) (calls (fst (step (b1, st1) a)))
  = calls_with (mem_id (objects b1 a)) (calls (fst (step (b2, st2) a))).
Proof.
  intros Heq Hcalls.
  destruct (process_memory_calls b1 st1 b2 st2 a Heq)
    as (new & -> & -> & _).
  unfold calls_with in *. rewrite !filter_app. now rewrite Hcalls.
Qed.

Lemma process_memory_calls_other b st a memory_id :
  mem_id (objects b a) <> memory_id ->
  calls_with memory_id (calls (fst (step (b, st) a)))
  = calls_with memory_id (calls b).
Proof.
  intros Hne.
  destruct (process_memory_calls b st b st a eq_refl) as (new & -> & _ & Hall).
  eapply calls_with_new; eauto.
Qed.

Lemma stored_ids_distinct h kept a rest x :
  NoDup (stored_ids h (kept ++ a :: rest)) ->
  In x rest -> mem_id (h a) <> mem_id (h x).
Proof.
  unfold stored_ids. rewrite map_app. simpl. intros Hnd Hx Heq.
  apply NoDup_remove_2 in Hnd. apply Hnd.
  apply in_or_app. right. rewrite Heq.
  apply (in_map (fun y => mem_id (h y))). exact Hx.
Qed.

Lemma fold_process_memory_calls rest :
  forall kept b st,
    _store b = kept ++ rest ->
    NoDup (stored_ids (objects b) (kept ++ rest)) ->
    (forall memory_id,
       ~ In memory_id (stored_ids (objects b) rest) ->
       calls_with memory_id (calls (fst (fold_left step rest (b, st))))
       = calls_with memory_id (calls b))
    /\
    (forall a, In a rest ->
       calls_with (mem_id (objects b a))
                  (calls (fst (fold_left step rest (b, st))))
       = calls_with (mem_id (objects b a))
                    (calls (fst (step (b, st) a)))).
Proof.
  induction rest as [| a0 rest IH]; intros kept b st Hstore Hnd;
    cbn [fold_left].
  - split; [reflexivity | intros a []].
  - assert (Hget : InMemoryBackend.get b (mem_id (objects b a0)) = Some a0).
    { unfold InMemoryBackend.get. rewrite Hstore.
      apply find_has_id_unique; [| exact Hnd].
      apply in_or_app. right. now left. }
    pose proof (NoDup_stored_ids_notin _ _ _ _ Hnd) as Hnotin.
    assert (Hframe : forall x, x <> a0 ->
                               objects (fst (step (b, st) a0)) x = objects b x)
      by (intros x Hx; now apply process_memory_frame).
    assert (Hids : forall x, mem_id (objects (fst (step (b, st) a0)) x)
                             = mem_id (objects b x)).
    { intros x. destruct (Nat.eq_dec x a0) as [-> | Hne].
      - destruct (forgets config age_days_of (objects b) a0) eqn:Hf.
        + unfold step. now rewrite process_memory_forgotten by exact Hf.
        + now destruct (process_memory_kept config age_days_of summarizer_fn
                          b st a0 Hf Hget) as (_ & _ & _ & ->).
      - now rewrite Hframe. }
    assert (Hnext : exists kept',
               _store (fst (step (b, st) a0)) = kept' ++ rest /\
               NoDup (stored_ids (objects b) (kept' ++ rest))).
    { destruct (forgets config age_days_of (objects b) a0) eqn:Hf.
      - exists kept. unfold step.
        rewrite process_memory_forgotten by exact Hf. simpl. split.
        + rewrite Hstore. now apply remove_first_unique.
        + unfold stored_ids in *. rewrite map_app in *. simpl in Hnd.
          now apply NoDup_remove_1 in Hnd.
      - destruct (process_memory_kept config age_days_of summarizer_fn
                    b st a0 Hf Hget) as (Hst & _ & _ & _).
        exists (kept ++ [a0]). fold step in Hst. split.
        + rewrite Hst, Hstore, <- app_assoc. reflexivity.
        + rewrite <- app_assoc. exact Hnd. }
    destruct Hnext as (kept' & Hstore' & Hnd').
    pose proof (process_memory_calls_other b st a0) as Hother.
    destruct (step (b, st) a0) as [b1 st1] eqn:Hstep. cbn [fst] in *.
    assert (Hnd1 : NoDup (stored_ids (objects b1) (kept' ++ rest)))
      by (rewrite (stored_ids_ext (objects b)); assumption).
    destruct (IH kept' b1 st1 Hstore' Hnd1) as [Hout Hin]. split.
    + intros memory_id Hid.
      rewrite Hout.
      * apply Hother. intros Heq. apply Hid. left. exact Heq.
      * rewrite (stored_ids_ext (objects b)) by exact Hids.
        intros Hr. apply Hid. now right.
    + intros a [<- | Ha].
      * rewrite Hout; [now rewrite Hstep|].
        rewrite (stored_ids_ext (objects b)) by exact Hids.
        intros Hr. unfold stored_ids in Hr. apply in_map_iff in Hr.
        destruct Hr as (x & Hx & Hxin).
        apply (stored_ids_distinct _ _ _ _ x Hnd Hxin). now symmetry.
      * assert (Hne : a <> a0) by (intros ->; contradiction).
        rewrite <- (Hids a), (Hin a Ha), (Hids a).
        rewrite <- (Hframe a Hne).
        fold step.
        rewrite (process_memory_calls_with b1 st1 b st a);
          [now rewrite (Hframe a Hne) | now apply Hframe |].
        rewrite (Hframe a Hne). apply Hother.
        apply (stored_ids_distinct _ _ _ _ a Hnd Ha).
Qed.

(** In a store with distinct ids, the calls a cycle makes with the id of
    a stored record are those of the loop body on that record. *)
Lemma run_decay_cycle_calls b st a :
  NoDup (stored_ids (objects b) (_store b)) ->
  In a (_store b) ->
  calls_with (mem_id (objects b a))
    (calls (fst (run_decay_cycle config age_days_of summarizer_fn b)))
  = calls_with (mem_id (objects b a)) (calls (fst (step (b, st) a))).
Proof.
  intros Hnd Ha. unfold run_decay_cycle, InMemoryBackend.get_all.
  destruct (fold_process_memory_calls (_store b) [] b
              (mkStats (List.length (_store b)) 0 0 0 0) eq_refl Hnd)
    as [_ Hin].
  fold step. rewrite (Hin a Ha).
  now apply process_memory_calls_with.
Qed.

End CycleCalls.

(** ** The cycle on one record of a store with distinct ids *)

Section CycleOnRecord.

Variable config : DecayConfig.
Variable age_days_of : string -> option Z.
Variable summarizer_fn : option (string -> Z -> Z -> option string).

Let cycle := run_decay_cycle config age_days_of summarizer_fn.

(** The records stored after a cycle are those that are not forgotten. *)
Lemma run_decay_cycle_store b :
  NoDup (stored_ids (objects b) (_store b)) ->
  _store (fst (cycle b))
  = filter (fun a => negb (forgets config age_days_of (objects b) a))
           (_store b).
Proof.
  intros Hnd. unfold cycle, run_decay_cycle, InMemoryBackend.get_all.
  destruct (fold_process_memory_forgets config age_days_of summarizer_fn
              (_store b) [] b
              (mkStats (List.length (_store b)) 0 0 0 0) eq_refl Hnd)
    as [Hs _].
  exact Hs.
Qed.

Lemma run_decay_cycle_keeps b a :
  NoDup (stored_ids (objects b) (_store b)) ->
  In a (_store b) ->
  calculate_decay config age_days_of (objects b a)
    >= forget_threshold config ->
  In a (_store (fst (cycle b))).
Proof.
  intros Hnd Ha Hf. rewrite run_decay_cycle_store by exact Hnd.
  apply filter_In. split; [exact Ha|].
  unfold forgets. destruct (Rlt_dec _ _); [lra | reflexivity].
Qed.

End CycleOnRecord.

Lemma calls_with_update memory_id updates cs :
  calls_with memory_id (CallUpdate memory_id updates :: cs)
  = CallUpdate memory_id updates :: calls_with memory_id cs.
Proof.
  rewrite calls_with_cons. simpl. now rewrite String.eqb_refl.
Qed.

(** ** The Retain branch (C9) *)

(** C9.  For a record in the Retain branch (its recomputed score is below
    neither threshold): when the score moved by more than 0.01, the loop
    body writes the new score into the record, so that its
    ["importance_score"] is the new score and everything else in it is as
    before, and issues one [update] on the backend that carries the new
    score; otherwise it leaves the backend, the records and the statistics
    as they are, without any call.  Over a whole cycle on a store with
    distinct ids the same holds of the record: it stays stored; when the
    score moved, its ["importance_score"] is the new score and one
    [update] was made with its id; otherwise the record is as it was and
    no call was made with its id. *)
Theorem retain_writes_iff_moved config age_days_of summarizer_fn b a :
  calculate_decay config age_days_of (objects b a)
    >= forget_threshold config ->
  calculate_decay config age_days_of (objects b a)
    >= consolidation_threshold config ->
  let new_score := calculate_decay config age_days_of (objects b a) in
  let old_score := get_importance_score (get_metadata (objects b a)) in
  let memory_id := mem_id (objects b a) in
  (forall st,
     let r := process_memory config age_days_of summarizer_fn (b, st) a in
     (Rabs (new_score - old_score) > 1 / 100 ->
      exists md,
        metadata (objects b a) = Some md /\
        importance_score (get_metadata (objects (fst r) a))
        = Some new_score /\
        objects (fst r) a
        = mkMemory (mem_id (objects b a)) (content_summary (objects b a))
                   (raw (objects b a)) (embedding (objects b a))
                   (Some (mkMetadata (Some new_score) (access_count md)
                                     (timestamp md) (consolidated md))) /\
        calls (fst r)
        = CallUpdate memory_id
            (mkMetadata (Some new_score) (access_count md) (timestamp md)
                        (consolidated md))
            :: calls b /\
        _store (fst r) = _store b /\
        snd r = add_updated st)
     /\
     (~ Rabs (new_score - old_score) > 1 / 100 -> r = (b, st)))
  /\
  (In a (_store b) ->
   NoDup (stored_ids (objects b) (_store b)) ->
   let b' := fst (run_decay_cycle config age_days_of summarizer_fn b) in
   In a (_store b') /\
   (Rabs (new_score - old_score) > 1 / 100 ->
    exists md,
      metadata (objects b a) = Some md /\
      importance_score (get_metadata (objects b' a)) = Some new_score /\
      objects b' a
      = mkMemory (mem_id (objects b a)) (content_summary (objects b a))
                 (raw (objects b a)) (embedding (objects b a))
                 (Some (mkMetadata (Some new_score) (access_count md)
                                   (timestamp md) (consolidated md))) /\
      calls_with memory_id (calls b')
      = CallUpdate memory_id
          (mkMetadata (Some new_score) (access_count md) (timestamp md)
                      (consolidated md))
          :: calls_with memory_id (calls b))
   /\
   (~ Rabs (new_score - old_score) > 1 / 100 ->
    objects b' a = objects b a /\
    calls_with memory_id (calls b') = calls_with memory_id (calls b))).
Proof.
  intros Hf Hc new_score old_score memory_id. split.
  - intros st r.
    destruct (process_memory_retain config age_days_of summarizer_fn
                b st a Hf Hc) as [Hmoved Hsame].
    split; [| exact Hsame].
    intros Hd. destruct (Hmoved Hd) as (md & Hmd & Ho & Hcs & Hst & Hsnd).
    exists md. fold r in Ho, Hcs, Hst, Hsnd.
    split; [exact Hmd|]. split; [now rewrite Ho|].
    split; [exact Ho|]. split; [exact Hcs|]. split; assumption.
  - intros Ha Hnd b'.
    set (st := initial_stats (List.length (_store b))).
    destruct (process_memory_retain config age_days_of summarizer_fn
                b st a Hf Hc) as [Hmoved Hsame].
    assert (Hobj : objects b' a
                   = objects (fst (process_memory config age_days_of
                                     summarizer_fn (b, st) a)) a)
      by (apply run_decay_cycle_local; assumption).
    assert (Hcalls : calls_with memory_id (calls b')
                     = calls_with memory_id
                         (calls (fst (process_memory config age_days_of
                                        summarizer_fn (b, st) a))))
      by (apply run_decay_cycle_calls; assumption).
    split; [now apply run_decay_cycle_keeps|]. split.
    + intros Hd. destruct (Hmoved Hd) as (md & Hmd & Ho & Hcs & _).
      exists md. split; [exact Hmd|].
      split; [now rewrite Hobj, Ho|]. split.
      * now rewrite Hobj.
      * rewrite Hcalls, Hcs. apply calls_with_update.
    + intros Hd. rewrite Hobj, Hcalls, (Hsame Hd). now split.
Qed.

(** The example record of score 0.9, two days old, under the default
    configuration: its recomputed score is [0.9 * exp (-0.1)], between
    0.81 and 0.82. *)
Lemma example_two_days_old memory_id :
  calculate_decay default_config (clock 2)
                  (example_record memory_id (9 / 10) 1 today)
  = 9 / 10 * exp (- (1 / 10))
  /\ 81 / 100 <= 9 / 10 * exp (- (1 / 10)) <= 82 / 100.
Proof.
  assert (Hlow : 9 / 10 <= exp (- (1 / 10))).
  { pose proof (exp_ineq1_le (- (1 / 10))). lra. }
  assert (Hhigh : exp (- (1 / 10)) <= 10 / 11).
  { pose proof (exp_ineq1_le (1 / 10)) as Hup.
    pose proof (exp_pos (- (1 / 10))) as Hpos.
    assert (Hprod : exp (- (1 / 10)) * exp (1 / 10) = 1).
    { rewrite <- exp_plus. replace (- (1 / 10) + 1 / 10) with 0 by lra.
      apply exp_0. }
    nra. }
  split; [| lra].
  rewrite (calculate_decay_decays default_config (clock 2) _ 2%Z)
    by (apply example_decays; [simpl; lia | reflexivity]).
  unfold_example. cbn [Z.max Z.compare Pos.compare Pos.compare_cont].
  replace (- (5 / 100) * 2 / (ln 1 + 1)) with (- (1 / 10))
    by (rewrite ln_1; field).
  apply clamp01_id. lra.
Qed.

Lemma retain_writes_iff_moved_witness :
  let m := example_record "m0" (9 / 10) 1 today in
  let b' :=
    fst (run_decay_cycle default_config (clock 0) failing_summarizer
                         (single m)) in
  let r :=
    process_memory default_config (clock 2) failing_summarizer
                   (single m, initial_stats 1) 0%nat in
  (process_memory default_config (clock 0) failing_summarizer
                  (single m, initial_stats 1) 0%nat
   = (single m, initial_stats 1)
   /\ In 0%nat (_store b')
   /\ objects b' 0%nat = m
   /\ calls_with "m0" (calls b') = [])
  /\
  (Rabs (calculate_decay default_config (clock 2) m - 9 / 10) > 1 / 100
   /\ importance_score (get_metadata (objects (fst r) 0%nat))
      = Some (calculate_decay default_config (clock 2) m)
   /\ calls (fst r)
      = [CallUpdate "m0"
           (mkMetadata (Some (calculate_decay default_config (clock 2) m))
                       (Some 1%Z) today None)]
   /\ snd r = add_updated (initial_stats 1)).
Proof.
  cbv zeta. split.
  - assert (Hnew : calculate_decay default_config (clock 0)
                     (example_record "m0" (9 / 10) 1 today) = 9 / 10).
    { rewrite calculate_decay_keeps by (apply example_young; simpl; lia).
      reflexivity. }
    destruct (retain_writes_iff_moved default_config (clock 0)
                failing_summarizer
                (single (example_record "m0" (9 / 10) 1 today)) 0%nat)
      as [Hbody Hcycle].
    + cbn [single objects]. rewrite Hnew. unfold_example. lra.
    + cbn [single objects]. rewrite Hnew. unfold_example. lra.
    + assert (Hsmall :
        ~ Rabs (calculate_decay default_config (clock 0)
                  (objects (single (example_record "m0" (9 / 10) 1 today))
                           0%nat)
                - get_importance_score
                    (get_metadata
                       (objects
                          (single (example_record "m0" (9 / 10) 1 today))
                          0%nat))) > 1 / 100).
      { cbn [single objects]. rewrite Hnew. unfold_example.
        rewrite Rminus_diag, Rabs_R0. lra. }
      split.
      * apply (Hbody (initial_stats 1)). exact Hsmall.
      * destruct Hcycle as (Hin & _ & Hsame).
        -- now left.
        -- simpl. constructor; [simpl; tauto | constructor].
        -- destruct (Hsame Hsmall) as [Ho Hc]. repeat split; assumption.
  - destruct (example_two_days_old "m0") as [Hval Hbounds].
    assert (Hmoved :
      Rabs (calculate_decay default_config (clock 2)
              (example_record "m0" (9 / 10) 1 today) - 9 / 10) > 1 / 100).
    { rewrite Hval. rewrite Rabs_left by lra. lra. }
    split; [exact Hmoved|].
    destruct (retain_writes_iff_moved default_config (clock 2)
                failing_summarizer
                (single (example_record "m0" (9 / 10) 1 today)) 0%nat)
      as [Hbody _].
    + cbn [single objects]. rewrite Hval. unfold_example. lra.
    + cbn [single objects]. rewrite Hval. unfold_example. lra.
    + destruct (Hbody (initial_stats 1)) as [Hwrite _].
      destruct Hwrite as (md & Hmd & Hscore & _ & Hcalls & _ & Hstats).
      * exact Hmoved.
      * cbn [single objects example_record metadata] in Hmd.
        injection Hmd as <-.
        split; [exact Hscore|]. split; [exact Hcalls | exact Hstats].
Defined.

(** ** Failed consolidation (C3) *)

(** C3, amended.  For a record with a metadata dict, in the consolidate
    band and not yet consolidated.  When the summarizer raises, the loop
    body leaves [raw], [content_summary] and the [consolidated] key as they
    are, stores the new score in the record and issues the [update]; over
    a whole cycle on a store with distinct ids the record stays stored,
    with these texts, this flag and the new score.  When the summarizer
    returns a text, empty or not, both text fields become that text and
    [consolidated] becomes true, and the new score is stored as well. *)
Theorem failed_consolidation_keeps_text
    config age_days_of summarizer_fn b a md :
  metadata (objects b a) = Some md ->
  get_consolidated md = false ->
  calculate_decay config age_days_of (objects b a)
    >= forget_threshold config ->
  calculate_decay config age_days_of (objects b a)
    < consolidation_threshold config ->
  let new_score := calculate_decay config age_days_of (objects b a) in
  let memory_id := mem_id (objects b a) in
  (summarizer_raises summarizer_fn (objects b a) ->
   (forall st,
      let r := process_memory config age_days_of summarizer_fn (b, st) a in
      raw (objects (fst r) a) = raw (objects b a) /\
      content_summary (objects (fst r) a) = content_summary (objects b a) /\
      consolidated (get_metadata (objects (fst r) a)) = consolidated md /\
      importance_score (get_metadata (objects (fst r) a)) = Some new_score /\
      calls (fst r)
      = CallUpdate memory_id (set_importance_score md new_score) :: calls b /\
      updated (snd r) = S (updated st) /\
      errors (snd r) = errors st)
   /\
   (In a (_store b) ->
    NoDup (stored_ids (objects b) (_store b)) ->
    let b' := fst (run_decay_cycle config age_days_of summarizer_fn b) in
    In a (_store b') /\
    raw (objects b' a) = raw (objects b a) /\
    content_summary (objects b' a) = content_summary (objects b a) /\
    consolidated (get_metadata (objects b' a)) = consolidated md /\
    importance_score (get_metadata (objects b' a)) = Some new_score /\
    calls_with memory_id (calls b')
    = CallUpdate memory_id (set_importance_score md new_score)
        :: calls_with memory_id (calls b)))
  /\
  (forall gist,
     summarizer_returns summarizer_fn (objects b a) gist ->
     (forall st,
        let r := process_memory config age_days_of summarizer_fn (b, st) a in
        raw (objects (fst r) a) = Some gist /\
        content_summary (objects (fst r) a) = Some gist /\
        consolidated (get_metadata (objects (fst r) a)) = Some true /\
        importance_score (get_metadata (objects (fst r) a)) = Some new_score)
     /\
     (In a (_store b) ->
      NoDup (stored_ids (objects b) (_store b)) ->
      let b' := fst (run_decay_cycle config age_days_of summarizer_fn b) in
      raw (objects b' a) = Some gist /\
      content_summary (objects b' a) = Some gist /\
      consolidated (get_metadata (objects b' a)) = Some true /\
      importance_score (get_metadata (objects b' a)) = Some new_score)).
Proof.
  intros Hmd Hnc Hf Hc new_score memory_id. split.
  - intros Hraise.
    assert (Hstep : forall st,
      objects (fst (process_memory config age_days_of summarizer_fn
                      (b, st) a)) a
      = set_metadata (objects b a) (Some (set_importance_score md new_score))
      /\ calls (fst (process_memory config age_days_of summarizer_fn
                       (b, st) a))
         = CallUpdate memory_id (set_importance_score md new_score) :: calls b
      /\ snd (process_memory config age_days_of summarizer_fn (b, st) a)
         = add_updated (add_consolidated st)).
    { intros st.
      apply (process_memory_summarizer_raises config age_days_of
               summarizer_fn b st a md Hmd Hnc Hf Hc Hraise). }
    split.
    + intros st r. destruct (Hstep st) as (Ho & Hcalls & Hst).
      unfold r. rewrite Ho, Hcalls, Hst. simpl. repeat split; reflexivity.
    + intros Ha Hnd b'.
      set (st := initial_stats (List.length (_store b))).
      destruct (Hstep st) as (Ho & Hcalls & _).
      assert (Hobj : objects b' a
                     = set_metadata (objects b a)
                         (Some (set_importance_score md new_score))).
      { unfold b'. rewrite (run_decay_cycle_local _ _ _ b st a Hnd Ha).
        exact Ho. }
      split; [now apply run_decay_cycle_keeps|].
      rewrite Hobj. simpl. repeat split; try reflexivity.
      unfold b'. rewrite (run_decay_cycle_calls _ _ _ b st a Hnd Ha).
      fold memory_id. rewrite Hcalls. apply calls_with_update.
  - intros gist Hret.
    assert (Hstep : forall st,
      objects (fst (process_memory config age_days_of summarizer_fn
                      (b, st) a)) a
      = set_metadata (set_texts (objects b a) gist)
          (Some (set_importance_score (set_consolidated md true) new_score))).
    { intros st.
      apply (process_memory_summarizer_returns config age_days_of
               summarizer_fn b st a md gist Hmd Hnc Hf Hc Hret). }
    split.
    + intros st r. unfold r. rewrite (Hstep st). simpl.
      repeat split; reflexivity.
    + intros Ha Hnd b'.
      set (st := initial_stats (List.length (_store b))).
      unfold b'. rewrite (run_decay_cycle_local _ _ _ b st a Hnd Ha).
      rewrite (Hstep st). simpl. repeat split; reflexivity.
Qed.

Lemma failed_consolidation_keeps_text_witness :
  let m := example_record "m0" (3 / 10) 1 today in
  let b' :=
    fst (run_decay_cycle default_config (clock 0) failing_summarizer
                         (single m)) in
  In 0%nat (_store b') /\
  raw (objects b' 0%nat) = raw m /\
  content_summary (objects b' 0%nat) = content_summary m /\
  consolidated (get_metadata (objects b' 0%nat)) = None /\
  importance_score (get_metadata (objects b' 0%nat))
  = Some (calculate_decay default_config (clock 0) m) /\
  calls_with "m0" (calls b')
  = [CallUpdate "m0"
       (set_importance_score
          (mkMetadata (Some (3 / 10)) (Some 1%Z) today None)
          (calculate_decay default_config (clock 0) m))].
Proof.
  cbv zeta.
  assert (Hnew : calculate_decay default_config (clock 0)
                   (example_record "m0" (3 / 10) 1 today) = 3 / 10).
  { rewrite calculate_decay_keeps by (apply example_young; simpl; lia).
    reflexivity. }
  destruct (failed_consolidation_keeps_text default_config (clock 0)
              failing_summarizer
              (single (example_record "m0" (3 / 10) 1 today)) 0%nat
              (mkMetadata (Some (3 / 10)) (Some 1%Z) today None))
    as [Hraises _].
  - reflexivity.
  - reflexivity.
  - cbn [single objects]. rewrite Hnew. unfold_example. lra.
  - cbn [single objects]. rewrite Hnew. unfold_example. lra.
  - destruct Hraises as [_ Hcycle].
    + eexists. repeat split; reflexivity.
    + apply Hcycle.
      * now left.
      * simpl. constructor; [simpl; tauto | constructor].
Defined.

(** C3, as stated, fails for a summarizer that returns the empty string:
    the record of score 0.3 lands in the consolidate band, and after the
    cycle both its text fields are the empty string and it is marked
    consolidated. *)
Lemma empty_summary_overwrites_text :
  let m := example_record "m0" (3 / 10) 1 today in
  let b' :=
    fst (run_decay_cycle default_config (clock 0) empty_summarizer
                         (single m)) in
  summarizer_returns empty_summarizer m EmptyString /\
  raw m = Some "A knight fought a dragon in the mountains."%string /\
  raw (objects b' 0%nat) = Some EmptyString /\
  content_summary (objects b' 0%nat) = Some EmptyString /\
  consolidated (get_metadata (objects b' 0%nat)) = Some true.
Proof.
  cbv zeta.
  assert (Hret : summarizer_returns empty_summarizer
                   (example_record "m0" (3 / 10) 1 today) EmptyString).
  { eexists. repeat split; reflexivity. }
  split; [exact Hret|]. split; [reflexivity|].
  unfold single. rewrite run_decay_cycle_single.
  rewrite (process_memory_summarizer_returns default_config (clock 0)
             empty_summarizer _ _ 0%nat
             (mkMetadata (Some (3 / 10)) (Some 1%Z) today None) EmptyString).
  - simpl. repeat split; reflexivity.
  - reflexivity.
  - reflexivity.
  - cbn [objects]. rewrite calculate_decay_keeps
      by (apply example_young; simpl; lia).
    unfold_example. lra.
  - cbn [objects]. rewrite calculate_decay_keeps
      by (apply example_young; simpl; lia).
    unfold_example. lra.
  - exact Hret.
Qed.

(** ** The sort of the results *)

Lemma insert_desc_perm x l : Permutation (insert_desc x l) (x :: l).
Proof.
  induction l as [| y t IH]; simpl; [reflexivity|].
  destruct (Rlt_dec (score x) (score y)); [| reflexivity].
  rewrite IH. apply perm_swap.
Qed.

Lemma sort_desc_perm l : Permutation (sort_desc l) l.
Proof.
  induction l as [| x t IH]; simpl; [reflexivity|].
  rewrite insert_desc_perm. now apply perm_skip.
Qed.

Lemma sort_desc_length l : List.length (sort_desc l) = List.length l.
Proof. apply Permutation_length, sort_desc_perm. Qed.

Lemma sort_desc_in l x : In x (sort_desc l) <-> In x l.
Proof.
  split; apply Permutation_in;
    [apply sort_desc_perm | symmetry; apply sort_desc_perm].
Qed.

Lemma insert_desc_sorted x l : sorted_desc l -> sorted_desc (insert_desc x l).
Proof.
  unfold sorted_desc. induction l as [| y t IH]; simpl; intros Hs.
  - constructor; constructor.
  - inversion Hs as [| ? ? Ht Hall]; subst.
    destruct (Rlt_dec (score x) (score y)) as [Hlt | Hge].
    + constructor; [now apply IH|].
      apply Forall_forall. intros z Hz.
      apply (Permutation_in _ (insert_desc_perm x t)) in Hz.
      destruct Hz as [<- | Hz]; [lra|].
      rewrite Forall_forall in Hall. now apply Hall.
    + constructor; [exact Hs|].
      constructor; [lra|].
      rewrite Forall_forall in *. intros z Hz.
      specialize (Hall z Hz). lra.
Qed.

Lemma sort_desc_sorted l : sorted_desc (sort_desc l).
Proof.
  induction l as [| x t IH]; simpl.
  - constructor.
  - now apply insert_desc_sorted.
Qed.

Lemma has_score_true v x : has_score v x = true <-> score x = v.
Proof.
  unfold has_score. destruct (Req_dec_T (score x) v); split;
    congruence.
Qed.

(** The sort is stable: the results of any one score are in the order
    they had. *)
Lemma insert_desc_stable v x l :
  filter (has_score v) (insert_desc x l) = filter (has_score v) (x :: l).
Proof.
  induction l as [| y t IH]; [reflexivity|].
  cbn [insert_desc].
  destruct (Rlt_dec (score x) (score y)) as [Hlt | Hge]; [| reflexivity].
  cbn [filter] in *. rewrite IH.
  destruct (has_score v x) eqn:Hx; destruct (has_score v y) eqn:Hy;
    try reflexivity.
  apply has_score_true in Hx. apply has_score_true in Hy. lra.
Qed.

Lemma sort_desc_stable v l :
  filter (has_score v) (sort_desc l) = filter (has_score v) l.
Proof.
  induction l as [| x t IH]; [reflexivity|].
  cbn [sort_desc fold_right]. fold (sort_desc t).
  rewrite insert_desc_stable. cbn [filter]. now rewrite IH.
Qed.

Lemma firstn_In {A} n (l : list A) x : In x (firstn n l) -> In x l.
Proof.
  revert l. induction n as [| n IH]; intros [| y t]; simpl; try tauto.
  intros [-> | Hin]; [now left | right; now apply IH].
Qed.

Lemma sorted_desc_firstn n l : sorted_desc l -> sorted_desc (firstn n l).
Proof.
  unfold sorted_desc. revert l.
  induction n as [| n IH]; intros [| x t] Hs; simpl; try constructor.
  - inversion Hs; subst. now apply IH.
  - inversion Hs as [| ? ? _ Hall]; subst.
    rewrite Forall_forall in *. intros z Hz.
    apply Hall. eapply firstn_In. exact Hz.
Qed.

Lemma filter_firstn_prefix {A} (f : A -> bool) n l :
  exists later, filter f l = filter f (firstn n l) ++ later.
Proof.
  exists (filter f (skipn n l)).
  rewrite <- filter_app, firstn_skipn. reflexivity.
Qed.


(** Whatever [top_k], the results returned are sorted, ties are in the
    order of the candidates, and only candidates are returned. *)
Lemma py_take_sort_desc_any results top_k :
  let out := py_take (sort_desc results) top_k in
  sorted_desc out /\
  keeps_tie_order results out /\
  (forall x, In x out -> In x results).
Proof.
  intros out. unfold out, py_take.
  destruct (0 <=? top_k)%Z; repeat split;
    try (apply sorted_desc_firstn, sort_desc_sorted);
    try (intros v; rewrite <- (sort_desc_stable v results);
         apply filter_firstn_prefix);
    intros x Hx; apply sort_desc_in; eapply firstn_In; exact Hx.
Qed.

(** ** Retrieval: the scored candidates *)

Lemma bump_access_count_spec h a h1 :
  bump_access_count h a = Some h1 ->
  (forall x, access_count_at h1 x
             = (access_count_at h x + if Nat.eq_dec a x then 1 else 0)%Z) /\
  (forall x, mem_id (h1 x) = mem_id (h x)) /\
  (forall x, embedding (h1 x) = embedding (h x)).
Proof.
  unfold bump_access_count.
  destruct (metadata (h a)) as [md|] eqn:Hmd; [| discriminate].
  intros [= <-]. repeat split; intros x;
    destruct (heap_set_cases h a
                (set_metadata (h a)
                   (Some (set_access_count md (get_access_count md + 1)))) x)
      as [[-> Hs] | [Hne Hs]];
    unfold access_count_at; rewrite Hs; simpl; try reflexivity.
  - unfold get_metadata. rewrite Hmd.
    destruct (Nat.eq_dec a a); [reflexivity | contradiction].
  - destruct (Nat.eq_dec a x); [congruence | lia].
Qed.

Lemma scanned_memories_ext h h' l :
  (forall x, embedding (h' x) = embedding (h x)) ->
  scanned_memories h' l = scanned_memories h l.
Proof.
  intros Heq. unfold scanned_memories. apply filter_ext. intros x.
  unfold has_embedding. now rewrite Heq.
Qed.

Lemma resolve_candidates_ext h h' store candidates :
  (forall x, mem_id (h' x) = mem_id (h x)) ->
  resolve_candidates h' store candidates
  = resolve_candidates h store candidates.
Proof.
  intros Heq. unfold resolve_candidates.
  apply flat_map_ext. intros c. now rewrite (find_has_id_ext h h').
Qed.

Lemma count_occ_cons_Z (a x : nat) l :
  Z.of_nat (count_occ Nat.eq_dec (a :: l) x)
  = ((if Nat.eq_dec a x then 1 else 0)
     + Z.of_nat (count_occ Nat.eq_dec l x))%Z.
Proof. simpl. destruct (Nat.eq_dec a x); lia. Qed.

(** The linear scan scores the stored dicts that have an embedding, in
    the order of the store, and adds one to the access count of a dict
    each time it scores it. *)
Lemma scan_memories_spec query_emb query_tokens hybrid_weight memories :
  forall h h' results,
    scan_memories query_emb query_tokens hybrid_weight h memories
    = (h', Some results) ->
    map res_source results = scanned_memories h memories /\
    (forall x, access_count_at h' x
               = (access_count_at h x
                  + Z.of_nat (count_occ Nat.eq_dec
                                        (scanned_memories h memories) x))%Z)
    /\ (forall x, mem_id (h' x) = mem_id (h x))
    /\ (forall x, embedding (h' x) = embedding (h x)).
Proof.
  induction memories as [| a rest IH]; intros h h' results Hscan.
  - simpl in Hscan. injection Hscan as <- <-. simpl.
    repeat split; try reflexivity. intros x. lia.
  - cbn [scan_memories] in Hscan. unfold scanned_memories. cbn [filter].
    fold (scanned_memories h rest).
    destruct (has_embedding (h a)) eqn:Hemb; cbn [negb] in Hscan.
    + destruct (np_dot query_emb _) as [dot|]; [| discriminate].
      destruct (bump_access_count h a) as [h1|] eqn:Hbump; [| discriminate].
      destruct (scan_memories query_emb query_tokens hybrid_weight h1 rest)
        as [h2 [results'|]] eqn:Hrest; simpl in Hscan; [| discriminate].
      injection Hscan as <- <-.
      destruct (bump_access_count_spec _ _ _ Hbump) as (Hacc & Hid & Hem).
      destruct (IH _ _ _ Hrest) as (Hsrc & Hacc' & Hid' & Hem').
      rewrite (scanned_memories_ext h h1) in Hsrc, Hacc' by exact Hem.
      repeat split.
      * simpl. now rewrite Hsrc.
      * intros x. rewrite Hacc', Hacc, count_occ_cons_Z. lia.
      * intros x. now rewrite Hid', Hid.
      * intros x. now rewrite Hem', Hem.
    + now apply IH.
Qed.

(** The indexed path scores the stored dicts its candidates resolve to,
    in the order of the candidates, and adds one to the access count of a
    dict each time it scores it. *)
Lemma score_candidates_spec store query_tokens hybrid_weight candidates :
  forall h h' results,
    score_candidates store query_tokens hybrid_weight h candidates
    = (h', Some results) ->
    map res_source results = resolve_candidates h store candidates /\
    (forall x, access_count_at h' x
               = (access_count_at h x
                  + Z.of_nat (count_occ Nat.eq_dec
                                (resolve_candidates h store candidates) x))%Z)
    /\ (forall x, mem_id (h' x) = mem_id (h x))
    /\ (forall x, In x results ->
                  exists memory_id,
                    In (memory_id, debug_semantic x) candidates).
Proof.
  induction candidates as [| [memory_id sem_score] rest IH];
    intros h h' results Hsc.
  - simpl in Hsc. injection Hsc as <- <-. simpl.
    repeat split; try reflexivity; try tauto. intros x. lia.
  - cbn [score_candidates] in Hsc. unfold resolve_candidates.
    cbn [flat_map fst]. fold (resolve_candidates h store rest).
    destruct (find (has_id h memory_id) store) as [a|] eqn:Hfind.
    + destruct (bump_access_count h a) as [h1|] eqn:Hbump; [| discriminate].
      destruct (score_candidates store query_tokens hybrid_weight h1 rest)
        as [h2 [results'|]] eqn:Hrest; simpl in Hsc; [| discriminate].
      injection Hsc as <- <-.
      destruct (bump_access_count_spec _ _ _ Hbump) as (Hacc & Hid & _).
      destruct (IH _ _ _ Hrest) as (Hsrc & Hacc' & Hid' & Hsem).
      rewrite (resolve_candidates_ext h h1) in Hsrc, Hacc' by exact Hid.
      repeat split.
      * simpl. now rewrite Hsrc.
      * intros x. rewrite Hacc', Hacc.
        change ([a] ++ resolve_candidates h store rest)
          with (a :: resolve_candidates h store rest).
        rewrite count_occ_cons_Z. lia.
      * intros x. now rewrite Hid', Hid.
      * intros x [<- | Hx].
        -- exists memory_id. now left.
        -- destruct (Hsem x Hx) as [i Hi]. exists i. now right.
    + destruct (IH _ _ _ Hsc) as (Hsrc & Hacc' & Hid' & Hsem).
      repeat split; try assumption.
      intros x Hx. destruct (Hsem x Hx) as [i Hi]. exists i. now right.
Qed.

(** The candidates of [FAISSRetriever.retrieve] pass the confidence
    floor. *)
Lemma retrieve_hits_floor {FaissIndex} (r : FAISSRetriever FaissIndex) hits :
  forall found,
    retrieve_hits r hits = Some found ->
    forall memory_id s, In (memory_id, s) found -> s >= min_confidence r.
Proof.
  induction hits as [| [idx hit_score] rest IH]; intros found Hr; simpl in Hr.
  - injection Hr as <-. intros ? ? [].
  - destruct (idx <? _)%Z; [| now apply IH].
    destruct (Rge_dec hit_score (min_confidence r)) as [Hge | _];
      [| now apply IH].
    destruct (py_index (memory_ids r) idx) as [i|]; [| discriminate].
    destruct (retrieve_hits r rest) as [found'|]; [| discriminate].
    injection Hr as <-. intros memory_id s [[= <- <-] | Hin]; [exact Hge|].
    eapply IH; eauto.
Qed.

Lemma retrieve_floor {FaissIndex} index_search FAISS_AVAILABLE
    (r : FAISSRetriever FaissIndex) query_embedding top_k found :
  retrieve index_search FAISS_AVAILABLE r query_embedding top_k = Some found ->
  forall memory_id s, In (memory_id, s) found -> s >= min_confidence r.
Proof.
  unfold retrieve. destruct (negb FAISS_AVAILABLE).
  - intros [= <-] ? ? [].
  - destruct (faiss_index r) as [idx|].
    + apply retrieve_hits_floor.
    + intros [= <-] ? ? [].
Qed.

Lemma py_take_nil {A} k : py_take (@nil A) k = [].
Proof.
  unfold py_take. destruct (0 <=? k)%Z; apply firstn_nil.
Qed.

(** The list returned is the list of the scored candidates, sorted and
    cut. *)
Lemma retrieve_memories_from_ltm_rank {FaissIndex} index_search
    generate_embedding FAISS_AVAILABLE (r : FAISSRetriever FaissIndex)
    h store query top_k use_faiss hybrid_weight :
  retrieve_memories_from_ltm index_search generate_embedding FAISS_AVAILABLE
                             r h store query top_k use_faiss hybrid_weight
  = rank top_k
      (scored_results index_search generate_embedding FAISS_AVAILABLE
                      r h store query top_k use_faiss hybrid_weight).
Proof.
  unfold retrieve_memories_from_ltm, scored_results, _fallback_retrieve.
  destruct store as [| a rest].
  { unfold rank. simpl. now rewrite py_take_nil. }
  destruct (generate_embedding query) as [q|]; [| reflexivity].
  destruct (indexed_path FAISS_AVAILABLE r use_faiss); [| reflexivity].
  destruct (retrieve _ _ _ _ _); reflexivity.
Qed.

Lemma rank_some top_k scored out :
  snd (rank top_k scored) = Some out ->
  exists results,
    snd scored = Some results /\ out = py_take (sort_desc results) top_k.
Proof.
  unfold rank. simpl. destruct (snd scored) as [results|]; simpl;
    [| discriminate].
  intros [= <-]. now exists results.
Qed.

(** ** At most [top_k] results, sorted, ties in candidate order (C6) *)


(** ** The retrieval loops return *)

Lemma np_dot_some u : forall v,
  List.length u = List.length v -> exists d, np_dot u v = Some d.
Proof.
  induction u as [| x u IH]; intros [| y v] Hlen; simpl in *;
    try discriminate.
  - now exists 0.
  - injection Hlen as Hlen. destruct (IH v Hlen) as [d ->].
    now exists (x * y + d).
Qed.

Lemma bump_access_count_metadata h a h1 x :
  bump_access_count h a = Some h1 ->
  metadata (h x) <> None -> metadata (h1 x) <> None.
Proof.
  unfold bump_access_count.
  destruct (metadata (h a)) as [md|] eqn:Hmd; [| discriminate].
  intros [= <-] Hx.
  destruct (heap_set_cases h a
              (set_metadata (h a)
                 (Some (set_access_count md (get_access_count md + 1)))) x)
    as [[-> Hs] | [Hne Hs]]; rewrite Hs; simpl; congruence.
Qed.

(** The linear scan returns when every stored dict with an embedding has
    a metadata dict and an embedding of the dimension of the query. *)
Lemma scan_memories_returns query_emb query_tokens hybrid_weight memories :
  forall h,
    (forall a, In a memories -> has_embedding (h a) = true ->
               metadata (h a) <> None /\
               forall e, embedding (h a) = Some e ->
                         List.length query_emb = List.length e) ->
    exists h' results,
      scan_memories query_emb query_tokens hybrid_weight h memories
      = (h', Some results).
Proof.
  induction memories as [| a rest IH]; intros h Hok.
  - exists h, []. reflexivity.
  - cbn [scan_memories].
    destruct (has_embedding (h a)) eqn:Hemb; cbn [negb].
    + destruct (Hok a (or_introl eq_refl) Hemb) as [Hmd Hdim].
      unfold has_embedding in Hemb.
      destruct (embedding (h a)) as [e|] eqn:He; [| discriminate].
      destruct (np_dot_some query_emb e (Hdim e eq_refl)) as [d ->].
      unfold bump_access_count at 1.
      destruct (metadata (h a)) as [md|] eqn:Hmda; [| congruence].
      set (h1 := heap_set h a _).
      assert (Hbump : bump_access_count h a = Some h1)
        by (unfold bump_access_count; now rewrite Hmda).
      destruct (bump_access_count_spec _ _ _ Hbump) as (_ & _ & Hem).
      destruct (IH h1) as (h' & results & ->).
      * intros x Hx Hembx. unfold has_embedding in Hembx.
        rewrite Hem in Hembx.
        destruct (Hok x (or_intror Hx) Hembx) as [Hmdx Hdimx]. split.
        -- eapply bump_access_count_metadata; eauto.
        -- intros e' He'. apply Hdimx. now rewrite <- Hem.
      * simpl. eauto.
    + apply IH. intros x Hx. apply Hok. now right.
Qed.

(** The indexed loop returns when every stored dict has a metadata
    dict. *)
Lemma score_candidates_returns store query_tokens hybrid_weight candidates :
  forall h,
    (forall a, In a store -> metadata (h a) <> None) ->
    exists h' results,
      score_candidates store query_tokens hybrid_weight h candidates
      = (h', Some results).
Proof.
  induction candidates as [| [memory_id sem_score] rest IH]; intros h Hok.
  - exists h, []. reflexivity.
  - cbn [score_candidates].
    destruct (find (has_id h memory_id) store) as [a|] eqn:Hfind.
    + apply find_some in Hfind. destruct Hfind as [Hin _].
      unfold bump_access_count at 1.
      destruct (metadata (h a)) as [md|] eqn:Hmda;
        [| exfalso; now apply (Hok a Hin)].
      set (h1 := heap_set h a _).
      assert (Hbump : bump_access_count h a = Some h1)
        by (unfold bump_access_count; now rewrite Hmda).
      destruct (IH h1) as (h' & results & ->).
      * intros x Hx. eapply bump_access_count_metadata; eauto.
      * simpl. eauto.
    + now apply IH.
Qed.

Lemma py_index_some {A} (l : list A) (i : Z) :
  (- Z.of_nat (List.length l) <= i < Z.of_nat (List.length l))%Z ->
  exists x, py_index l i = Some x.
Proof.
  intros [Hlo Hhi]. unfold py_index.
  destruct (Z.leb_spec 0 i) as [Hi | Hi].
  - destruct (nth_error l (Z.to_nat i)) as [x|] eqn:Hn; [eauto|].
    apply nth_error_None in Hn. lia.
  - destruct (Z.leb_spec 0 (Z.of_nat (List.length l) + i)) as [Hj | Hj];
      [| lia].
    destruct (nth_error l (Z.to_nat (Z.of_nat (List.length l) + i)))
      as [x|] eqn:Hn; [eauto|].
    apply nth_error_None in Hn. lia.
Qed.

(** [FAISSRetriever.retrieve] returns when no position found by the index
    lies before the start of [memory_ids]. *)
Lemma retrieve_hits_returns {FaissIndex} (r : FAISSRetriever FaissIndex) hits :
  Forall (fun hit => (- Z.of_nat (List.length (memory_ids r)) <= fst hit)%Z)
         hits ->
  exists found, retrieve_hits r hits = Some found.
Proof.
  induction hits as [| [idx hit_score] rest IH]; intros Hall; simpl.
  - eauto.
  - inversion Hall as [| ? ? Hlo Hrest]; subst. simpl in Hlo.
    destruct (IH Hrest) as [found Hf].
    destruct (Z.ltb_spec idx (Z.of_nat (List.length (memory_ids r))))
      as [Hhi | _]; [| eauto].
    destruct (Rge_dec hit_score (min_confidence r)); [| eauto].
    destruct (py_index_some (memory_ids r) idx) as [x ->]; [lia|].
    rewrite Hf. eauto.
Qed.

(** A retrieval returns when the embedding model accepts the query, every
    stored dict has a metadata dict, the index finds no position before
    the start of [memory_ids] and, on the linear scan, the embeddings have
    the dimension of the query. *)
Lemma retrieve_memories_from_ltm_returns {FaissIndex} index_search
    generate_embedding FAISS_AVAILABLE (r : FAISSRetriever FaissIndex)
    h store query top_k use_faiss hybrid_weight query_embedding :
  generate_embedding query = Some query_embedding ->
  (forall a, In a store -> metadata (h a) <> None) ->
  (forall idx k,
     Forall
       (fun hit => (- Z.of_nat (List.length (memory_ids r)) <= fst hit)%Z)
       (index_search idx query_embedding k)) ->
  (indexed_path FAISS_AVAILABLE r use_faiss = false ->
   forall a e, In a store -> embedding (h a) = Some e ->
               List.length query_embedding = List.length e) ->
  exists h' out,
    retrieve_memories_from_ltm index_search generate_embedding
      FAISS_AVAILABLE r h store query top_k use_faiss hybrid_weight
    = (h', Some out).
Proof.
  intros Hq Hmd Hidx Hdim. rewrite retrieve_memories_from_ltm_rank.
  unfold scored_results.
  destruct store as [| a0 rest].
  { exists h. eexists. reflexivity. }
  rewrite Hq.
  destruct (indexed_path FAISS_AVAILABLE r use_faiss) eqn:Hpath.
  - assert (Hretr : exists candidates,
              retrieve index_search FAISS_AVAILABLE r query_embedding
                       (top_k * 2) = Some candidates).
    { unfold retrieve. destruct (negb FAISS_AVAILABLE); [eauto|].
      destruct (faiss_index r) as [idx|]; [| eauto].
      apply retrieve_hits_returns, Hidx. }
    destruct Hretr as [candidates ->].
    destruct (score_candidates_returns (a0 :: rest)
                (token_set (lower query)) hybrid_weight candidates h Hmd)
      as (h' & results & ->).
    exists h'. eexists. reflexivity.
  - destruct (scan_memories_returns query_embedding
                (token_set (lower query)) hybrid_weight (a0 :: rest) h)
      as (h' & results & ->).
    + intros a Ha _. split; [now apply Hmd|].
      intros e He. now apply (Hdim eq_refl a e).
    + exists h'. eexists. reflexivity.
Qed.

Lemma two_records_scan query_tokens hybrid_weight :
  exists h' results,
    scan_memories [1] query_tokens hybrid_weight two_records [0%nat; 1%nat]
    = (h', Some results) /\
    map res_source results = [0%nat; 1%nat].
Proof.
  destruct (scan_memories_returns [1] query_tokens hybrid_weight
              [0%nat; 1%nat] two_records) as (h' & results & Hscan).
  - intros a Ha _. split.
    + destruct a; discriminate.
    + intros e He. destruct a; injection He as <-; reflexivity.
  - exists h', results. split; [exact Hscan|].
    destruct (scan_memories_spec _ _ _ _ _ _ _ Hscan) as (Hsrc & _).
    rewrite Hsrc. reflexivity.
Qed.







(** ** The confidence floor of the indexed path (C7) *)

(** C7.  Every pair returned by [FAISSRetriever.retrieve] has a
    similarity of at least [min_confidence], and so has the semantic
    component of every result of a retrieval on the indexed path. *)
Theorem indexed_results_pass_confidence_floor {FaissIndex} index_search
    generate_embedding FAISS_AVAILABLE (r : FAISSRetriever FaissIndex) :
  (forall query_embedding k found,
     retrieve index_search FAISS_AVAILABLE r query_embedding k = Some found ->
     forall memory_id s, In (memory_id, s) found -> s >= min_confidence r)
  /\
  (forall h store query top_k use_faiss hybrid_weight out,
     indexed_path FAISS_AVAILABLE r use_faiss = true ->
     snd (retrieve_memories_from_ltm index_search generate_embedding
            FAISS_AVAILABLE r h store query top_k use_faiss hybrid_weight)
     = Some out ->
     forall x, In x out -> debug_semantic x >= min_confidence r).
Proof.
  split.
  - intros q k found. apply retrieve_floor.
  - intros h store query top_k use_faiss hybrid_weight out Hpath Hout x Hx.
    rewrite retrieve_memories_from_ltm_rank in Hout.
    apply rank_some in Hout. destruct Hout as (results & Hres & ->).
    destruct (py_take_sort_desc_any results top_k) as (_ & _ & Hin).
    apply Hin in Hx. clear Hin.
    unfold scored_results in Hres.
    destruct store as [| a0 rest].
    { simpl in Hres. injection Hres as <-. contradiction. }
    destruct (generate_embedding query) as [q|]; [| discriminate].
    rewrite Hpath in Hres.
    destruct (retrieve index_search FAISS_AVAILABLE r q (top_k * 2))
      as [candidates|] eqn:Hretr; [| discriminate].
    destruct (score_candidates (a0 :: rest) (token_set (lower query))
                hybrid_weight h candidates) as [h' o] eqn:Hsc.
    simpl in Hres. subst o.
    destruct (score_candidates_spec _ _ _ _ _ _ _ Hsc) as (_ & _ & _ & Hsem).
    destruct (Hsem x Hx) as [memory_id Hin].
    eapply retrieve_floor; eauto.
Qed.

(** The padding of a search passes no confidence floor above the lowest
    [float32]. *)
Lemma retrieve_hits_padding {FaissIndex} (r : FAISSRetriever FaissIndex) n :
  - 340282346638528859811704183484516925440 < min_confidence r ->
  retrieve_hits r (faiss_padding n) = Some [].
Proof.
  intros Hfloor. induction n as [| n IH]; [reflexivity|].
  unfold faiss_padding. cbn [repeat retrieve_hits].
  destruct (_ <? _)%Z; [| exact IH].
  destruct (Rge_dec _ _) as [Hge | _]; [exfalso; lra | exact IH].
Qed.

Lemma retrieve_hits_app {FaissIndex} (r : FAISSRetriever FaissIndex)
    hits padding :
  retrieve_hits r padding = Some [] ->
  retrieve_hits r (hits ++ padding) = retrieve_hits r hits.
Proof.
  intros Hpad. induction hits as [| [idx hit_score] rest IH];
    [exact Hpad|].
  cbn [app retrieve_hits]. rewrite IH. reflexivity.
Qed.

Lemma search_among_hits {FaissIndex} (r : FAISSRetriever FaissIndex)
    found k :
  - 340282346638528859811704183484516925440 < min_confidence r ->
  retrieve_hits r (search_among found k)
  = retrieve_hits r (firstn (Z.to_nat k) found).
Proof.
  intros Hfloor. unfold search_among.
  apply retrieve_hits_app. now apply retrieve_hits_padding.
Qed.

Lemma two_record_index_retrieve query_embedding k :
  (1 <= k)%Z ->
  retrieve two_record_search true two_record_index query_embedding k
  = Some [("m0"%string, 9 / 10)].
Proof.
  intros Hk. unfold retrieve, two_record_search. cbn [negb faiss_index
    two_record_index].
  rewrite search_among_hits by (simpl; lra).
  destruct (Z.to_nat k) as [| [| n]] eqn:Hn; [lia | |];
    cbn [firstn]; rewrite ?firstn_nil; cbn [retrieve_hits]; simpl;
    destruct (Rge_dec (9 / 10) (45 / 100)) as [_ | Hno];
    try (exfalso; lra); try reflexivity.
  destruct (Rge_dec (3 / 10) (45 / 100)) as [Hy | _]; [exfalso; lra|].
  reflexivity.
Qed.

Lemma two_record_index_returns top_k hybrid_weight :
  (1 <= top_k)%Z ->
  exists h' x,
    retrieve_memories_from_ltm two_record_search constant_embedding true
      two_record_index two_records [0%nat; 1%nat] "dragon" top_k true
      hybrid_weight
    = (h', Some (py_take [x] top_k)) /\
    res_source x = 0%nat /\
    scored_memories two_record_search constant_embedding true
      two_record_index two_records [0%nat; 1%nat] "dragon" top_k true
    = [0%nat].
Proof.
  intros Hk. rewrite retrieve_memories_from_ltm_rank.
  unfold scored_results, scored_memories, constant_embedding, indexed_path.
  cbn [andb two_record_index faiss_index].
  rewrite two_record_index_retrieve by lia.
  destruct (score_candidates_returns [0%nat; 1%nat]
              (token_set (lower "dragon")) hybrid_weight
              [("m0"%string, 9 / 10)] two_records)
    as (h' & results & Hsc).
  { intros a _. destruct a; discriminate. }
  rewrite Hsc.
  destruct (score_candidates_spec _ _ _ _ _ _ _ Hsc) as (Hsrc & _).
  assert (Hres : resolve_candidates two_records [0%nat; 1%nat]
                   [("m0"%string, 9 / 10)] = [0%nat]) by reflexivity.
  rewrite Hres in Hsrc.
  destruct results as [| x [| y t]]; try discriminate.
  injection Hsrc as Hx.
  exists h', x. unfold rank. cbn [fst snd option_map sort_desc fold_right].
  repeat split. exact Hx.
Qed.

Lemma indexed_results_pass_confidence_floor_witness :
  exists out,
    snd (retrieve_memories_from_ltm two_record_search constant_embedding
           true two_record_index two_records [0%nat; 1%nat] "dragon" 5
           true (7 / 10))
    = Some out /\
    forall x, In x out -> debug_semantic x >= 45 / 100.
Proof.
  destruct (two_record_index_returns 5 (7 / 10)) as (h' & x0 & Hret & _);
    [lia|].
  exists (py_take [x0] 5). split; [now rewrite Hret|].
  destruct (indexed_results_pass_confidence_floor two_record_search
              constant_embedding true two_record_index) as [_ Hfloor].
  apply (Hfloor two_records [0%nat; 1%nat] "dragon"%string 5%Z true (7 / 10)).
  - reflexivity.
  - now rewrite Hret.
Defined.

(** ** Access counts (C8) *)

(** Candidates with distinct ids resolve to distinct dicts. *)
Lemma resolve_candidates_id h store candidates a :
  In a (resolve_candidates h store candidates) ->
  In (mem_id (h a)) (map fst candidates).
Proof.
  unfold resolve_candidates.
  induction candidates as [| [memory_id s] rest IH]; cbn [flat_map map fst];
    [tauto|].
  intros Hin. apply in_app_or in Hin. destruct Hin as [Hin | Hin].
  - destruct (find (has_id h memory_id) store) as [x|] eqn:Hfind;
      [| destruct Hin].
    destruct Hin as [<- | []]. left.
    apply find_has_id_some in Hfind. symmetry. apply Hfind.
  - right. now apply IH.
Qed.

Lemma resolve_candidates_NoDup h store candidates :
  NoDup (map fst candidates) ->
  NoDup (resolve_candidates h store candidates).
Proof.
  induction candidates as [| [memory_id s] rest IH]; cbn [map fst];
    intros Hnd; [constructor|].
  inversion Hnd as [| ? ? Hnotin Hnd']; subst.
  unfold resolve_candidates. cbn [flat_map fst].
  destruct (find (has_id h memory_id) store) as [x|] eqn:Hfind;
    [| now apply IH].
  cbn [app]. constructor; [| now apply IH].
  intros Hin. apply Hnotin.
  apply find_has_id_some in Hfind. destruct Hfind as [_ <-].
  now apply resolve_candidates_id with (store := store).
Qed.

(** C8, amended.  A retrieval that returns has added to the access count
    of every dict the number of times the dict was scored: one for each
    candidate of the index that resolves to it on the indexed path, one
    for each occurrence in the store with an embedding on the linear scan;
    a dict that was not scored has its count as before.  The dicts that
    are scored are those of the list [results] before it is sorted and cut
    to [top_k], returned or not.  A scored dict gains exactly one access on
    the linear scan of a store without repetition, and on the indexed path
    when the ids the index returns are distinct. *)
Theorem scored_records_gain_one_access {FaissIndex} index_search
    generate_embedding FAISS_AVAILABLE (r : FAISSRetriever FaissIndex)
    h store query top_k use_faiss hybrid_weight h' out :
  retrieve_memories_from_ltm index_search generate_embedding FAISS_AVAILABLE
    r h store query top_k use_faiss hybrid_weight = (h', Some out) ->
  (forall a,
     access_count_at h' a
     = (access_count_at h a
        + Z.of_nat
            (count_occ Nat.eq_dec
               (scored_memories index_search generate_embedding
                  FAISS_AVAILABLE r h store query top_k use_faiss) a))%Z)
  /\
  (exists results,
     scored_results index_search generate_embedding FAISS_AVAILABLE
       r h store query top_k use_faiss hybrid_weight = (h', Some results) /\
     map res_source results
     = scored_memories index_search generate_embedding FAISS_AVAILABLE
         r h store query top_k use_faiss /\
     out = py_take (sort_desc results) top_k)
  /\
  (forall a,
     ~ In a (scored_memories index_search generate_embedding
               FAISS_AVAILABLE r h store query top_k use_faiss) ->
     access_count_at h' a = access_count_at h a)
  /\
  (indexed_path FAISS_AVAILABLE r use_faiss = false ->
   NoDup store ->
   forall a,
     In a store -> has_embedding (h a) = true ->
     access_count_at h' a = (access_count_at h a + 1)%Z)
  /\
  (indexed_path FAISS_AVAILABLE r use_faiss = true ->
   NoDup (candidate_ids index_search generate_embedding FAISS_AVAILABLE
                        r query top_k) ->
   forall a,
     In a (scored_memories index_search generate_embedding
             FAISS_AVAILABLE r h store query top_k use_faiss) ->
     access_count_at h' a = (access_count_at h a + 1)%Z).
Proof.
  intros Hret. rewrite retrieve_memories_from_ltm_rank in Hret.
  destruct (scored_results index_search generate_embedding FAISS_AVAILABLE
              r h store query top_k use_faiss hybrid_weight)
    as [h1 o] eqn:Hscored.
  unfold rank in Hret. cbn [fst snd] in Hret.
  destruct o as [results|]; [| discriminate].
  simpl in Hret. injection Hret as -> <-.
  assert (Hgoal :
    map res_source results
    = scored_memories index_search generate_embedding FAISS_AVAILABLE
        r h store query top_k use_faiss /\
    forall a,
      access_count_at h' a
      = (access_count_at h a
         + Z.of_nat
             (count_occ Nat.eq_dec
                (scored_memories index_search generate_embedding
                   FAISS_AVAILABLE r h store query top_k use_faiss) a))%Z).
  { unfold scored_results in Hscored. unfold scored_memories.
    destruct store as [| a0 rest].
    { injection Hscored as <- <-. split; [reflexivity|]. intros a. simpl. lia. }
    destruct (generate_embedding query) as [q|]; [| discriminate].
    destruct (indexed_path FAISS_AVAILABLE r use_faiss).
    - destruct (retrieve index_search FAISS_AVAILABLE r q (top_k * 2))
        as [candidates|]; [| discriminate].
      destruct (score_candidates_spec _ _ _ _ _ _ _ Hscored)
        as (Hsrc & Hacc & _).
      split; assumption.
    - destruct (scan_memories_spec _ _ _ _ _ _ _ Hscored)
        as (Hsrc & Hacc & _).
      split; assumption. }
  destruct Hgoal as [Hsrc Hacc]. split; [exact Hacc|]. split.
  { exists results. repeat split. exact Hsrc. }
  split.
  { intros a Hnot. rewrite Hacc.
    rewrite (proj1 (count_occ_not_In Nat.eq_dec _ a) Hnot). simpl. lia. }
  split.
  - intros Hpath Hnd a Ha Hemb. rewrite Hacc.
    assert (Hscan : scored_memories index_search generate_embedding
                      FAISS_AVAILABLE r h store query top_k use_faiss
                    = scanned_memories h store).
    { unfold scored_memories, scored_results in *.
      destruct store as [| a0 rest]; [contradiction|].
      destruct (generate_embedding query) as [q|]; [| discriminate].
      now rewrite Hpath. }
    rewrite Hscan.
    assert (Hone : count_occ Nat.eq_dec (scanned_memories h store) a
                   = 1%nat).
    { apply NoDup_count_occ'.
      - unfold scanned_memories. now apply NoDup_filter.
      - unfold scanned_memories. apply filter_In. now split. }
    rewrite Hone. reflexivity.
  - intros Hpath Hnd a Ha. rewrite Hacc.
    assert (Hone : count_occ Nat.eq_dec
                     (scored_memories index_search generate_embedding
                        FAISS_AVAILABLE r h store query top_k use_faiss) a
                   = 1%nat).
    { apply NoDup_count_occ'; [| exact Ha].
      unfold scored_memories, candidate_ids in *.
      destruct store as [| a0 rest]; [constructor|].
      destruct (generate_embedding query) as [q|]; [| constructor].
      rewrite Hpath.
      destruct (retrieve index_search FAISS_AVAILABLE r q (top_k * 2))
        as [candidates|]; [| constructor].
      now apply resolve_candidates_NoDup. }
    rewrite Hone. reflexivity.
Qed.

(** The index with the floor 0.25 finds both example records. *)
Lemma lenient_index_retrieve query_embedding k :
  (2 <= k)%Z ->
  retrieve two_record_search true lenient_index query_embedding k
  = Some [("m0"%string, 9 / 10); ("m1"%string, 3 / 10)].
Proof.
  intros Hk. unfold retrieve, two_record_search.
  cbn [negb faiss_index lenient_index].
  rewrite search_among_hits by (simpl; lra).
  destruct (Z.to_nat k) as [| [| n]] eqn:Hn; [lia | lia |].
  cbn [firstn]. rewrite firstn_nil. cbn [retrieve_hits]. simpl.
  destruct (Rge_dec (9 / 10) (25 / 100)) as [_ | Hno]; [| exfalso; lra].
  destruct (Rge_dec (3 / 10) (25 / 100)) as [_ | Hno]; [| exfalso; lra].
  reflexivity.
Qed.

(** The index over the two dicts of the same story finds both, under the
    one id. *)
Lemma twin_index_retrieve query_embedding k :
  (2 <= k)%Z ->
  retrieve twin_search true twin_index query_embedding k
  = Some [("m0"%string, 1); ("m0"%string, 1)].
Proof.
  intros Hk. unfold retrieve, twin_search.
  cbn [negb faiss_index twin_index].
  rewrite search_among_hits by (simpl; lra).
  destruct (Z.to_nat k) as [| [| n]] eqn:Hn; [lia | lia |].
  cbn [firstn]. rewrite firstn_nil. cbn [retrieve_hits]. simpl.
  destruct (Rge_dec 1 (45 / 100)) as [_ | Hno]; [| exfalso; lra].
  reflexivity.
Qed.

(** A retrieval of one result on the indexed path over candidates that
    are all scored. *)
Lemma indexed_retrieval_of_one {FaissIndex} index_search
    (r : FAISSRetriever FaissIndex) h store candidates sources :
  store <> [] ->
  faiss_index r <> None ->
  retrieve index_search true r [1] 2 = Some candidates ->
  resolve_candidates h store candidates = sources ->
  (forall a, In a store -> metadata (h a) <> None) ->
  exists h' results,
    retrieve_memories_from_ltm index_search constant_embedding true r h
      store "dragon" 1 true (7 / 10)
    = (h', Some (py_take (sort_desc results) 1)) /\
    List.length results = List.length sources /\
    scored_memories index_search constant_embedding true r h store
                    "dragon" 1 true
    = sources.
Proof.
  intros Hstore Hindex Hretr Hres Hmd.
  rewrite retrieve_memories_from_ltm_rank.
  unfold scored_results, scored_memories, constant_embedding, indexed_path.
  destruct store as [| a0 rest]; [now contradiction Hstore|].
  destruct (faiss_index r) as [idx|] eqn:Hidx; [| now contradiction Hindex].
  cbn [andb]. change (1 * 2)%Z with 2%Z. rewrite Hretr.
  destruct (score_candidates_returns (a0 :: rest)
              (token_set (lower "dragon")) (7 / 10) candidates h Hmd)
    as (h' & results & Hsc).
  rewrite Hsc.
  destruct (score_candidates_spec _ _ _ _ _ _ _ Hsc) as (Hsrc & _).
  exists h', results. unfold rank. cbn [fst snd option_map].
  split; [reflexivity|]. split; [| exact Hres].
  rewrite <- Hres, <- Hsrc. now rewrite length_map.
Qed.

(** C8, as stated, fails when two stored dicts carry the same id, as after
    the same story was ingested twice: the index lists the id twice, both
    candidates resolve to the first dict, which is scored twice and gains
    two accesses, and the second dict is never scored. *)
Lemma shared_id_scores_first_record_twice :
  exists h' out,
    retrieve_memories_from_ltm twin_search constant_embedding true
      twin_index twin_records [0%nat; 1%nat] "dragon" 1 true (7 / 10)
    = (h', Some out) /\
    scored_memories twin_search constant_embedding true twin_index
      twin_records [0%nat; 1%nat] "dragon" 1 true
    = [0%nat; 0%nat] /\
    access_count_at twin_records 0%nat = 1%Z /\
    access_count_at h' 0%nat = 3%Z /\
    access_count_at twin_records 1%nat = 1%Z /\
    access_count_at h' 1%nat = 1%Z.
Proof.
  assert (Hretr : retrieve twin_search true twin_index [1] 2
                  = Some [("m0"%string, 1); ("m0"%string, 1)])
    by (apply twin_index_retrieve; lia).
  assert (Hmd : forall a, In a [0%nat; 1%nat] ->
                          metadata (twin_records a) <> None)
    by (intros a _; discriminate).
  rewrite retrieve_memories_from_ltm_rank.
  unfold scored_results, scored_memories, constant_embedding, indexed_path.
  cbn [andb twin_index faiss_index]. change (1 * 2)%Z with 2%Z.
  rewrite Hretr.
  destruct (score_candidates_returns [0%nat; 1%nat]
              (token_set (lower "dragon")) (7 / 10)
              [("m0"%string, 1); ("m0"%string, 1)] twin_records Hmd)
    as (h' & results & Hsc).
  rewrite Hsc.
  destruct (score_candidates_spec _ _ _ _ _ _ _ Hsc) as (_ & Hacc & _).
  exists h', (py_take (sort_desc results) 1). unfold rank.
  cbn [fst snd option_map].
  split; [reflexivity|]. split; [reflexivity|].
  split; [reflexivity|]. split; [rewrite Hacc; reflexivity|].
  split; [reflexivity | rewrite Hacc; reflexivity].
Qed.

(** Both example records are scored and gain one access, and the one
    result asked for is returned. *)
Lemma scored_records_gain_one_access_witness :
  exists h' out,
    retrieve_memories_from_ltm two_record_search constant_embedding true
      lenient_index two_records [0%nat; 1%nat] "dragon" 1 true (7 / 10)
    = (h', Some out) /\
    List.length out = 1%nat /\
    access_count_at h' 0%nat = 2%Z /\
    access_count_at h' 1%nat = 2%Z.
Proof.
  destruct (indexed_retrieval_of_one two_record_search lenient_index
              two_records [0%nat; 1%nat]
              [("m0"%string, 9 / 10); ("m1"%string, 3 / 10)]
              [0%nat; 1%nat])
    as (h' & results & Hret & Hlen & Hsm).
  - discriminate.
  - discriminate.
  - apply lenient_index_retrieve. lia.
  - reflexivity.
  - intros a _. destruct a; discriminate.
  - exists h', (py_take (sort_desc results) 1). split; [exact Hret|].
    split.
    + unfold py_take. cbn [Z.leb Z.compare].
      rewrite length_firstn, sort_desc_length, Hlen. reflexivity.
    + destruct (scored_records_gain_one_access two_record_search
                  constant_embedding true lenient_index two_records
                  [0%nat; 1%nat] "dragon"%string 1%Z true (7 / 10) h'
                  (py_take (sort_desc results) 1) Hret)
        as (_ & _ & _ & _ & Hone).
      assert (Hnd : NoDup (candidate_ids two_record_search
                             constant_embedding true lenient_index
                             "dragon" 1)).
      { unfold candidate_ids, constant_embedding.
        change (1 * 2)%Z with 2%Z.
        rewrite lenient_index_retrieve by lia. cbn [map fst].
        constructor; [simpl; intros [H | []]; discriminate|].
        constructor; [simpl; tauto | constructor]. }
      rewrite !(Hone eq_refl Hnd) by (rewrite Hsm; simpl; tauto).
      split; reflexivity.
Defined.

(** ** Scenarios of retrieval *)

(** An empty store gives an empty result, whatever the query. *)
Lemma retrieve_from_empty_store {FaissIndex} index_search generate_embedding
    FAISS_AVAILABLE (r : FAISSRetriever FaissIndex) h query top_k use_faiss
    hybrid_weight :
  retrieve_memories_from_ltm index_search generate_embedding FAISS_AVAILABLE
    r h [] query top_k use_faiss hybrid_weight
  = (h, Some []).
Proof. reflexivity. Qed.

(** The query tokens [knight] and [fought] are both among the tokens of the
    example record: its lexical score is 1. *)
Lemma lexical_score_of_matching_record :
  lexical_score (token_set (lower "Knight fought"))
                (embedded_record "m0" [1])
  = 1.
Proof.
  unfold lexical_score.
  assert (Hq : List.length (token_set (lower "Knight fought")) = 2%nat)
    by reflexivity.
  assert (Ho : overlap (token_set (lower "Knight fought"))
                 (token_set
                    (lower
                       (text_to_index (embedded_record "m0" [1]))))
               = 2%nat) by reflexivity.
  rewrite Hq, Ho. simpl. field.
Qed.

(** Tokens are split on white space only: the token of the record is
    [dragon.] with its full stop, and the query token [dragon] does not
    match it. *)
Lemma lexical_score_keeps_punctuation :
  lexical_score (token_set (lower "dragon fought"))
                (embedded_record "m0" [1])
  = 1 / 2.
Proof.
  unfold lexical_score.
  assert (Hq : List.length (token_set (lower "dragon fought")) = 2%nat)
    by reflexivity.
  assert (Ho : overlap (token_set (lower "dragon fought"))
                 (token_set
                    (lower
                       (text_to_index (embedded_record "m0" [1]))))
               = 1%nat) by reflexivity.
  rewrite Hq, Ho. simpl. field.
Qed.

(** A query without a token in common with the record has lexical score
    0. *)
Lemma lexical_score_of_unrelated_query :
  lexical_score (token_set (lower "Mars surface"))
                (embedded_record "m0" [1])
  = 0.
Proof.
  unfold lexical_score.
  assert (Hq : List.length (token_set (lower "Mars surface")) = 2%nat)
    by reflexivity.
  assert (Ho : overlap (token_set (lower "Mars surface"))
                 (token_set
                    (lower
                       (text_to_index (embedded_record "m0" [1]))))
               = 0%nat) by reflexivity.
  rewrite Hq, Ho. simpl. field.
Qed.

(** * Further properties *)

(** ** The in-memory backend *)

Lemma find_app_some {A} (f : A -> bool) l1 l2 x :
  find f l1 = Some x -> find f (l1 ++ l2) = Some x.
Proof.
  induction l1 as [| y t IH]; simpl; [discriminate|].
  destruct (f y); [tauto | exact IH].
Qed.

Lemma find_app_none {A} (f : A -> bool) l1 l2 :
  find f l1 = None -> find f (l1 ++ l2) = find f l2.
Proof.
  induction l1 as [| y t IH]; simpl; [reflexivity|].
  destruct (f y); [discriminate | exact IH].
Qed.

(** X1.  [add] then [get]: a lookup that found a dict before the [add]
    finds the same dict after it, and when no stored dict carried the id
    of the added dict, a lookup of that id finds the added dict. *)
Theorem add_then_get b a :
  (forall memory_id x,
     InMemoryBackend.get b memory_id = Some x ->
     InMemoryBackend.get (InMemoryBackend.add b a) memory_id = Some x)
  /\
  (InMemoryBackend.get b (mem_id (objects b a)) = None ->
   InMemoryBackend.get (InMemoryBackend.add b a) (mem_id (objects b a))
   = Some a)
  /\
  (forall memory_id,
     memory_id <> mem_id (objects b a) ->
     InMemoryBackend.get (InMemoryBackend.add b a) memory_id
     = InMemoryBackend.get b memory_id).
Proof.
  unfold InMemoryBackend.get, InMemoryBackend.add. simpl.
  split; [| split].
  - intros memory_id x Hx. now apply find_app_some.
  - intros Hnone. rewrite find_app_none by exact Hnone. simpl.
    unfold has_id. now rewrite String.eqb_refl.
  - intros memory_id Hne.
    destruct (find (has_id (objects b) memory_id) (_store b)) as [x|] eqn:Hf.
    + now apply find_app_some.
    + rewrite find_app_none by exact Hf. simpl. unfold has_id.
      destruct (String.eqb_spec (mem_id (objects b a)) memory_id);
        [congruence | reflexivity].
Qed.

Lemma add_then_get_witness :
  InMemoryBackend.get
    (InMemoryBackend.add (mkBackend two_records [0%nat] []) 1%nat) "m1"
  = Some 1%nat.
Proof.
  destruct (add_then_get (mkBackend two_records [0%nat] []) 1%nat)
    as (_ & Hnew & _).
  apply Hnew. reflexivity.
Defined.

Lemma remove_first_absent h memory_id l :
  find (has_id h memory_id) l = None -> remove_first h memory_id l = l.
Proof.
  induction l as [| y t IH]; simpl; [reflexivity|].
  destruct (has_id h memory_id y); [discriminate|].
  intros Hf. now rewrite IH.
Qed.

Lemma remove_first_length h memory_id l x :
  find (has_id h memory_id) l = Some x ->
  S (List.length (remove_first h memory_id l)) = List.length l.
Proof.
  induction l as [| y t IH]; simpl; [discriminate|].
  destruct (has_id h memory_id y); [reflexivity|].
  intros Hf. simpl. now rewrite IH.
Qed.

Lemma remove_first_find_other h i j l :
  i <> j ->
  find (has_id h j) (remove_first h i l) = find (has_id h j) l.
Proof.
  intros Hne. induction l as [| y t IH]; simpl; [reflexivity|].
  destruct (has_id h i y) eqn:Hi.
  - destruct (has_id h j y) eqn:Hj; [| reflexivity].
    unfold has_id in Hi, Hj.
    apply String.eqb_eq in Hi. apply String.eqb_eq in Hj. congruence.
  - simpl. destruct (has_id h j y); [reflexivity | exact IH].
Qed.

Lemma remove_first_subseq h memory_id l :
  subseq (remove_first h memory_id l) l.
Proof.
  induction l as [| y t IH]; simpl; [constructor|].
  destruct (has_id h memory_id y).
  - constructor. clear IH. induction t; constructor; assumption.
  - now constructor.
Qed.

(** X2.  [delete]: when no stored dict has the id, the call returns
    [False] and the store is as before; otherwise it returns [True] and
    the store has one dict less.  In both cases the dicts left are in
    their former order, no dict is modified, and the lookup of any other
    id gives what it gave before. *)
Theorem delete_removes_one b memory_id :
  (InMemoryBackend.returns_true b memory_id = false ->
   _store (InMemoryBackend.delete b memory_id) = _store b)
  /\
  (InMemoryBackend.returns_true b memory_id = true ->
   S (List.length (_store (InMemoryBackend.delete b memory_id)))
   = List.length (_store b))
  /\
  subseq (_store (InMemoryBackend.delete b memory_id)) (_store b)
  /\
  objects (InMemoryBackend.delete b memory_id) = objects b
  /\
  (forall other,
     other <> memory_id ->
     InMemoryBackend.get (InMemoryBackend.delete b memory_id) other
     = InMemoryBackend.get b other).
Proof.
  unfold InMemoryBackend.returns_true, InMemoryBackend.get,
    InMemoryBackend.delete. simpl.
  repeat split.
  - destruct (find _ _) eqn:Hf; [discriminate|]. intros _.
    now apply remove_first_absent.
  - destruct (find _ _) eqn:Hf; [| discriminate]. intros _.
    eapply remove_first_length; eauto.
  - apply remove_first_subseq.
  - intros other Hne. apply remove_first_find_other. congruence.
Qed.

Lemma delete_removes_one_witness :
  S (List.length
       (_store (InMemoryBackend.delete
                  (mkBackend two_records [0%nat; 1%nat] []) "m1")))
  = 2%nat.
Proof.
  destruct (delete_removes_one (mkBackend two_records [0%nat; 1%nat] [])
              "m1"%string) as (_ & Hone & _).
  apply Hone. reflexivity.
Defined.

Lemma remove_first_find_unique h i l :
  NoDup (stored_ids h l) ->
  find (has_id h i) (remove_first h i l) = None.
Proof.
  induction l as [| y t IH]; simpl; intros Hnd; [reflexivity|].
  inversion Hnd as [| ? ? Hnotin Hnd']; subst.
  destruct (has_id h i y) eqn:Hi.
  - unfold has_id in Hi. apply String.eqb_eq in Hi.
    destruct (find (has_id h i) t) as [x|] eqn:Hf; [| reflexivity].
    apply find_has_id_some in Hf. destruct Hf as [Hin Hid].
    exfalso. apply Hnotin. rewrite Hi, <- Hid.
    apply (in_map (fun z => mem_id (h z))). exact Hin.
  - simpl. rewrite Hi. now apply IH.
Qed.

(** X3.  In a store with distinct ids, a dict that was deleted is not
    found any more. *)
Theorem delete_then_get b memory_id :
  NoDup (stored_ids (objects b) (_store b)) ->
  InMemoryBackend.get (InMemoryBackend.delete b memory_id) memory_id = None.
Proof.
  intros Hnd. unfold InMemoryBackend.get, InMemoryBackend.delete. simpl.
  now apply remove_first_find_unique.
Qed.

Lemma delete_then_get_witness :
  InMemoryBackend.get
    (InMemoryBackend.delete (mkBackend two_records [0%nat; 1%nat] []) "m0")
    "m0"
  = None.
Proof.
  apply (delete_then_get (mkBackend two_records [0%nat; 1%nat] [])).
  simpl. constructor.
  - simpl. intros [H | []]. discriminate.
  - constructor; [simpl; tauto | constructor].
Defined.

Lemma backend_update_mem_id b memory_id updates x :
  mem_id (objects (InMemoryBackend.update b memory_id updates) x)
  = mem_id (objects b x).
Proof.
  destruct (backend_update_objects b memory_id updates x) as [H | [_ H]];
    rewrite H; reflexivity.
Qed.

(** X4.  [update] touches nothing but the metadata dict of the first
    stored dict with the id: the store list is as before, every id finds
    the dict it found before, the id, the texts and the embedding of
    every dict are as before, and every dict but that first one is as
    before altogether.  In that dict, which gets a metadata dict if it had
    none, every key that [updates] carries takes the value of [updates],
    and every other key keeps its value: a key is never removed. *)
Theorem update_keeps_lookups b memory_id updates :
  let b' := InMemoryBackend.update b memory_id updates in
  _store b' = _store b
  /\
  (forall other, InMemoryBackend.get b' other = InMemoryBackend.get b other)
  /\
  (forall x,
     mem_id (objects b' x) = mem_id (objects b x) /\
     content_summary (objects b' x) = content_summary (objects b x) /\
     raw (objects b' x) = raw (objects b x) /\
     embedding (objects b' x) = embedding (objects b x))
  /\
  (forall x,
     InMemoryBackend.get b memory_id <> Some x ->
     objects b' x = objects b x)
  /\
  (forall a,
     InMemoryBackend.get b memory_id = Some a ->
     let md := get_metadata (objects b a) in
     metadata (objects b' a)
     = Some (mkMetadata
               (match importance_score updates with
                | Some v => Some v
                | None => importance_score md
                end)
               (match access_count updates with
                | Some v => Some v
                | None => access_count md
                end)
               (match timestamp updates with
                | Some v => Some v
                | None => timestamp md
                end)
               (match consolidated updates with
                | Some v => Some v
                | None => consolidated md
                end))).
Proof.
  cbv zeta. split; [apply backend_update_store|]. split; [| split; [| split]].
  - intros other. unfold InMemoryBackend.get.
    rewrite backend_update_store.
    apply find_has_id_ext. apply backend_update_mem_id.
  - intros x.
    destruct (backend_update_objects b memory_id updates x) as [H | [_ H]];
      rewrite H; repeat split; reflexivity.
  - intros x Hx.
    destruct (backend_update_objects b memory_id updates x)
      as [H | [Hget _]]; [exact H | contradiction].
  - intros a Hget. unfold InMemoryBackend.update. rewrite Hget.
    cbn [objects]. rewrite heap_set_same. reflexivity.
Qed.

Lemma update_keeps_lookups_witness :
  metadata
    (objects
       (InMemoryBackend.update (mkBackend two_records [0%nat; 1%nat] [])
          "m1" (mkMetadata (Some (3 / 10)) None None (Some true)))
       1%nat)
  = Some (mkMetadata (Some (3 / 10)) (Some 1%Z) today (Some true)).
Proof.
  destruct (update_keeps_lookups (mkBackend two_records [0%nat; 1%nat] [])
              "m1"%string
              (mkMetadata (Some (3 / 10)) None None (Some true)))
    as (_ & _ & _ & _ & Hmerged).
  apply (Hmerged 1%nat). reflexivity.
Defined.

(** X5.  An [update] for an id no stored dict carries changes no dict and
    returns [False]; an [update] that is repeated changes nothing the
    second time. *)
Theorem update_missing_or_repeated b memory_id updates :
  (InMemoryBackend.returns_true b memory_id = false ->
   objects (InMemoryBackend.update b memory_id updates) = objects b)
  /\
  (forall x,
     objects
       (InMemoryBackend.update
          (InMemoryBackend.update b memory_id updates) memory_id updates) x
     = objects (InMemoryBackend.update b memory_id updates) x).
Proof.
  split.
  - unfold InMemoryBackend.returns_true, InMemoryBackend.update.
    destruct (InMemoryBackend.get b memory_id); [discriminate | reflexivity].
  - intros x.
    set (b1 := InMemoryBackend.update b memory_id updates).
    destruct (backend_update_objects b1 memory_id updates x)
      as [H | [Hget H]]; [exact H|].
    rewrite H. clear H.
    assert (Hget0 : InMemoryBackend.get b memory_id = Some x).
    { unfold InMemoryBackend.get in *. subst b1.
      rewrite backend_update_store in Hget.
      rewrite (find_has_id_ext (objects b)) in Hget
        by apply backend_update_mem_id.
      exact Hget. }
    subst b1. unfold InMemoryBackend.update. rewrite Hget0.
    cbn [objects]. rewrite heap_set_same.
    unfold set_metadata, get_metadata, metadata_update, merge_field. cbn.
    f_equal. f_equal.
    destruct (importance_score updates), (access_count updates),
      (timestamp updates), (consolidated updates); reflexivity.
Qed.

Lemma update_missing_or_repeated_witness :
  objects
    (InMemoryBackend.update (mkBackend two_records [0%nat] []) "m1"
       (mkMetadata (Some 1) None None None))
  = two_records.
Proof.
  destruct (update_missing_or_repeated (mkBackend two_records [0%nat] [])
              "m1"%string (mkMetadata (Some 1) None None None))
    as [Hmissing _].
  apply Hmissing. reflexivity.
Defined.

(** X6.  [query] does not look at the query embedding: it returns the
    first dicts of the store, in store order, and for a [top_k] that is
    not negative it returns [min(top_k, len(store))] of them. *)
Theorem query_returns_first_stored b query_embedding top_k :
  (exists rest,
     _store b = InMemoryBackend.query b query_embedding top_k ++ rest)
  /\
  ((0 <= top_k)%Z ->
   InMemoryBackend.query b query_embedding top_k
   = firstn (Z.to_nat top_k) (_store b)
   /\
   List.length (InMemoryBackend.query b query_embedding top_k)
   = Nat.min (Z.to_nat top_k) (List.length (_store b))).
Proof.
  unfold InMemoryBackend.query. split.
  - destruct (top_k <? _)%Z.
    + unfold py_take. destruct (0 <=? top_k)%Z;
        eexists; symmetry; apply firstn_skipn.
    + exists []. now rewrite app_nil_r.
  - intros Hk.
    assert (Heq : (if (top_k <? Z.of_nat (List.length (_store b)))%Z
                   then py_take (_store b) top_k else _store b)
                  = firstn (Z.to_nat top_k) (_store b)).
    { destruct (Z.ltb_spec top_k (Z.of_nat (List.length (_store b)))).
      - unfold py_take. apply Z.leb_le in Hk. now rewrite Hk.
      - symmetry. apply firstn_all2. lia. }
    rewrite Heq. split; [reflexivity | apply length_firstn].
Qed.

Lemma query_returns_first_stored_witness :
  InMemoryBackend.query (mkBackend two_records [0%nat; 1%nat] []) [1] 1
  = [0%nat]
  /\
  List.length
    (InMemoryBackend.query (mkBackend two_records [0%nat; 1%nat] []) [1] 1)
  = 1%nat.
Proof.
  destruct (query_returns_first_stored
              (mkBackend two_records [0%nat; 1%nat] []) [1] 1%Z)
    as [_ Hk].
  apply Hk. lia.
Defined.

(** ** The statistics of a decay cycle *)

Lemma persist_score_stats b st a memory_id new_score :
  snd (persist_score b st a memory_id new_score)
  = if no_metadata (objects b) a then add_error st else add_updated st.
Proof.
  unfold persist_score, store_score, no_metadata.
  destruct (metadata (objects b a)); reflexivity.
Qed.

Lemma persist_score_metadata_kept b st a memory_id new_score x :
  metadata (objects b x) <> None ->
  metadata (objects (fst (persist_score b st a memory_id new_score)) x)
  <> None.
Proof.
  intros Hx. unfold persist_score, store_score.
  destruct (metadata (objects b a)) as [md|] eqn:Hmd; [| exact Hx].
  cbn [fst].
  match goal with
  | |- context [InMemoryBackend.update ?b1 ?i ?u] =>
      destruct (backend_update_objects b1 i u x) as [H | [_ H]]
  end; rewrite H; cbn [objects set_metadata metadata]; [| discriminate].
  destruct (heap_set_cases (objects b) a
              (set_metadata (objects b a)
                 (Some (set_importance_score md new_score))) x)
    as [[-> Hs] | [Hne Hs]]; rewrite Hs; [discriminate | exact Hx].
Qed.

Lemma persist_score_embedding b st a memory_id new_score x :
  embedding (objects (fst (persist_score b st a memory_id new_score)) x)
  = embedding (objects b x).
Proof.
  unfold persist_score, store_score.
  destruct (metadata (objects b a)) as [md|] eqn:Hmd; [| reflexivity].
  cbn [fst].
  match goal with
  | |- context [InMemoryBackend.update ?b1 ?i ?u] =>
      destruct (backend_update_objects b1 i u x) as [H | [_ H]]
  end; rewrite H; cbn [objects set_metadata embedding];
    destruct (heap_set_cases (objects b) a
                (set_metadata (objects b a)
                   (Some (set_importance_score md new_score))) x)
      as [[-> Hs] | [Hne Hs]]; rewrite Hs; reflexivity.
Qed.

Lemma persist_score_texts b st a memory_id new_score x :
  raw (objects (fst (persist_score b st a memory_id new_score)) x)
  = raw (objects b x) /\
  content_summary
    (objects (fst (persist_score b st a memory_id new_score)) x)
  = content_summary (objects b x).
Proof.
  unfold persist_score, store_score.
  destruct (metadata (objects b a)) as [md|] eqn:Hmd; [| split; reflexivity].
  cbn [fst].
  match goal with
  | |- context [InMemoryBackend.update ?b1 ?i ?u] =>
      destruct (backend_update_objects b1 i u x) as [H | [_ H]]
  end; rewrite H; cbn [objects set_metadata raw content_summary];
    destruct (heap_set_cases (objects b) a
                (set_metadata (objects b a)
                   (Some (set_importance_score md new_score))) x)
      as [[-> Hs] | [Hne Hs]]; rewrite Hs; split; reflexivity.
Qed.

Lemma consolidate_memory_metadata_kept summarizer_fn h a x :
  metadata (h x) <> None ->
  metadata (consolidate_memory summarizer_fn h a x) <> None.
Proof.
  intros Hx. destruct (Nat.eq_dec x a) as [-> | Hne].
  - destruct (consolidate_memory_at summarizer_fn h a)
      as (_ & _ & _ & _ & _ & Hiff).
    intros Hnone. apply Hx. now apply Hiff.
  - now rewrite consolidate_memory_other.
Qed.

Lemma consolidate_memory_embedding summarizer_fn h a x :
  embedding (consolidate_memory summarizer_fn h a x) = embedding (h x).
Proof.
  destruct (Nat.eq_dec x a) as [-> | Hne].
  - apply consolidate_memory_at.
  - now rewrite consolidate_memory_other.
Qed.

Lemma consolidate_memory_no_metadata summarizer_fn h a :
  no_metadata (consolidate_memory summarizer_fn h a) a = no_metadata h a.
Proof.
  unfold no_metadata.
  destruct (consolidate_memory_at summarizer_fn h a)
    as (_ & _ & _ & _ & _ & Hiff).
  destruct (metadata (consolidate_memory summarizer_fn h a a)) eqn:H1;
    destruct (metadata (h a)) eqn:H2; try reflexivity.
  - destruct Hiff as [_ Hb]. now specialize (Hb eq_refl).
  - destruct Hiff as [Ha _]. now specialize (Ha eq_refl).
Qed.

Lemma filter_length_le {A} (f g : A -> bool) l :
  (forall x, f x = true -> g x = true) ->
  (List.length (filter f l) <= List.length (filter g l))%nat.
Proof.
  intros Himp. induction l as [| y t IH]; simpl; [lia|].
  destruct (f y) eqn:Hf.
  - rewrite (Himp y Hf). simpl. lia.
  - destruct (g y); simpl; lia.
Qed.

Lemma subseq_refl {A} (l : list A) : subseq l l.
Proof. induction l; constructor; assumption. Qed.

Lemma subseq_trans {A} (l1 l2 l3 : list A) :
  subseq l1 l2 -> subseq l2 l3 -> subseq l1 l3.
Proof.
  intros H12 H23. revert l1 H12.
  induction H23 as [| x l2 l3 H IH | x l2 l3 H IH]; intros l1 H12.
  - exact H12.
  - apply subseq_skip. now apply IH.
  - inversion H12; subst.
    + apply subseq_skip. now apply IH.
    + apply subseq_keep. now apply IH.
Qed.

Lemma count_id_ext h h' memory_id l :
  (forall x, mem_id (h' x) = mem_id (h x)) ->
  count_id h' memory_id l = count_id h memory_id l.
Proof.
  intros Hid. unfold count_id. f_equal. apply filter_ext.
  intros x. unfold has_id. now rewrite Hid.
Qed.

Lemma count_id_remove_first h i j l :
  count_id h j (remove_first h i l)
  = if String.eqb i j then Nat.pred (count_id h j l) else count_id h j l.
Proof.
  unfold count_id. induction l as [| y t IH]; simpl.
  - now destruct (String.eqb i j).
  - destruct (has_id h i y) eqn:Hi.
    + unfold has_id in Hi. apply String.eqb_eq in Hi.
      replace (has_id h j y) with (String.eqb i j)
        by (unfold has_id; now rewrite Hi).
      destruct (String.eqb i j); reflexivity.
    + simpl. destruct (has_id h j y) eqn:Hj; simpl.
      * rewrite IH. destruct (String.eqb_spec i j) as [-> | Hne];
          [congruence | reflexivity].
      * exact IH.
Qed.

Lemma count_id_cons h i a l :
  count_id h i (a :: l)
  = ((if String.eqb (mem_id (h a)) i then 1 else 0) + count_id h i l)%nat.
Proof.
  unfold count_id. cbn [filter]. unfold has_id at 1.
  destruct (String.eqb (mem_id (h a)) i); reflexivity.
Qed.

Lemma count_id_find h i l :
  (0 < count_id h i l)%nat -> exists x, find (has_id h i) l = Some x.
Proof.
  unfold count_id. induction l as [| y t IH]; simpl; [lia|].
  destruct (has_id h i y); [eauto | exact IH].
Qed.

Section CycleStatistics.

Variable config : DecayConfig.
Variable age_days_of : string -> option Z.
Variable summarizer_fn : option (string -> Z -> Z -> option string).

Let step := process_memory config age_days_of summarizer_fn.
Let forgets_in (h : Heap) := forgets config age_days_of h.

(** The store after the loop body. *)
Lemma process_memory_store b st a :
  _store (fst (step (b, st) a))
  = if forgets_in (objects b) a
    then remove_first (objects b) (mem_id (objects b a)) (_store b)
    else _store b.
Proof.
  unfold step, process_memory, forgets_in, forgets.
  destruct (Rlt_dec _ (forget_threshold config)); [reflexivity|].
  destruct (Rlt_dec _ (consolidation_threshold config)).
  - destruct (negb _); now rewrite persist_score_store.
  - destruct (Rgt_dec _ _); [now rewrite persist_score_store | reflexivity].
Qed.

(** The statistics after the loop body. *)
Lemma process_memory_stats b st a :
  let st' := snd (step (b, st) a) in
  (forgets_in (objects b) a = true /\ st' = add_forgotten st)
  \/
  (forgets_in (objects b) a = false /\
   (st' = st \/ st' = add_updated st
    \/ st' = add_updated (add_consolidated st)
    \/ (no_metadata (objects b) a = true /\
        default_score_consolidates config /\
        st' = add_error (add_consolidated st)))).
Proof.
  cbv zeta. unfold step, process_memory, forgets_in, forgets.
  destruct (Rlt_dec _ (forget_threshold config)) as [Hf | Hf];
    [left; split; reflexivity | right; split; [reflexivity|]].
  destruct (no_metadata (objects b) a) eqn:Hmd.
  - assert (Hnone : metadata (objects b a) = None)
      by (unfold no_metadata in Hmd; destruct (metadata (objects b a));
          [discriminate | reflexivity]).
    rewrite (calculate_decay_no_metadata _ _ _ Hnone) in *.
    unfold get_metadata in *. rewrite Hnone in *.
    cbn [get_importance_score get_consolidated empty_metadata
         importance_score consolidated negb] in *.
    destruct (Rlt_dec _ (consolidation_threshold config)) as [Hc | Hc].
    + right. right. right. rewrite persist_score_stats. cbn [objects].
      rewrite consolidate_memory_no_metadata, Hmd.
      repeat split; try reflexivity; unfold default_score_consolidates; lra.
    + destruct (Rgt_dec _ _) as [Hd | Hd]; [| now left].
      exfalso. revert Hd. apply Rabs_diag_small.
  - destruct (Rlt_dec _ (consolidation_threshold config)) as [Hc | Hc].
    + destruct (negb _); rewrite persist_score_stats; cbn [objects].
      * rewrite consolidate_memory_no_metadata, Hmd. right. right. now left.
      * rewrite Hmd. right. now left.
    + destruct (Rgt_dec _ _); [| now left].
      rewrite persist_score_stats, Hmd. right. now left.
Qed.

(** The loop body changes no id and no embedding, and removes no
    metadata dict. *)
Lemma process_memory_identity b st a x :
  mem_id (objects (fst (step (b, st) a)) x) = mem_id (objects b x) /\
  embedding (objects (fst (step (b, st) a)) x) = embedding (objects b x) /\
  (metadata (objects b x) <> None ->
   metadata (objects (fst (step (b, st) a)) x) <> None).
Proof.
  unfold step, process_memory.
  destruct (Rlt_dec _ (forget_threshold config)); [now repeat split|].
  destruct (Rlt_dec _ (consolidation_threshold config)).
  - destruct (negb _).
    + rewrite persist_score_mem_id, persist_score_embedding. cbn [objects].
      rewrite consolidate_memory_mem_id, consolidate_memory_embedding.
      repeat split. intros Hx. apply persist_score_metadata_kept.
      cbn [objects]. now apply consolidate_memory_metadata_kept.
    + rewrite persist_score_mem_id, persist_score_embedding.
      repeat split. apply persist_score_metadata_kept.
  - destruct (Rgt_dec _ _); [| now repeat split].
    rewrite persist_score_mem_id, persist_score_embedding.
    repeat split. apply persist_score_metadata_kept.
Qed.

Lemma fold_process_memory_statistics rest :
  forall b st,
    (forall i, (count_id (objects b) i rest
                <= count_id (objects b) i (_store b))%nat) ->
    let r := fold_left step rest (b, st) in
    total (snd r) = total st /\
    (List.length (_store (fst r)) + forgotten (snd r)
     = List.length (_store b) + forgotten st)%nat /\
    subseq (_store (fst r)) (_store b) /\
    (forgotten (snd r) + updated (snd r) + errors (snd r)
     <= forgotten st + updated st + errors st + List.length rest)%nat /\
    (consolidated_count (snd r) + (updated st + errors st)
     <= consolidated_count st + (updated (snd r) + errors (snd r)))%nat /\
    (errors (snd r)
     <= errors st
        + List.length (filter (no_metadata (objects b)) rest))%nat /\
    (~ default_score_consolidates config -> errors (snd r) = errors st).
Proof.
  induction rest as [| a rest IH]; intros b st Hcount; cbv zeta;
    cbn [fold_left].
  - cbn [fst snd List.length filter]. repeat split; try lia.
    apply subseq_refl.
  - pose proof (process_memory_store b st a) as Hstore.
    pose proof (process_memory_stats b st a) as Hstats.
    pose proof (process_memory_identity b st a) as Hid.
    cbv zeta in Hstats.
    destruct (step (b, st) a) as [b1 st1] eqn:Hstep. cbn [fst snd] in *.
    assert (Hids : forall x, mem_id (objects b1 x) = mem_id (objects b x))
      by (intros x; apply Hid).
    assert (Hnomd : (List.length (filter (no_metadata (objects b1)) rest)
                     <= List.length (filter (no_metadata (objects b)) rest))
                    %nat).
    { apply filter_length_le. intros x. unfold no_metadata.
      destruct (Hid x) as (_ & _ & Hkept).
      destruct (metadata (objects b x)); [| reflexivity].
      destruct (metadata (objects b1 x)); [tauto|].
      exfalso. now apply Hkept. }
    assert (Hcount1 : forall i, (count_id (objects b1) i rest
                                 <= count_id (objects b1) i (_store b1))%nat).
    { intros i.
      rewrite (count_id_ext (objects b) (objects b1) i rest) by exact Hids.
      rewrite (count_id_ext (objects b) (objects b1) i (_store b1))
        by exact Hids.
      rewrite Hstore. specialize (Hcount i).
      rewrite count_id_cons in Hcount.
      destruct (forgets_in (objects b) a).
      - rewrite count_id_remove_first.
        destruct (String.eqb (mem_id (objects b a)) i); lia.
      - destruct (String.eqb (mem_id (objects b a)) i); lia. }
    specialize (IH b1 st1 Hcount1). cbv zeta in IH.
    destruct IH as (Ht & Hlen & Hsub & Hsum & Hcons & Herr & Hnoerr).
    assert (Hlen1 : (List.length (_store b1) + forgotten st1
                     = List.length (_store b) + forgotten st)%nat
                    /\ subseq (_store b1) (_store b)).
    { rewrite Hstore.
      destruct Hstats as [[Hf ->] | [Hf Hst]]; rewrite Hf.
      - split; [| apply remove_first_subseq].
        specialize (Hcount (mem_id (objects b a))).
        rewrite count_id_cons, String.eqb_refl in Hcount.
        destruct (count_id_find (objects b) (mem_id (objects b a))
                    (_store b)) as [x Hx]; [lia|].
        pose proof (remove_first_length _ _ _ _ Hx) as Hl.
        cbn [forgotten add_forgotten]. lia.
      - split; [| apply subseq_refl].
        destruct Hst as [-> | [-> | [-> | (_ & _ & ->)]]]; reflexivity. }
    destruct Hlen1 as [Hlen1 Hsub1].
    cbn [List.length filter].
    assert (Hcases :
              total st1 = total st /\
              (forgotten st1 + updated st1 + errors st1
               <= S (forgotten st + updated st + errors st))%nat /\
              (consolidated_count st1 + (updated st + errors st)
               <= consolidated_count st + (updated st1 + errors st1))%nat /\
              (updated st <= updated st1)%nat /\
              (errors st <= errors st1)%nat /\
              (errors st1
               <= errors st
                  + (if no_metadata (objects b) a then 1 else 0))%nat /\
              (~ default_score_consolidates config ->
               errors st1 = errors st)).
    { destruct Hstats as [[_ ->] | [_ [-> | [-> | [-> | (Hmd & Hband & ->)]]]]];
        cbn; try rewrite Hmd; repeat split; try lia;
        try (destruct (no_metadata (objects b) a); lia);
        try (intros Hn; contradiction). }
    destruct Hcases as (Ht1 & Hsum1 & Hcons1 & Hu1 & He1 & Herr1 & Hnoerr1).
    repeat split.
    + congruence.
    + lia.
    + eapply subseq_trans; eauto.
    + lia.
    + lia.
    + destruct (no_metadata (objects b) a); cbn [List.length]; lia.
    + intros Hn. rewrite Hnoerr, Hnoerr1 by exact Hn. reflexivity.
Qed.

End CycleStatistics.

Lemma count_id_refl_le h i l : (count_id h i l <= count_id h i l)%nat.
Proof. lia. Qed.

(** X7.  The statistics of a cycle add up, whatever the store holds:
    [total] is the number of stored dicts; the dicts stored after the
    cycle are dicts stored before it, in their former order, and their
    number plus [forgotten] is [total]; every dict is counted at most once
    among [forgotten], [updated] and [errors]; and every dict counted in
    [consolidated] is also counted in [updated] or in [errors]. *)
Theorem cycle_statistics_add_up config age_days_of summarizer_fn b :
  let r := run_decay_cycle config age_days_of summarizer_fn b in
  total (snd r) = List.length (_store b) /\
  (List.length (_store (fst r)) + forgotten (snd r) = total (snd r))%nat /\
  subseq (_store (fst r)) (_store b) /\
  (forgotten (snd r) + updated (snd r) + errors (snd r) <= total (snd r))%nat
  /\
  (consolidated_count (snd r) <= updated (snd r) + errors (snd r))%nat.
Proof.
  cbv zeta. unfold run_decay_cycle, InMemoryBackend.get_all.
  destruct (fold_process_memory_statistics config age_days_of summarizer_fn
              (_store b) b (mkStats (List.length (_store b)) 0 0 0 0)
              (fun i => count_id_refl_le (objects b) i (_store b)))
    as (Ht & Hlen & Hsub & Hsum & Hcons & _ & _).
  cbn [total forgotten updated errors consolidated_count] in *.
  rewrite Ht. repeat split; try assumption; lia.
Qed.

(** X8.  Under a configuration whose decay rate and minimum age are not
    negative, so that the exponent of the decay is never positive and
    [math.exp] cannot overflow, a cycle counts an error only for a stored
    dict that has no ["metadata"] key, and only where the default score
    0.5 lies in the consolidation band: [errors] is at most the number of
    such dicts, and it is 0 when
    [forget_threshold <= 0.5 < consolidation_threshold] does not hold, as
    under the default thresholds 0.2 and 0.4. *)
Theorem cycle_errors_need_missing_metadata
    config age_days_of summarizer_fn b :
  0 <= decay_rate config ->
  (0 <= min_age_days config)%Z ->
  let r := run_decay_cycle config age_days_of summarizer_fn b in
  (errors (snd r)
   <= List.length (filter (no_metadata (objects b)) (_store b)))%nat
  /\
  (~ default_score_consolidates config -> errors (snd r) = 0%nat).
Proof.
  intros _ _. cbv zeta. unfold run_decay_cycle, InMemoryBackend.get_all.
  destruct (fold_process_memory_statistics config age_days_of summarizer_fn
              (_store b) b (mkStats (List.length (_store b)) 0 0 0 0)
              (fun i => count_id_refl_le (objects b) i (_store b)))
    as (_ & _ & _ & _ & _ & Herr & Hnoerr).
  cbn [errors] in *. split; [exact Herr | exact Hnoerr].
Qed.

Lemma cycle_errors_need_missing_metadata_witness :
  errors
    (snd (run_decay_cycle default_config (clock 20) failing_summarizer
            (single (mkMemory "m0" None None None None))))
  = 0%nat.
Proof.
  destruct (cycle_errors_need_missing_metadata default_config (clock 20)
              failing_summarizer
              (single (mkMemory "m0" None None None None)))
    as [_ Hnone].
  - simpl. lra.
  - simpl. lia.
  - apply Hnone. unfold default_score_consolidates, default_config.
    simpl. lra.
Defined.

Section CycleIdentity.

Variable config : DecayConfig.
Variable age_days_of : string -> option Z.
Variable summarizer_fn : option (string -> Z -> Z -> option string).

Let step := process_memory config age_days_of summarizer_fn.

Lemma fold_process_memory_identity rest :
  forall b st x,
    let b' := fst (fold_left step rest (b, st)) in
    mem_id (objects b' x) = mem_id (objects b x) /\
    embedding (objects b' x) = embedding (objects b x) /\
    (metadata (objects b x) <> None -> metadata (objects b' x) <> None).
Proof.
  induction rest as [| a rest IH]; intros b st x; cbv zeta; cbn [fold_left].
  - cbn [fst]. repeat split. tauto.
  - destruct (process_memory_identity config age_days_of summarizer_fn
                b st a x) as (Hid & Hemb & Hmd).
    fold step in Hid, Hemb, Hmd.
    destruct (step (b, st) a) as [b1 st1]. cbn [fst] in *.
    destruct (IH b1 st1 x) as (Hid' & Hemb' & Hmd').
    repeat split; [congruence | congruence | tauto].
Qed.

End CycleIdentity.

Lemma process_memory_texts_without_summarizer
    config age_days_of b st a x :
  let b' := fst (process_memory config age_days_of None (b, st) a) in
  raw (objects b' x) = raw (objects b x) /\
  content_summary (objects b' x) = content_summary (objects b x).
Proof.
  cbv zeta. unfold process_memory.
  destruct (Rlt_dec _ (forget_threshold config)); [now split|].
  destruct (Rlt_dec _ (consolidation_threshold config)).
  - destruct (negb _); cbn [consolidate_memory];
      destruct (persist_score_texts
                  (mkBackend (objects b) (_store b) (calls b))
                  (add_consolidated st) a (mem_id (objects b a))
                  (calculate_decay config age_days_of (objects b a)) x)
        as [Hr Hc];
      destruct (persist_score_texts b st a (mem_id (objects b a))
                  (calculate_decay config age_days_of (objects b a)) x)
        as [Hr' Hc']; split; assumption.
  - destruct (Rgt_dec _ _); [| now split].
    apply persist_score_texts.
Qed.

Lemma fold_process_memory_texts_without_summarizer
    config age_days_of rest :
  forall b st x,
    let b' :=
      fst (fold_left (process_memory config age_days_of None) rest (b, st)) in
    raw (objects b' x) = raw (objects b x) /\
    content_summary (objects b' x) = content_summary (objects b x).
Proof.
  induction rest as [| a rest IH]; intros b st x; cbv zeta; cbn [fold_left].
  - now split.
  - destruct (process_memory_texts_without_summarizer config age_days_of
                b st a x) as [Hr Hc].
    destruct (process_memory config age_days_of None (b, st) a) as [b1 st1].
    cbn [fst] in *. destruct (IH b1 st1 x) as [Hr' Hc'].
    split; congruence.
Qed.

(** X9.  Whatever the store holds, a cycle changes the ["id"] and the
    ["embedding"] of no dict and removes the ["metadata"] key of none; and
    the cycle of an engine without a summarizer changes the text of no
    dict. *)
Theorem cycle_keeps_ids_and_embeddings config age_days_of b x :
  (forall summarizer_fn,
     let b' := fst (run_decay_cycle config age_days_of summarizer_fn b) in
     mem_id (objects b' x) = mem_id (objects b x) /\
     embedding (objects b' x) = embedding (objects b x) /\
     (no_metadata (objects b) x = false ->
      no_metadata (objects b') x = false))
  /\
  (let b' := fst (run_decay_cycle config age_days_of None b) in
   raw (objects b' x) = raw (objects b x) /\
   content_summary (objects b' x) = content_summary (objects b x)).
Proof.
  split.
  - intros summarizer_fn. cbv zeta.
    unfold run_decay_cycle, InMemoryBackend.get_all.
    destruct (fold_process_memory_identity config age_days_of summarizer_fn
                (_store b) b (mkStats (List.length (_store b)) 0 0 0 0) x)
      as (Hid & Hemb & Hmd).
    repeat split; [exact Hid | exact Hemb |].
    unfold no_metadata. intros H0.
    destruct (metadata (objects b x)) eqn:Hx; [| discriminate].
    match goal with
    | |- match ?m with _ => _ end = _ => destruct m eqn:Hm
    end; [reflexivity|].
    exfalso. apply Hmd; [discriminate | reflexivity].
  - apply fold_process_memory_texts_without_summarizer.
Qed.

Lemma cycle_keeps_ids_and_embeddings_witness :
  no_metadata
    (objects
       (fst (run_decay_cycle default_config (clock 20) failing_summarizer
               (single (example_record "m0" (3 / 10) 1 today)))))
    0%nat
  = false.
Proof.
  destruct (cycle_keeps_ids_and_embeddings default_config (clock 20)
              (single (example_record "m0" (3 / 10) 1 today)) 0%nat)
    as [Hany _].
  destruct (Hany failing_summarizer) as (_ & _ & Hmd).
  apply Hmd. reflexivity.
Defined.

(** ** A decay cycle on a store with distinct ids *)

Lemma with_score_fields memory v :
  mem_id (with_score memory v) = mem_id memory /\
  raw (with_score memory v) = raw memory /\
  content_summary (with_score memory v) = content_summary memory /\
  embedding (with_score memory v) = embedding memory /\
  timestamp (get_metadata (with_score memory v))
  = timestamp (get_metadata memory) /\
  access_count (get_metadata (with_score memory v))
  = access_count (get_metadata memory) /\
  consolidated (get_metadata (with_score memory v))
  = consolidated (get_metadata memory).
Proof.
  unfold with_score, get_metadata.
  destruct (metadata memory) as [md|] eqn:Hmd; cbn; rewrite ?Hmd;
    repeat split; reflexivity.
Qed.

Lemma with_score_score memory v :
  get_importance_score (get_metadata (with_score memory v))
  = if no_metadata (fun _ => memory) 0%nat
    then get_importance_score (get_metadata memory) else v.
Proof.
  unfold with_score, get_metadata, no_metadata.
  destruct (metadata memory) as [md|] eqn:Hmd; cbn; rewrite ?Hmd;
    reflexivity.
Qed.

Lemma persist_score_with_score b st a memory_id new_score :
  objects (fst (persist_score b st a memory_id new_score)) a
  = with_score (objects b a) new_score.
Proof. apply persist_score_own. Qed.

Lemma calculate_decay_le config age_days_of memory :
  0 <= get_importance_score (get_metadata memory) <= 1 ->
  0 <= decay_rate config ->
  (0 <= min_age_days config)%Z ->
  calculate_decay config age_days_of memory
  <= get_importance_score (get_metadata memory).
Proof.
  intros Hs Hrate Hmin.
  destruct (keeps_or_decays config age_days_of memory) as [Hk | [age Hd]].
  - rewrite calculate_decay_keeps by assumption. lra.
  - rewrite (calculate_decay_decays _ _ _ _ Hd).
    pose proof (decays_at_age_nonneg _ _ _ _ Hmin Hd) as Hage.
    set (s := get_importance_score (get_metadata memory)) in *.
    set (a := Z.max 1 (get_access_count (get_metadata memory))).
    assert (Ha : (1 <= a)%Z) by (unfold a; lia).
    pose proof (decay_exponent_nonpos _ _ _ Hrate Hage Ha) as He.
    apply exp_nonpos_le_1 in He.
    pose proof (exp_pos (- decay_rate config * IZR age / (ln (IZR a) + 1)))
      as Hp.
    rewrite clamp01_id; nra.
Qed.

Lemma NoDup_map_filter {A B} (f : A -> B) (p : A -> bool) l :
  NoDup (map f l) -> NoDup (map f (filter p l)).
Proof.
  induction l as [| y t IH]; simpl; intros Hnd; [constructor|].
  inversion Hnd as [| ? ? Hnotin Hnd']; subst.
  destruct (p y); [| now apply IH].
  simpl. constructor; [| now apply IH].
  intros Hin. apply Hnotin. apply in_map_iff in Hin.
  destruct Hin as (z & Hz & Hin). apply filter_In in Hin.
  apply in_map_iff. exists z. tauto.
Qed.

Section CycleDistinctIds.

Variable config : DecayConfig.
Variable age_days_of : string -> option Z.
Variable summarizer_fn : option (string -> Z -> Z -> option string).

Let step := process_memory config age_days_of summarizer_fn.
Let cycle := run_decay_cycle config age_days_of summarizer_fn.
Let new_score (b : Backend) (a : nat) :=
  calculate_decay config age_days_of (objects b a).

(** What the loop body leaves of the dict it runs on. *)
Lemma process_memory_own_fields b st a :
  let m' := objects (fst (step (b, st) a)) a in
  timestamp (get_metadata m') = timestamp (get_metadata (objects b a)) /\
  access_count (get_metadata m')
  = access_count (get_metadata (objects b a)).
Proof.
  cbv zeta. unfold step, process_memory.
  destruct (Rlt_dec _ (forget_threshold config)); [now split|].
  destruct (Rlt_dec _ (consolidation_threshold config)).
  - destruct (negb _); rewrite persist_score_with_score; cbn [objects].
    + destruct (with_score_fields
                  (consolidate_memory summarizer_fn (objects b) a a)
                  (calculate_decay config age_days_of (objects b a)))
        as (_ & _ & _ & _ & Hts & Hac & _).
      destruct (consolidate_memory_at summarizer_fn (objects b) a)
        as (_ & _ & _ & Hac' & Hts' & _).
      split; congruence.
    + destruct (with_score_fields (objects b a)
                  (calculate_decay config age_days_of (objects b a)))
        as (_ & _ & _ & _ & Hts & Hac & _).
      split; assumption.
  - destruct (Rgt_dec _ _); [| now split].
    rewrite persist_score_with_score.
    destruct (with_score_fields (objects b a)
                (calculate_decay config age_days_of (objects b a)))
      as (_ & _ & _ & _ & Hts & Hac & _).
    split; assumption.
Qed.

(** The score the loop body leaves in the dict it runs on. *)
Lemma process_memory_own_score b st a :
  let v := score_at (objects (fst (step (b, st) a))) a in
  v = new_score b a \/
  (v = score_at (objects b) a /\
   (new_score b a < forget_threshold config \/
    Rabs (new_score b a - score_at (objects b) a) <= 1 / 100)).
Proof.
  cbv zeta. unfold step, process_memory, new_score, score_at.
  destruct (Rlt_dec _ (forget_threshold config)) as [Hf | Hf];
    [right; split; [reflexivity | now left]|].
  destruct (Rlt_dec _ (consolidation_threshold config)).
  - assert (Hnone : forall m,
              metadata m = metadata (objects b a) \/
              (metadata m <> None /\ metadata (objects b a) <> None) ->
              get_importance_score (get_metadata m)
              = get_importance_score (get_metadata (objects b a)) ->
              get_importance_score
                (get_metadata
                   (with_score m
                      (calculate_decay config age_days_of (objects b a))))
              = calculate_decay config age_days_of (objects b a)).
    { intros m Hm Hs. rewrite with_score_score. unfold no_metadata.
      destruct (metadata m) eqn:Hmd; [reflexivity|].
      rewrite Hs. symmetry. apply calculate_decay_no_metadata.
      destruct Hm as [Hm | [Hm _]]; congruence. }
    left. destruct (negb _); rewrite persist_score_with_score; cbn [objects].
    + destruct (consolidate_memory_at summarizer_fn (objects b) a)
        as (_ & _ & Hsc & _ & _ & Hiff). apply Hnone.
      * destruct (metadata (consolidate_memory summarizer_fn (objects b) a a))
          eqn:H1; destruct (metadata (objects b a)) eqn:H2.
        -- right. split; discriminate.
        -- exfalso. destruct Hiff as [_ Hb]. now specialize (Hb eq_refl).
        -- exfalso. destruct Hiff as [Ha _]. now specialize (Ha eq_refl).
        -- now left.
      * unfold get_importance_score. now rewrite Hsc.
    + apply Hnone; [now left | reflexivity].
  - destruct (Rgt_dec _ _) as [Hd | Hd].
    + left. rewrite persist_score_with_score, with_score_score.
      unfold no_metadata.
      destruct (metadata (objects b a)) eqn:Hmd; [reflexivity|].
      symmetry. now apply calculate_decay_no_metadata.
    + right. split; [reflexivity|]. right. lra.
Qed.

(** The texts the loop body leaves in the dict it runs on, when it does
    not consolidate it. *)
Lemma process_memory_own_texts b st a :
  get_consolidated (get_metadata (objects b a)) = true \/
  ~ in_consolidation_band config age_days_of (objects b a) ->
  let m' := objects (fst (step (b, st) a)) a in
  raw m' = raw (objects b a) /\
  content_summary m' = content_summary (objects b a) /\
  consolidated (get_metadata m') = consolidated (get_metadata (objects b a)).
Proof.
  intros Hcase. cbv zeta. unfold step, process_memory.
  unfold in_consolidation_band in Hcase.
  destruct (Rlt_dec _ (forget_threshold config)) as [Hf | Hf];
    [now repeat split|].
  pose proof (with_score_fields (objects b a)
                (calculate_decay config age_days_of (objects b a)))
    as (_ & Hr & Hc & _ & _ & _ & Hco).
  destruct (Rlt_dec _ (consolidation_threshold config)) as [Hc' | Hc'].
  - destruct Hcase as [Hcons | Hband]; [| exfalso; apply Hband; lra].
    rewrite Hcons. cbn [negb]. rewrite persist_score_with_score.
    repeat split; assumption.
  - destruct (Rgt_dec _ _); [| now repeat split].
    rewrite persist_score_with_score. repeat split; assumption.
Qed.

End CycleDistinctIds.

Lemma run_decay_cycle_outside config age_days_of summarizer_fn b x :
  NoDup (stored_ids (objects b) (_store b)) ->
  ~ In x (_store b) ->
  objects (fst (run_decay_cycle config age_days_of summarizer_fn b)) x
  = objects b x.
Proof.
  intros Hnd Hx. unfold run_decay_cycle, InMemoryBackend.get_all.
  destruct (fold_process_memory_local config age_days_of summarizer_fn
              (_store b) [] b
              (mkStats (List.length (_store b)) 0 0 0 0) eq_refl Hnd)
    as [Hout _].
  now apply Hout.
Qed.

Lemma run_decay_cycle_distinct config age_days_of summarizer_fn b :
  NoDup (stored_ids (objects b) (_store b)) ->
  let b' := fst (run_decay_cycle config age_days_of summarizer_fn b) in
  NoDup (stored_ids (objects b') (_store b')).
Proof.
  intros Hnd. cbv zeta.
  rewrite run_decay_cycle_store by exact Hnd.
  rewrite (stored_ids_ext (objects b)).
  - unfold stored_ids. now apply NoDup_map_filter.
  - intros x.
    apply (fold_process_memory_identity config age_days_of summarizer_fn
             (_store b) b (mkStats (List.length (_store b)) 0 0 0 0) x).
Qed.

(** X10.  On a store whose dicts have distinct ids, a cycle changes the
    timestamp and the access count of no dict, leaves every dict that is
    not stored exactly as it is, and the ids of the dicts stored after the
    cycle are distinct again. *)
Theorem cycle_keeps_timestamps_and_access_counts
    config age_days_of summarizer_fn b :
  NoDup (stored_ids (objects b) (_store b)) ->
  let b' := fst (run_decay_cycle config age_days_of summarizer_fn b) in
  (forall x,
     timestamp (get_metadata (objects b' x))
     = timestamp (get_metadata (objects b x)) /\
     access_count (get_metadata (objects b' x))
     = access_count (get_metadata (objects b x)))
  /\
  (forall x, ~ In x (_store b) -> objects b' x = objects b x)
  /\
  NoDup (stored_ids (objects b') (_store b')).
Proof.
  intros Hnd. cbv zeta. split; [| split].
  - intros x. destruct (in_dec Nat.eq_dec x (_store b)) as [Hin | Hout].
    + rewrite (run_decay_cycle_local config age_days_of summarizer_fn b
                 (mkStats 0 0 0 0 0) x Hnd Hin).
      apply process_memory_own_fields.
    + rewrite run_decay_cycle_outside by assumption. now split.
  - intros x Hx. now apply run_decay_cycle_outside.
  - now apply run_decay_cycle_distinct.
Qed.

Lemma cycle_keeps_timestamps_and_access_counts_witness :
  timestamp
    (get_metadata
       (objects
          (fst (run_decay_cycle default_config (clock 20) failing_summarizer
                  (single (example_record "m0" (9 / 10) 3 today))))
          0%nat))
  = today.
Proof.
  destruct (cycle_keeps_timestamps_and_access_counts default_config
              (clock 20) failing_summarizer
              (single (example_record "m0" (9 / 10) 3 today)))
    as (Hfields & _ & _).
  - simpl. constructor; [simpl; tauto | constructor].
  - destruct (Hfields 0%nat) as [Hts _]. exact Hts.
Defined.

(** X11.  On a store with distinct ids, a record whose recomputed score is
    not below the forget threshold is still stored after the cycle, and
    its stored score is then the recomputed score, or its former score
    when that is within 0.01 of the recomputed one; so it is at least
    [forget_threshold - 0.01].  A record that is forgotten is removed from
    the store with its dict as it was. *)
Theorem cycle_scores_follow_recomputation
    config age_days_of summarizer_fn b a :
  NoDup (stored_ids (objects b) (_store b)) ->
  In a (_store b) ->
  let b' := fst (run_decay_cycle config age_days_of summarizer_fn b) in
  let new_score := calculate_decay config age_days_of (objects b a) in
  (new_score >= forget_threshold config ->
   In a (_store b') /\
   (score_at (objects b') a = new_score \/
    score_at (objects b') a = score_at (objects b) a) /\
   Rabs (score_at (objects b') a - new_score) <= 1 / 100 /\
   score_at (objects b') a >= forget_threshold config - 1 / 100)
  /\
  (new_score < forget_threshold config ->
   ~ In a (_store b') /\ objects b' a = objects b a).
Proof.
  intros Hnd Hin. cbv zeta. split.
  - intros Hge.
    split; [now apply run_decay_cycle_keeps|].
    unfold score_at at 1 2 4 5.
    rewrite (run_decay_cycle_local config age_days_of summarizer_fn b
               (mkStats 0 0 0 0 0) a Hnd Hin).
    fold (score_at
            (objects (fst (process_memory config age_days_of summarizer_fn
                             (b, mkStats 0 0 0 0 0) a))) a).
    destruct (process_memory_own_score config age_days_of summarizer_fn
                b (mkStats 0 0 0 0 0) a) as [Hv | [Hv [Hf | Hd]]].
    + rewrite Hv. split; [now left|].
      rewrite Rminus_diag, Rabs_R0. split; lra.
    + lra.
    + rewrite Hv. split; [now right|].
      rewrite Rabs_minus_sym. split; [exact Hd|].
      unfold Rabs in Hd. destruct (Rcase_abs _) in Hd; lra.
  - intros Hlt. split.
    + rewrite run_decay_cycle_store by exact Hnd.
      intros Hf. apply filter_In in Hf. destruct Hf as [_ Hf].
      unfold forgets in Hf. destruct (Rlt_dec _ _); [discriminate|].
      contradiction.
    + rewrite (run_decay_cycle_local config age_days_of summarizer_fn b
                 (mkStats 0 0 0 0 0) a Hnd Hin).
      now rewrite process_memory_forget.
Qed.

Lemma cycle_scores_follow_recomputation_witness :
  In 0%nat
     (_store
        (fst (run_decay_cycle default_config (clock 0) failing_summarizer
                (single (example_record "m0" (9 / 10) 1 today))))).
Proof.
  destruct (cycle_scores_follow_recomputation default_config (clock 0)
              failing_summarizer
              (single (example_record "m0" (9 / 10) 1 today)) 0%nat)
    as [Hkept _].
  - simpl. constructor; [simpl; tauto | constructor].
  - simpl. tauto.
  - apply Hkept. cbn [single objects].
    rewrite calculate_decay_keeps by (apply example_young; simpl; lia).
    unfold_example. lra.
Defined.

(** X12.  On a store with distinct ids, under a configuration whose decay
    rate and minimum age are not negative, a cycle does not raise the
    score of a dict whose score lies in [0,1]. *)
Theorem cycle_never_raises_a_score
    config age_days_of summarizer_fn b x :
  NoDup (stored_ids (objects b) (_store b)) ->
  0 <= decay_rate config ->
  (0 <= min_age_days config)%Z ->
  score_in_range (objects b) x ->
  score_at
    (objects (fst (run_decay_cycle config age_days_of summarizer_fn b))) x
  <= score_at (objects b) x.
Proof.
  intros Hnd Hrate Hmin Hrange.
  destruct (in_dec Nat.eq_dec x (_store b)) as [Hin | Hout].
  - unfold score_at at 1.
    rewrite (run_decay_cycle_local config age_days_of summarizer_fn b
               (mkStats 0 0 0 0 0) x Hnd Hin).
    fold (score_at
            (objects (fst (process_memory config age_days_of summarizer_fn
                             (b, mkStats 0 0 0 0 0) x))) x).
    destruct (process_memory_own_score config age_days_of summarizer_fn
                b (mkStats 0 0 0 0 0) x) as [Hv | [Hv _]]; rewrite Hv.
    + now apply calculate_decay_le.
    + lra.
  - unfold score_at at 1. rewrite run_decay_cycle_outside by assumption.
    unfold score_at. lra.
Qed.

Lemma cycle_never_raises_a_score_witness :
  score_at
    (objects
       (fst (run_decay_cycle default_config (clock 20) failing_summarizer
               (single (example_record "m0" (9 / 10) 1 today)))))
    0%nat
  <= score_at (objects (single (example_record "m0" (9 / 10) 1 today)))
              0%nat.
Proof.
  apply (cycle_never_raises_a_score default_config (clock 20)
           failing_summarizer
           (single (example_record "m0" (9 / 10) 1 today)) 0%nat).
  - simpl. constructor; [simpl; tauto | constructor].
  - simpl. lra.
  - simpl. lia.
  - unfold score_in_range, score_at. unfold_example. lra.
Defined.

(** X13.  On a store with distinct ids, a cycle rewrites the texts and the
    consolidated flag of a stored dict only when it consolidates it: a
    dict that is already consolidated, or whose recomputed score is
    outside the consolidation band, has the same ["raw"],
    ["content_summary"] and ["consolidated"] after the cycle. *)
Theorem cycle_rewrites_text_only_when_consolidating
    config age_days_of summarizer_fn b a :
  NoDup (stored_ids (objects b) (_store b)) ->
  In a (_store b) ->
  get_consolidated (get_metadata (objects b a)) = true \/
  ~ in_consolidation_band config age_days_of (objects b a) ->
  let b' := fst (run_decay_cycle config age_days_of summarizer_fn b) in
  raw (objects b' a) = raw (objects b a) /\
  content_summary (objects b' a) = content_summary (objects b a) /\
  consolidated (get_metadata (objects b' a))
  = consolidated (get_metadata (objects b a)).
Proof.
  intros Hnd Hin Hcase. cbv zeta.
  rewrite (run_decay_cycle_local config age_days_of summarizer_fn b
             (mkStats 0 0 0 0 0) a Hnd Hin).
  now apply process_memory_own_texts.
Qed.

Lemma cycle_rewrites_text_only_when_consolidating_witness :
  raw
    (objects
       (fst (run_decay_cycle default_config (clock 0) empty_summarizer
               (single (example_record "m0" (9 / 10) 1 today))))
       0%nat)
  = Some "A knight fought a dragon in the mountains."%string.
Proof.
  destruct (cycle_rewrites_text_only_when_consolidating default_config
              (clock 0) empty_summarizer
              (single (example_record "m0" (9 / 10) 1 today)) 0%nat)
    as (Hraw & _ & _).
  - simpl. constructor; [simpl; tauto | constructor].
  - simpl. tauto.
  - right. unfold in_consolidation_band. cbn [single objects].
    rewrite calculate_decay_keeps by (apply example_young; simpl; lia).
    unfold_example. lra.
  - exact Hraw.
Defined.

(** X14.  On a store with distinct ids, a stored dict with metadata that
    is not yet consolidated, whose recomputed score lies in the
    consolidation band and for whose text the summarizer returns [gist],
    is still stored after the cycle with [gist] as its ["raw"] and its
    ["content_summary"], the consolidated flag set, the recomputed score
    as its score, and its timestamp and access count as before. *)
Theorem consolidation_replaces_text_by_gist
    config age_days_of summarizer_fn b a md gist :
  NoDup (stored_ids (objects b) (_store b)) ->
  In a (_store b) ->
  metadata (objects b a) = Some md ->
  get_consolidated md = false ->
  in_consolidation_band config age_days_of (objects b a) ->
  summarizer_returns summarizer_fn (objects b a) gist ->
  let b' := fst (run_decay_cycle config age_days_of summarizer_fn b) in
  In a (_store b') /\
  raw (objects b' a) = Some gist /\
  content_summary (objects b' a) = Some gist /\
  metadata (objects b' a)
  = Some (mkMetadata
            (Some (calculate_decay config age_days_of (objects b a)))
            (access_count md) (timestamp md) (Some true)).
Proof.
  intros Hnd Hin Hmd Hnc [Hf Hc] Hret. cbv zeta.
  split; [apply run_decay_cycle_keeps; try assumption; lra|].
  rewrite (run_decay_cycle_local config age_days_of summarizer_fn b
             (mkStats 0 0 0 0 0) a Hnd Hin).
  rewrite (process_memory_summarizer_returns config age_days_of
             summarizer_fn b (mkStats 0 0 0 0 0) a md gist Hmd Hnc
             (Rle_ge _ _ Hf) Hc Hret).
  repeat split.
Qed.

Lemma consolidation_replaces_text_by_gist_witness :
  raw
    (objects
       (fst (run_decay_cycle default_config (clock 0) gist_summarizer
               (single (example_record "m0" (3 / 10) 1 today))))
       0%nat)
  = Some "A knight fought a dragon."%string.
Proof.
  destruct (consolidation_replaces_text_by_gist default_config (clock 0)
              gist_summarizer
              (single (example_record "m0" (3 / 10) 1 today)) 0%nat
              (mkMetadata (Some (3 / 10)) (Some 1%Z) today None)
              "A knight fought a dragon."%string)
    as (_ & Hraw & _).
  - simpl. constructor; [simpl; tauto | constructor].
  - simpl. tauto.
  - reflexivity.
  - reflexivity.
  - unfold in_consolidation_band. cbn [single objects].
    rewrite calculate_decay_keeps by (apply example_young; simpl; lia).
    unfold_example. lra.
  - eexists. repeat split; reflexivity.
  - exact Hraw.
Defined.

(** X15.  Consolidation happens once: on a store with distinct ids, the
    gist a cycle has written into a dict is still its ["raw"] and its
    ["content_summary"] after a further cycle, whatever the
    configuration, the clock and the summarizer of that cycle. *)
Theorem consolidated_text_survives_next_cycle
    config1 age_days_of1 summarizer_fn1
    config2 age_days_of2 summarizer_fn2 b a md gist :
  NoDup (stored_ids (objects b) (_store b)) ->
  In a (_store b) ->
  metadata (objects b a) = Some md ->
  get_consolidated md = false ->
  in_consolidation_band config1 age_days_of1 (objects b a) ->
  summarizer_returns summarizer_fn1 (objects b a) gist ->
  let b1 := fst (run_decay_cycle config1 age_days_of1 summarizer_fn1 b) in
  let b2 := fst (run_decay_cycle config2 age_days_of2 summarizer_fn2 b1) in
  raw (objects b2 a) = Some gist /\
  content_summary (objects b2 a) = Some gist /\
  consolidated (get_metadata (objects b2 a)) = Some true.
Proof.
  intros Hnd Hin Hmd Hnc [Hf Hc] Hret. cbv zeta.
  set (b1 := fst (run_decay_cycle config1 age_days_of1 summarizer_fn1 b)).
  assert (Hin1 : In a (_store b1))
    by (apply run_decay_cycle_keeps; try assumption; lra).
  assert (Hnd1 : NoDup (stored_ids (objects b1) (_store b1)))
    by (now apply run_decay_cycle_distinct).
  assert (Hobj : objects b1 a
                 = set_metadata (set_texts (objects b a) gist)
                     (Some (set_importance_score (set_consolidated md true)
                              (calculate_decay config1 age_days_of1
                                               (objects b a))))).
  { unfold b1.
    rewrite (run_decay_cycle_local config1 age_days_of1 summarizer_fn1 b
               (mkStats 0 0 0 0 0) a Hnd Hin).
    now apply process_memory_summarizer_returns; try apply Rle_ge. }
  rewrite (run_decay_cycle_local config2 age_days_of2 summarizer_fn2 b1
             (mkStats 0 0 0 0 0) a Hnd1 Hin1).
  destruct (process_memory_own_texts config2 age_days_of2 summarizer_fn2
              b1 (mkStats 0 0 0 0 0) a) as (Hr & Hcs & Hco).
  - left. rewrite Hobj. reflexivity.
  - rewrite Hr, Hcs, Hco, Hobj. repeat split.
Qed.

Lemma consolidated_text_survives_next_cycle_witness :
  raw
    (objects
       (fst (run_decay_cycle default_config (clock 20) empty_summarizer
               (fst (run_decay_cycle default_config (clock 0)
                       gist_summarizer
                       (single (example_record "m0" (3 / 10) 1 today))))))
       0%nat)
  = Some "A knight fought a dragon."%string.
Proof.
  destruct (consolidated_text_survives_next_cycle default_config (clock 0)
              gist_summarizer default_config (clock 20) empty_summarizer
              (single (example_record "m0" (3 / 10) 1 today)) 0%nat
              (mkMetadata (Some (3 / 10)) (Some 1%Z) today None)
              "A knight fought a dragon."%string)
    as (Hraw & _ & _).
  - simpl. constructor; [simpl; tauto | constructor].
  - simpl. tauto.
  - reflexivity.
  - reflexivity.
  - unfold in_consolidation_band. cbn [single objects].
    rewrite calculate_decay_keeps by (apply example_young; simpl; lia).
    unfold_example. lra.
  - eexists. repeat split; reflexivity.
  - exact Hraw.
Defined.

(** ** Retrieval: what it changes and what it returns *)

Lemma same_but_access_count_refl m : same_but_access_count m m.
Proof. unfold same_but_access_count. repeat split; try tauto. lia. Qed.

Lemma same_but_access_count_trans m1 m2 m3 :
  same_but_access_count m1 m2 -> same_but_access_count m2 m3 ->
  same_but_access_count m1 m3.
Proof.
  unfold same_but_access_count.
  intros (A1 & A2 & A3 & A4 & A5 & A6 & A7 & A8 & A9)
         (B1 & B2 & B3 & B4 & B5 & B6 & B7 & B8 & B9).
  repeat split; try congruence; try tauto; lia.
Qed.

Lemma bump_access_count_frame h a h1 x :
  bump_access_count h a = Some h1 ->
  same_but_access_count (h x) (h1 x).
Proof.
  unfold bump_access_count. destruct (metadata (h a)) as [md|] eqn:Hmd;
    [| discriminate].
  intros [= <-].
  destruct (heap_set_cases h a
              (set_metadata (h a)
                 (Some (set_access_count md (get_access_count md + 1)))) x)
    as [[-> Hs] | [Hne Hs]]; rewrite Hs;
    [| apply same_but_access_count_refl].
  unfold same_but_access_count, get_metadata. rewrite Hmd. cbn.
  repeat split; try congruence; try discriminate. lia.
Qed.

Lemma lexical_score_ext query_tokens m m' :
  content_summary m' = content_summary m -> raw m' = raw m ->
  lexical_score query_tokens m' = lexical_score query_tokens m.
Proof.
  intros Hc Hr. unfold lexical_score, text_to_index. now rewrite Hc, Hr.
Qed.

Lemma overlap_le query_tokens content_tokens :
  (overlap query_tokens content_tokens <= List.length query_tokens)%nat.
Proof.
  unfold overlap. induction query_tokens as [| t rest IH]; simpl; [lia|].
  destruct (existsb _ _); simpl; lia.
Qed.

Lemma lexical_score_range query_tokens memory :
  0 <= lexical_score query_tokens memory <= 1.
Proof.
  unfold lexical_score.
  destruct (Nat.ltb_spec 0 (List.length query_tokens)) as [Hpos | Hz];
    [| lra].
  pose proof (overlap_le query_tokens
                (token_set (lower (text_to_index memory)))) as Hle.
  apply le_INR in Hle. apply lt_INR in Hpos. simpl in Hpos.
  pose proof (pos_INR (overlap query_tokens
                         (token_set (lower (text_to_index memory))))) as Hnn.
  split.
  - apply Rmult_le_pos; [exact Hnn|].
    left. now apply Rinv_0_lt_compat.
  - apply Rmult_le_reg_r with (r := INR (List.length query_tokens));
      [exact Hpos|].
    unfold Rdiv. rewrite Rmult_assoc, Rinv_l by lra. lra.
Qed.

(** What the two scoring loops do to the dicts and what they put in
    [results], whether they return or raise. *)
Lemma scan_memories_frame query_emb query_tokens hybrid_weight memories :
  forall h,
    let r := scan_memories query_emb query_tokens hybrid_weight h memories in
    (forall x, same_but_access_count (h x) (fst r x)) /\
    (forall results x,
       snd r = Some results -> In x results ->
       In (res_source x) memories /\
       has_embedding (h (res_source x)) = true /\
       is_hybrid_of hybrid_weight x /\
       debug_lexical x = lexical_score query_tokens (h (res_source x))).
Proof.
  induction memories as [| a rest IH]; intros h; cbv zeta.
  - cbn [scan_memories fst snd]. split.
    + intros x. apply same_but_access_count_refl.
    + intros results x [= <-] [].
  - cbn [scan_memories].
    destruct (has_embedding (h a)) eqn:Hemb; cbn [negb].
    + destruct (np_dot _ _) as [dot|];
        [| cbn [fst snd]; split;
           [intros x; apply same_but_access_count_refl | discriminate]].
      destruct (bump_access_count h a) as [h1|] eqn:Hbump;
        [| cbn [fst snd]; split;
           [intros x; apply same_but_access_count_refl | discriminate]].
      specialize (IH h1). cbv zeta in IH. destruct IH as [IHf IHr].
      destruct (scan_memories query_emb query_tokens hybrid_weight h1 rest)
        as [h2 results'] eqn:Hrest. cbn [fst snd] in *. split.
      * intros x. eapply same_but_access_count_trans; [| apply IHf].
        now apply bump_access_count_frame with (a := a).
      * intros results x Hres Hin.
        destruct results' as [results'|]; [| discriminate].
        cbn [option_map] in Hres. injection Hres as <-.
        destruct Hin as [<- | Hin].
        -- cbn [res_source score debug_semantic debug_lexical].
           split; [now left|]. split; [exact Hemb|].
           split; reflexivity.
        -- destruct (IHr results' x eq_refl Hin) as (Hsrc & He & Hhy & Hlex).
           pose proof (bump_access_count_frame h a h1 (res_source x) Hbump)
             as (_ & Hcs & Hraw & Hembx & _).
           split; [now right|]. split; [| split; [exact Hhy|]].
           ++ unfold has_embedding in *. now rewrite <- Hembx.
           ++ rewrite Hlex. now apply lexical_score_ext.
    + specialize (IH h). cbv zeta in IH. destruct IH as [IHf IHr].
      split; [exact IHf|].
      intros results x Hres Hin.
      destruct (IHr results x Hres Hin) as (Hsrc & He & Hhy & Hlex).
      split; [now right|]. split; [exact He|]. split; assumption.
Qed.

Lemma score_candidates_frame store query_tokens hybrid_weight candidates :
  forall h,
    let r :=
      score_candidates store query_tokens hybrid_weight h candidates in
    (forall x, same_but_access_count (h x) (fst r x)) /\
    (forall results x,
       snd r = Some results -> In x results ->
       In (res_source x) store /\
       In (mem_id (h (res_source x)), debug_semantic x) candidates /\
       is_hybrid_of hybrid_weight x /\
       debug_lexical x = lexical_score query_tokens (h (res_source x))).
Proof.
  induction candidates as [| [memory_id sem_score] rest IH]; intros h;
    cbv zeta.
  - cbn [score_candidates fst snd]. split.
    + intros x. apply same_but_access_count_refl.
    + intros results x [= <-] [].
  - cbn [score_candidates].
    destruct (find (has_id h memory_id) store) as [a|] eqn:Hfind.
    + destruct (bump_access_count h a) as [h1|] eqn:Hbump;
        [| cbn [fst snd]; split;
           [intros x; apply same_but_access_count_refl | discriminate]].
      specialize (IH h1). cbv zeta in IH. destruct IH as [IHf IHr].
      destruct (score_candidates store query_tokens hybrid_weight h1 rest)
        as [h2 results'] eqn:Hrest. cbn [fst snd] in *. split.
      * intros x. eapply same_but_access_count_trans; [| apply IHf].
        now apply bump_access_count_frame with (a := a).
      * intros results x Hres Hin.
        destruct results' as [results'|]; [| discriminate].
        cbn [option_map] in Hres. injection Hres as <-.
        apply find_has_id_some in Hfind. destruct Hfind as [Hina Hida].
        destruct Hin as [<- | Hin].
        -- cbn [res_source score debug_semantic debug_lexical].
           split; [exact Hina|]. split; [left; now rewrite Hida|].
           split; reflexivity.
        -- destruct (IHr results' x eq_refl Hin) as (Hsrc & Hc & Hhy & Hlex).
           pose proof (bump_access_count_frame h a h1 (res_source x) Hbump)
             as (Hidx & Hcs & Hraw & _).
           split; [exact Hsrc|].
           split; [right; now rewrite <- Hidx|].
           split; [exact Hhy|].
           rewrite Hlex. now apply lexical_score_ext.
    + specialize (IH h). cbv zeta in IH. destruct IH as [IHf IHr].
      split; [exact IHf|].
      intros results x Hres Hin.
      destruct (IHr results x Hres Hin) as (Hsrc & Hc & Hhy & Hlex).
      split; [exact Hsrc|]. split; [now right|]. split; assumption.
Qed.

Lemma py_index_In {A} (l : list A) (i : Z) x :
  py_index l i = Some x -> In x l.
Proof.
  unfold py_index. destruct (0 <=? i)%Z.
  - apply nth_error_In.
  - destruct (0 <=? _)%Z; [apply nth_error_In | discriminate].
Qed.

Lemma retrieve_hits_ids {FaissIndex} (r : FAISSRetriever FaissIndex) hits :
  forall found,
    retrieve_hits r hits = Some found ->
    (List.length found <= List.length hits)%nat /\
    forall memory_id s,
      In (memory_id, s) found ->
      exists idx,
        In (idx, s) hits /\ py_index (memory_ids r) idx = Some memory_id.
Proof.
  induction hits as [| [idx hit_score] rest IH]; intros found Hr;
    cbn [retrieve_hits] in Hr.
  - injection Hr as <-. split; [simpl; lia | intros ? ? []].
  - destruct (idx <? _)%Z.
    + destruct (Rge_dec hit_score (min_confidence r)).
      * destruct (py_index (memory_ids r) idx) as [memory_id|] eqn:Hidx;
          [| discriminate].
        destruct (retrieve_hits r rest) as [found'|]; [| discriminate].
        injection Hr as <-. destruct (IH found' eq_refl) as [Hlen Hin].
        split; [simpl; lia|].
        intros m s [[= <- <-] | Hm].
        -- exists idx. split; [now left | exact Hidx].
        -- destruct (Hin m s Hm) as (i & Hi & Hp).
           exists i. split; [now right | exact Hp].
      * destruct (IH found Hr) as [Hlen Hin]. split; [simpl; lia|].
        intros m s Hm. destruct (Hin m s Hm) as (i & Hi & Hp).
        exists i. split; [now right | exact Hp].
    + destruct (IH found Hr) as [Hlen Hin]. split; [simpl; lia|].
      intros m s Hm. destruct (Hin m s Hm) as (i & Hi & Hp).
      exists i. split; [now right | exact Hp].
Qed.

(** X16.  [FAISSRetriever.retrieve] returns two empty lists when FAISS is
    not available or no index is built.  Otherwise it returns at most one
    pair for each hit of the index search, and every pair returned holds
    the score of a hit and the id that [memory_ids] lists at the position
    of that hit. *)
Theorem retrieve_lists_known_ids {FaissIndex} index_search FAISS_AVAILABLE
    (r : FAISSRetriever FaissIndex) query_embedding top_k :
  (FAISS_AVAILABLE = false \/ faiss_index r = None ->
   retrieve index_search FAISS_AVAILABLE r query_embedding top_k = Some [])
  /\
  (forall idx found,
     FAISS_AVAILABLE = true ->
     faiss_index r = Some idx ->
     retrieve index_search FAISS_AVAILABLE r query_embedding top_k
     = Some found ->
     (List.length found
      <= List.length (index_search idx query_embedding top_k))%nat /\
     forall memory_id s,
       In (memory_id, s) found ->
       In memory_id (memory_ids r) /\
       exists position,
         In (position, s) (index_search idx query_embedding top_k) /\
         py_index (memory_ids r) position = Some memory_id).
Proof.
  split.
  - unfold retrieve. intros [-> | ->]; [reflexivity|].
    now destruct (negb FAISS_AVAILABLE).
  - intros idx found -> Hidx. unfold retrieve. rewrite Hidx. cbn [negb].
    intros Hr. destruct (retrieve_hits_ids r _ found Hr) as [Hlen Hin].
    split; [exact Hlen|].
    intros memory_id s Hm. destruct (Hin memory_id s Hm) as (i & Hi & Hp).
    split; [now apply py_index_In with (i := i)|].
    exists i. now split.
Qed.

Lemma retrieve_lists_known_ids_witness :
  retrieve two_record_search false two_record_index [1] 5 = Some [].
Proof.
  destruct (retrieve_lists_known_ids two_record_search false
              two_record_index [1] 5%Z) as [Hnone _].
  apply Hnone. now left.
Defined.

Lemma retrieve_memories_from_ltm_frame {FaissIndex} index_search
    generate_embedding FAISS_AVAILABLE (r : FAISSRetriever FaissIndex)
    h store query top_k use_faiss hybrid_weight x :
  same_but_access_count
    (h x)
    (fst (retrieve_memories_from_ltm index_search generate_embedding
            FAISS_AVAILABLE r h store query top_k use_faiss hybrid_weight)
         x).
Proof.
  unfold retrieve_memories_from_ltm.
  destruct store as [| a0 store0]; [apply same_but_access_count_refl|].
  destruct (generate_embedding query) as [query_embedding|];
    [| apply same_but_access_count_refl].
  cbv zeta. destruct (indexed_path FAISS_AVAILABLE r use_faiss).
  - destruct (retrieve _ _ _ _ _) as [candidates|];
      [| apply same_but_access_count_refl].
    unfold rank. cbn [fst]. apply score_candidates_frame.
  - unfold _fallback_retrieve, rank. cbn [fst]. apply scan_memories_frame.
Qed.

(** X17.  A retrieval, whether it returns or raises, changes nothing in
    any dict but the access count, which it never lowers: ids, texts,
    embeddings, scores, timestamps and consolidated flags are as before,
    and no metadata dict is added or removed. *)
Theorem retrieval_changes_only_access_counts {FaissIndex} index_search
    generate_embedding FAISS_AVAILABLE (r : FAISSRetriever FaissIndex)
    h store query top_k use_faiss hybrid_weight x :
  same_but_access_count
    (h x)
    (fst (retrieve_memories_from_ltm index_search generate_embedding
            FAISS_AVAILABLE r h store query top_k use_faiss hybrid_weight)
         x).
Proof. apply retrieve_memories_from_ltm_frame. Qed.

(** X18.  Every result a retrieval returns comes from a stored dict; its
    score is [hybrid_weight * semantic + (1 - hybrid_weight) * lexical];
    its lexical part is the share of the query tokens found among the
    tokens of the text of the dict, a number in [0,1].  On the linear scan
    the dict has an embedding; on the indexed path its id is one that
    [memory_ids] lists. *)
Theorem results_are_stored_dicts_with_hybrid_scores {FaissIndex}
    index_search generate_embedding FAISS_AVAILABLE
    (r : FAISSRetriever FaissIndex)
    h store query top_k use_faiss hybrid_weight out x :
  snd (retrieve_memories_from_ltm index_search generate_embedding
         FAISS_AVAILABLE r h store query top_k use_faiss hybrid_weight)
  = Some out ->
  In x out ->
  In (res_source x) store /\
  is_hybrid_of hybrid_weight x /\
  debug_lexical x
  = lexical_score (token_set (lower query)) (h (res_source x)) /\
  0 <= debug_lexical x <= 1 /\
  (if indexed_path FAISS_AVAILABLE r use_faiss
   then In (mem_id (h (res_source x))) (memory_ids r)
   else has_embedding (h (res_source x)) = true).
Proof.
  intros Hret Hin. rewrite retrieve_memories_from_ltm_rank in Hret.
  apply rank_some in Hret. destruct Hret as (results & Hres & ->).
  destruct (py_take_sort_desc_any results top_k) as (_ & _ & Hsub).
  apply Hsub in Hin. clear Hsub.
  unfold scored_results in Hres.
  destruct store as [| a0 store0];
    [cbn [snd] in Hres; injection Hres as <-; destruct Hin|].
  destruct (generate_embedding query) as [query_embedding|];
    [| discriminate].
  cbv zeta in Hres.
  destruct (indexed_path FAISS_AVAILABLE r use_faiss) eqn:Hpath.
  - destruct (retrieve index_search FAISS_AVAILABLE r query_embedding
                (top_k * 2)) as [candidates|] eqn:Hretr; [| discriminate].
    destruct (score_candidates_frame (a0 :: store0)
                (token_set (lower query)) hybrid_weight candidates h)
      as [_ Hx].
    destruct (Hx results x Hres Hin) as (Hsrc & Hc & Hhy & Hlex).
    split; [exact Hsrc|]. split; [exact Hhy|]. split; [exact Hlex|].
    split; [rewrite Hlex; apply lexical_score_range|].
    unfold retrieve in Hretr.
    destruct (negb FAISS_AVAILABLE);
      [injection Hretr as <-; destruct Hc|].
    destruct (faiss_index r) as [idx|];
      [| injection Hretr as <-; destruct Hc].
    destruct (retrieve_hits_ids r _ candidates Hretr) as [_ Hids].
    destruct (Hids _ _ Hc) as (i & _ & Hp).
    now apply py_index_In with (i := i).
  - destruct (scan_memories_frame query_embedding
                (token_set (lower query)) hybrid_weight (a0 :: store0) h)
      as [_ Hx].
    destruct (Hx results x Hres Hin) as (Hsrc & He & Hhy & Hlex).
    split; [exact Hsrc|]. split; [exact Hhy|]. split; [exact Hlex|].
    split; [rewrite Hlex; apply lexical_score_range | exact He].
Qed.

Lemma py_take_length {A} (l : list A) (k : Z) :
  (0 <= k)%Z ->
  List.length (py_take l k) = Nat.min (Z.to_nat k) (List.length l).
Proof.
  intros Hk. unfold py_take. apply Z.leb_le in Hk. rewrite Hk.
  apply length_firstn.
Qed.

(** X19.  For a [top_k] that is not negative, a linear scan that returns
    gives [min(top_k, n)] results, where [n] is the number of stored dicts
    with an embedding: all of them when there are at most [top_k]. *)
Theorem linear_scan_result_count {FaissIndex} index_search
    generate_embedding FAISS_AVAILABLE (r : FAISSRetriever FaissIndex)
    h store query top_k use_faiss hybrid_weight out :
  (0 <= top_k)%Z ->
  indexed_path FAISS_AVAILABLE r use_faiss = false ->
  snd (retrieve_memories_from_ltm index_search generate_embedding
         FAISS_AVAILABLE r h store query top_k use_faiss hybrid_weight)
  = Some out ->
  List.length out
  = Nat.min (Z.to_nat top_k) (List.length (scanned_memories h store)).
Proof.
  intros Hk Hpath Hret. rewrite retrieve_memories_from_ltm_rank in Hret.
  apply rank_some in Hret. destruct Hret as (results & Hres & ->).
  rewrite py_take_length by exact Hk. rewrite sort_desc_length.
  f_equal. unfold scored_results in Hres.
  destruct store as [| a0 store0];
    [cbn [snd] in Hres; injection Hres as <-; reflexivity|].
  destruct (generate_embedding query) as [query_embedding|];
    [| discriminate].
  cbv zeta in Hres. rewrite Hpath in Hres.
  destruct (scan_memories query_embedding (token_set (lower query))
              hybrid_weight h (a0 :: store0)) as [h' res] eqn:Hscan.
  cbn [snd] in Hres. subst res.
  destruct (scan_memories_spec _ _ _ _ _ _ _ Hscan) as (Hsrc & _).
  rewrite <- Hsrc. now rewrite length_map.
Qed.

Lemma two_records_scan_returns top_k :
  exists out,
    snd (retrieve_memories_from_ltm two_record_search constant_embedding
           false no_index two_records [0%nat; 1%nat] "dragon" top_k
           false (7 / 10))
    = Some out.
Proof.
  rewrite retrieve_memories_from_ltm_rank.
  unfold scored_results, constant_embedding, indexed_path. cbn [andb].
  destruct (two_records_scan (token_set (lower "dragon")) (7 / 10))
    as (h' & results & Hscan & _).
  rewrite Hscan. unfold rank. cbn [fst snd option_map]. eauto.
Qed.

Lemma linear_scan_result_count_witness :
  exists out,
    snd (retrieve_memories_from_ltm two_record_search constant_embedding
           false no_index two_records [0%nat; 1%nat] "dragon" 5
           false (7 / 10))
    = Some out /\
    List.length out = 2%nat.
Proof.
  destruct (two_records_scan_returns 5) as [out Hout].
  exists out. split; [exact Hout|].
  apply (linear_scan_result_count two_record_search constant_embedding
           false no_index two_records [0%nat; 1%nat] "dragon"%string 5%Z
           false (7 / 10) out).
  - lia.
  - reflexivity.
  - exact Hout.
Defined.

Lemma results_are_stored_dicts_with_hybrid_scores_witness :
  exists out,
    snd (retrieve_memories_from_ltm two_record_search constant_embedding
           false no_index two_records [0%nat; 1%nat] "dragon" 5
           false (7 / 10))
    = Some out /\
    forall x, In x out ->
              In (res_source x) [0%nat; 1%nat] /\
              is_hybrid_of (7 / 10) x.
Proof.
  destruct (two_records_scan_returns 5) as [out Hout].
  exists out. split; [exact Hout|].
  intros x Hx.
  destruct (results_are_stored_dicts_with_hybrid_scores two_record_search
              constant_embedding false no_index two_records
              [0%nat; 1%nat] "dragon"%string 5%Z false (7 / 10) out x
              Hout Hx) as (Hsrc & Hhy & _).
  split; assumption.
Defined.

(** ** Building the index and adding a memory *)

Lemma find_has_id_stored h l a :
  In a l -> exists x, find (has_id h (mem_id (h a))) l = Some x.
Proof.
  induction l as [| y t IH]; simpl; [tauto|].
  intros [-> | Hin].
  - unfold has_id at 1. rewrite String.eqb_refl. eauto.
  - destruct (has_id h (mem_id (h a)) y); [eauto | now apply IH].
Qed.

Lemma build_index_spec {FaissIndex} FAISS_AVAILABLE
    new_index (r : FAISSRetriever FaissIndex) h memories :
  let out := build_index FAISS_AVAILABLE new_index r h memories in
  (snd out = Some false <->
   FAISS_AVAILABLE = false \/ scanned_memories h memories = [])
  /\
  (snd out <> Some true -> fst out = r)
  /\
  (snd out = Some true ->
   faiss_index (fst out) <> None /\
   min_confidence (fst out) = min_confidence r /\
   memory_ids (fst out) = stored_ids h (scanned_memories h memories) /\
   forall memory_id,
     In memory_id (memory_ids (fst out)) ->
     exists a, find (has_id h memory_id) memories = Some a).
Proof.
  cbv zeta. unfold build_index, scanned_memories.
  destruct FAISS_AVAILABLE; cbn [negb].
  2: { cbn [fst snd]. repeat split; try tauto; try discriminate;
         try (intros _; now left). }
  destruct memories as [| a0 rest].
  { cbn [fst snd filter]. repeat split; try tauto; try discriminate;
      try (intros _; now right). }
  set (memories := a0 :: rest).
  destruct (filter (fun a => has_embedding (h a)) memories)
    as [| a1 indexed] eqn:Hf.
  { cbn [map fst snd]. repeat split; try tauto; try discriminate;
      try (intros _; now right). }
  cbn [map].
  destruct (new_index _) as [index|]; cbn [fst snd].
  - split; [split; [discriminate | intros [H | H]; discriminate]|].
    split; [intros H; now contradiction H|].
    intros _. cbn [faiss_index min_confidence memory_ids].
    split; [discriminate|]. split; [reflexivity|]. split; [reflexivity|].
    intros memory_id Hin.
    change (In memory_id (map (fun a => mem_id (h a)) (a1 :: indexed)))
      in Hin.
    apply in_map_iff in Hin. destruct Hin as (x & <- & Hx).
    apply find_has_id_stored. rewrite <- Hf in Hx.
    apply filter_In in Hx. tauto.
  - split; [split; [discriminate | intros [H | H]; discriminate]|].
    split; [reflexivity | discriminate].
Qed.

(** X20.  [build_index] returns [False], with the retriever as it was,
    exactly when FAISS is not available or no memory has an embedding; if
    it raises, the retriever is as it was, too.  When it returns [True]
    the retriever has an index, its confidence floor is unchanged, and
    [memory_ids] lists the ids of the memories that have an embedding, in
    their order, so that every listed id is the id of one of the
    memories. *)
Theorem build_index_lists_embedded_ids {FaissIndex} FAISS_AVAILABLE
    new_index (r : FAISSRetriever FaissIndex) h memories :
  let out := build_index FAISS_AVAILABLE new_index r h memories in
  (snd out = Some false <->
   FAISS_AVAILABLE = false \/ scanned_memories h memories = [])
  /\
  (snd out <> Some true -> fst out = r)
  /\
  (snd out = Some true ->
   faiss_index (fst out) <> None /\
   min_confidence (fst out) = min_confidence r /\
   memory_ids (fst out) = stored_ids h (scanned_memories h memories) /\
   forall memory_id,
     In memory_id (memory_ids (fst out)) ->
     exists a, find (has_id h memory_id) memories = Some a).
Proof. apply build_index_spec. Qed.

Lemma build_index_lists_embedded_ids_witness :
  memory_ids
    (fst (build_index true unit_index no_index two_records [0%nat; 1%nat]))
  = ["m0"; "m1"]%string.
Proof.
  destruct (build_index_lists_embedded_ids true unit_index no_index
              two_records [0%nat; 1%nat]) as (_ & _ & Hbuilt).
  destruct Hbuilt as (_ & _ & Hids & _); [reflexivity|].
  exact Hids.
Defined.

Section AddingMemories.

Variable FaissIndex : Type.
Variable FAISS_AVAILABLE : bool.
Variable new_index : list (list R) -> option FaissIndex.
Variable generate_embedding : string -> option (list R).
Variable object_id : nat -> MemoryObj -> string.
Variable utcnow : string.

Let add := add_memory_to_ltm FAISS_AVAILABLE new_index generate_embedding
                             object_id utcnow.
Let completed := completed_memory object_id utcnow.

Lemma ensure_embedding_fields memory memory' :
  ensure_embedding generate_embedding memory = Some memory' ->
  mem_id memory' = mem_id memory /\
  content_summary memory' = content_summary memory /\
  raw memory' = raw memory /\
  metadata memory' = metadata memory /\
  (if has_embedding memory then embedding memory' = embedding memory
   else if truthy (text_to_index memory)
        then embedding memory' = generate_embedding (text_to_index memory)
             /\ generate_embedding (text_to_index memory) <> None
        else embedding memory' = embedding memory).
Proof.
  unfold ensure_embedding. destruct (has_embedding memory).
  - intros [= <-]. repeat split; reflexivity.
  - destruct (truthy (text_to_index memory)).
    + destruct (generate_embedding _) as [e|]; [| discriminate].
      intros [= <-]. repeat split; try reflexivity. discriminate.
    + intros [= <-]. repeat split; reflexivity.
Qed.

(** The state a call that returns leaves. *)
Lemma add_memory_to_ltm_returns_state
    (r : FAISSRetriever FaissIndex) h store a obj memory_id :
  snd (add r h store a obj) = Some memory_id ->
  exists memory,
    ensure_embedding generate_embedding (completed store obj) = Some memory /\
    mem_id memory = memory_id /\
    heap_after (add r h store a obj) = heap_set h a memory /\
    store_after (add r h store a obj) = store ++ [a] /\
    if FAISS_AVAILABLE && has_embedding memory
    then
      retriever_after (add r h store a obj)
      = fst (build_index FAISS_AVAILABLE new_index r (heap_set h a memory)
                         (store ++ [a])) /\
      snd (build_index FAISS_AVAILABLE new_index r (heap_set h a memory)
                       (store ++ [a])) <> None
    else retriever_after (add r h store a obj) = r.
Proof.
  unfold add, add_memory_to_ltm, completed, heap_after, store_after,
    retriever_after.
  destruct (ensure_embedding generate_embedding
              (completed_memory object_id utcnow store obj))
    as [memory|]; [| discriminate].
  cbv zeta. destruct (FAISS_AVAILABLE && has_embedding memory) eqn:Hc.
  - destruct (build_index _ _ _ _ _) as [r' [ok|]] eqn:Hb; [| discriminate].
    cbn [fst snd]. intros [= <-]. exists memory. rewrite Hc, Hb.
    repeat split; try reflexivity. discriminate.
  - cbn [fst snd]. intros [= <-]. exists memory. rewrite Hc.
    repeat split; reflexivity.
Qed.

End AddingMemories.

(** X21.  When [add_memory_to_ltm] returns, the dict is the last of
    [_MEM_STORE] and no other dict has changed.  The id returned is the id
    of the dict, the given one if there was one.  The texts are as given.
    The metadata has a score, an access count and a timestamp: the given
    values, or 0.5, 1 and the current time for the keys that were
    missing; the consolidated flag is as given.  A non-empty embedding is
    kept; otherwise the embedding is generated from the text, if there is
    a text. *)
Theorem add_memory_to_ltm_stores_complete_record {FaissIndex}
    FAISS_AVAILABLE new_index generate_embedding object_id utcnow
    (r : FAISSRetriever FaissIndex) h store a obj memory_id :
  let out :=
    add_memory_to_ltm FAISS_AVAILABLE new_index generate_embedding
                      object_id utcnow r h store a obj in
  let stored := heap_after out a in
  snd out = Some memory_id ->
  store_after out = store ++ [a] /\
  (forall x, x <> a -> heap_after out x = h x) /\
  mem_id stored = memory_id /\
  (forall i, obj_id obj = Some i -> memory_id = i) /\
  content_summary stored = obj_content_summary obj /\
  raw stored = obj_raw obj /\
  metadata stored
  = Some (mkMetadata
            (Some (get_importance_score (given_metadata obj)))
            (Some (get_access_count (given_metadata obj)))
            (Some (match timestamp (given_metadata obj) with
                   | Some ts => ts
                   | None => utcnow
                   end))
            (consolidated (given_metadata obj))) /\
  (if obj_has_embedding obj then embedding stored = obj_embedding obj
   else if truthy (obj_content obj)
        then embedding stored = generate_embedding (obj_content obj)
             /\ generate_embedding (obj_content obj) <> None
        else embedding stored = obj_embedding obj).
Proof.
  cbv zeta. intros Hret.
  destruct (add_memory_to_ltm_returns_state _ _ _ _ _ _ _ _ _ _ _ _ Hret)
    as (memory & Hens & Hid & Hheap & Hstore & _).
  rewrite Hheap, Hstore.
  destruct (ensure_embedding_fields _ _ _ Hens)
    as (Hmid & Hcs & Hraw & Hmd & Hemb).
  rewrite heap_set_same.
  split; [reflexivity|].
  split; [intros x Hx; now apply heap_set_other|].
  split; [exact Hid|].
  split.
  { intros i Hi. rewrite <- Hid, Hmid. unfold completed_memory.
    cbn [mem_id]. now rewrite Hi. }
  split; [now rewrite Hcs|]. split; [now rewrite Hraw|].
  split.
  { rewrite Hmd. unfold completed_memory. cbn [metadata].
    unfold with_metadata_defaults, given_metadata, get_importance_score,
      get_access_count.
    destruct (obj_metadata obj) as [md|]; cbn.
    - destruct (importance_score md), (access_count md), (timestamp md);
        reflexivity.
    - reflexivity. }
  exact Hemb.
Qed.

Lemma add_memory_to_ltm_stores_complete_record_witness :
  metadata
    (heap_after
       (add_memory_to_ltm false unit_index constant_embedding numbered_id
          "2026-11-03T09:00:00" no_index two_records [0%nat; 1%nat] 2%nat
          bare_obj)
       2%nat)
  = Some (mkMetadata (Some (5 / 10)) (Some 1%Z)
                     (Some "2026-11-03T09:00:00"%string) None).
Proof.
  destruct (add_memory_to_ltm_stores_complete_record false unit_index
              constant_embedding numbered_id "2026-11-03T09:00:00"%string
              no_index two_records [0%nat; 1%nat] 2%nat bare_obj
              "mem_0"%string)
    as (_ & _ & _ & _ & _ & _ & Hmd & _).
  - reflexivity.
  - exact Hmd.
Defined.

Lemma scanned_memories_In h l a :
  In a (scanned_memories h l) <-> In a l /\ has_embedding (h a) = true.
Proof. unfold scanned_memories. apply filter_In. Qed.

(** X22.  When [add_memory_to_ltm] returns with FAISS available and the
    stored dict has an embedding, the index has been rebuilt over the new
    store: [memory_ids] lists the ids of all stored dicts with an
    embedding, the id returned among them.  When FAISS is not available or
    the dict has no embedding, the retriever is as it was.  When the call
    raises, the retriever is as it was, too, and the dict has been
    appended to the store only if the call raised while the index was
    built. *)
Theorem add_memory_to_ltm_keeps_index_in_step {FaissIndex}
    FAISS_AVAILABLE new_index generate_embedding object_id utcnow
    (r : FAISSRetriever FaissIndex) h store a obj :
  let out :=
    add_memory_to_ltm FAISS_AVAILABLE new_index generate_embedding
                      object_id utcnow r h store a obj in
  (forall memory_id,
     snd out = Some memory_id ->
     if FAISS_AVAILABLE && has_embedding (heap_after out a)
     then
       faiss_index (retriever_after out) <> None /\
       memory_ids (retriever_after out)
       = stored_ids (heap_after out)
           (scanned_memories (heap_after out) (store_after out)) /\
       In memory_id (memory_ids (retriever_after out))
     else retriever_after out = r)
  /\
  (snd out = None ->
   retriever_after out = r /\
   (store_after out = store \/
    FAISS_AVAILABLE = true /\ store_after out = store ++ [a])).
Proof.
  cbv zeta. split.
  - intros memory_id Hret.
    destruct (add_memory_to_ltm_returns_state _ _ _ _ _ _ _ _ _ _ _ _ Hret)
      as (memory & _ & Hid & Hheap & Hstore & Hretr).
    rewrite Hheap, Hstore, heap_set_same.
    destruct (FAISS_AVAILABLE && has_embedding memory) eqn:Hc;
      [| exact Hretr].
    destruct Hretr as [-> Hsome].
    apply andb_prop in Hc. destruct Hc as [-> Hemb].
    destruct (build_index_spec true new_index r (heap_set h a memory)
                (store ++ [a])) as (Hfalse & _ & Htrue).
    assert (Hin : In a (scanned_memories (heap_set h a memory)
                          (store ++ [a]))).
    { apply scanned_memories_In. rewrite heap_set_same. split; [| exact Hemb].
      apply in_or_app. right. now left. }
    destruct (snd (build_index true new_index r (heap_set h a memory)
                     (store ++ [a]))) as [[|]|] eqn:Hsnd.
    + destruct (Htrue eq_refl) as (Hidx & _ & Hids & _).
      split; [exact Hidx|]. split; [exact Hids|].
      rewrite Hids. unfold stored_ids.
      apply in_map_iff. exists a. split; [| exact Hin].
      now rewrite heap_set_same.
    + exfalso. destruct Hfalse as [Hf _].
      destruct (Hf eq_refl) as [Hf' | Hf']; [discriminate|].
      rewrite Hf' in Hin. destruct Hin.
    + now contradiction Hsome.
  - unfold add_memory_to_ltm, retriever_after, store_after.
    destruct (ensure_embedding _ _) as [memory|];
      [| cbn [fst snd]; intros _; split; [reflexivity | now left]].
    cbv zeta. destruct FAISS_AVAILABLE; cbn [andb];
      [| cbn [fst snd]; discriminate].
    destruct (has_embedding memory); [| cbn [fst snd]; discriminate].
    destruct (build_index_spec true new_index r (heap_set h a memory)
                (store ++ [a])) as (_ & Hsame & _).
    destruct (build_index true new_index r (heap_set h a memory)
                (store ++ [a])) as [r' [ok|]]; [discriminate|].
    cbn [fst snd] in *. intros _. split; [| right; now split].
    apply Hsame. discriminate.
Qed.

Lemma add_memory_to_ltm_keeps_index_in_step_witness :
  memory_ids
    (retriever_after
       (add_memory_to_ltm true unit_index constant_embedding numbered_id
          "2026-11-03T09:00:00" no_index two_records [0%nat; 1%nat] 2%nat
          bare_obj))
  = ["m0"; "m1"; "mem_0"]%string.
Proof.
  destruct (add_memory_to_ltm_keeps_index_in_step true unit_index
              constant_embedding numbered_id "2026-11-03T09:00:00"%string
              no_index two_records [0%nat; 1%nat] 2%nat bare_obj)
    as [Hret _].
  specialize (Hret "mem_0"%string eq_refl).
  destruct Hret as (_ & Hids & _). exact Hids.
Defined.

Lemma subseq_In {A} (l1 l2 : list A) x :
  subseq l1 l2 -> In x l1 -> In x l2.
Proof.
  induction 1 as [| y l1 l2 H IH | y l1 l2 H IH]; simpl; tauto.
Qed.

Lemma all_have_metadata_no_errors h l :
  all_have_metadata h l -> filter (no_metadata h) l = [].
Proof.
  intros Hall. induction l as [| y t IH]; [reflexivity|].
  cbn [filter]. unfold no_metadata at 1.
  destruct (metadata (h y)) eqn:Hy.
  - apply IH. intros x Hx. apply Hall. now right.
  - exfalso. apply (Hall y); [now left | exact Hy].
Qed.

(** X23.  Every stored dict having a ["metadata"] key is an invariant
    of the store: if it holds, it holds after [add_memory_to_ltm]
    (whether the call returns or raises), after a decay cycle, and after a
    retrieval (whether it returns or raises); and the decay cycle then
    counts no error under a configuration whose decay rate and minimum age
    are not negative, where [math.exp] cannot overflow. *)
Theorem stored_dicts_keep_their_metadata h store :
  all_have_metadata h store ->
  (forall FaissIndex FAISS_AVAILABLE new_index generate_embedding object_id
          utcnow (r : FAISSRetriever FaissIndex) a obj,
     let out :=
       add_memory_to_ltm FAISS_AVAILABLE new_index generate_embedding
                         object_id utcnow r h store a obj in
     all_have_metadata (heap_after out) (store_after out))
  /\
  (forall config age_days_of summarizer_fn log,
     let out :=
       run_decay_cycle config age_days_of summarizer_fn
                       (mkBackend h store log) in
     all_have_metadata (objects (fst out)) (_store (fst out)) /\
     (0 <= decay_rate config -> (0 <= min_age_days config)%Z ->
      errors (snd out) = 0%nat))
  /\
  (forall FaissIndex index_search generate_embedding FAISS_AVAILABLE
          (r : FAISSRetriever FaissIndex) query top_k use_faiss
          hybrid_weight,
     all_have_metadata
       (fst (retrieve_memories_from_ltm index_search generate_embedding
               FAISS_AVAILABLE r h store query top_k use_faiss
               hybrid_weight))
       store).
Proof.
  intros Hall. split; [| split].
  - intros FaissIndex FAISS_AVAILABLE new_index generate_embedding
           object_id utcnow r a obj. cbv zeta.
    assert (Hset : forall m l,
               metadata m <> None ->
               (forall x, In x l -> x = a \/ In x store) ->
               all_have_metadata (heap_set h a m) l).
    { intros m l Hm Hl x Hx.
      destruct (heap_set_cases h a m x) as [[-> Hs] | [Hne Hs]]; rewrite Hs;
        [exact Hm|].
      apply Hall. destruct (Hl x Hx); [contradiction | assumption]. }
    unfold add_memory_to_ltm, heap_after, store_after.
    destruct (ensure_embedding generate_embedding
                (completed_memory object_id utcnow store obj))
      as [memory|] eqn:Hens.
    + destruct (ensure_embedding_fields _ _ _ Hens) as (_ & _ & _ & Hmd & _).
      assert (Hm : metadata memory <> None)
        by (rewrite Hmd; discriminate).
      assert (Hl : forall x, In x (store ++ [a]) -> x = a \/ In x store).
      { intros x Hx. apply in_app_or in Hx.
        destruct Hx as [Hx | [<- | []]]; tauto. }
      cbv zeta. destruct (FAISS_AVAILABLE && has_embedding memory).
      * destruct (build_index _ _ _ _ _) as [r' [ok|]]; cbn [fst snd];
          now apply Hset.
      * cbn [fst snd]. now apply Hset.
    + cbn [fst snd]. apply Hset; [discriminate | tauto].
  - intros config age_days_of summarizer_fn log. cbv zeta.
    unfold run_decay_cycle, InMemoryBackend.get_all. cbn [_store].
    destruct (fold_process_memory_statistics config age_days_of
                summarizer_fn store (mkBackend h store log)
                (mkStats (List.length store) 0 0 0 0)
                (fun i => count_id_refl_le h i store))
      as (_ & _ & Hsub & _ & _ & Herr & _).
    cbn [objects _store errors] in *. split.
    + intros x Hx.
      destruct (fold_process_memory_identity config age_days_of
                  summarizer_fn store (mkBackend h store log)
                  (mkStats (List.length store) 0 0 0 0) x)
        as (_ & _ & Hmd).
      apply Hmd. cbn [objects]. apply Hall.
      now apply (subseq_In _ _ _ Hsub).
    + intros _ _.
      rewrite all_have_metadata_no_errors in Herr by exact Hall.
      cbn in Herr. lia.
  - intros FaissIndex index_search generate_embedding FAISS_AVAILABLE r
           query top_k use_faiss hybrid_weight x Hx.
    destruct (retrieve_memories_from_ltm_frame index_search
                generate_embedding FAISS_AVAILABLE r h store query top_k
                use_faiss hybrid_weight x)
      as (_ & _ & _ & _ & Hmd & _).
    intros Hnone. apply (Hall x Hx). now apply Hmd.
Qed.

Lemma stored_dicts_keep_their_metadata_witness :
  errors
    (snd (run_decay_cycle default_config (clock 20) failing_summarizer
            (mkBackend two_records [0%nat; 1%nat] [])))
  = 0%nat.
Proof.
  destruct (stored_dicts_keep_their_metadata two_records [0%nat; 1%nat])
    as (_ & Hcycle & _).
  - intros a _. destruct a; discriminate.
  - apply (Hcycle default_config (clock 20) failing_summarizer []).
    + simpl. lra.
    + simpl. lia.
Defined.

(** ** Strings *)

Lemma string_length_app (s1 s2 : string) :
  String.length (s1 ++ s2) = (String.length s1 + String.length s2)%nat.
Proof. induction s1 as [| c s1 IH]; simpl; [reflexivity | now rewrite IH]. Qed.

Lemma string_length_of_list (l : list ascii) :
  String.length (string_of_list_ascii l) = List.length l.
Proof. induction l as [| c l IH]; simpl; [reflexivity | now rewrite IH]. Qed.

Lemma list_length_of_string (s : string) :
  List.length (list_ascii_of_string s) = String.length s.
Proof. induction s as [| c s IH]; simpl; [reflexivity | now rewrite IH]. Qed.

Lemma str_take_length s k :
  (0 <= k)%Z ->
  String.length (str_take s k) = Nat.min (Z.to_nat k) (String.length s).
Proof.
  intros Hk. unfold str_take.
  rewrite string_length_of_list, py_take_length by exact Hk.
  now rewrite list_length_of_string.
Qed.

Lemma lstrip_length s : (String.length (lstrip s) <= String.length s)%nat.
Proof.
  induction s as [| c s IH]; simpl; [lia|].
  destruct (is_space c); simpl; lia.
Qed.

Lemma rstrip_length s : (String.length (rstrip s) <= String.length s)%nat.
Proof.
  induction s as [| c s IH]; simpl; [lia|].
  destruct (is_space c && negb (truthy (rstrip s))); simpl; lia.
Qed.

Lemma strip_length s : (String.length (strip s) <= String.length s)%nat.
Proof.
  unfold strip. pose proof (rstrip_length (lstrip s)).
  pose proof (lstrip_length s). lia.
Qed.

Lemma rstrip_idem s : rstrip (rstrip s) = rstrip s.
Proof.
  induction s as [| c s IH]; [reflexivity|]. cbn [rstrip].
  destruct (is_space c && negb (truthy (rstrip s))) eqn:Hc; [reflexivity|].
  cbn [rstrip]. rewrite IH, Hc. reflexivity.
Qed.

Lemma lstrip_head s :
  lstrip s = EmptyString \/
  exists c rest, lstrip s = String c rest /\ is_space c = false.
Proof.
  induction s as [| c s IH]; [now left|]. cbn [lstrip].
  destruct (is_space c) eqn:Hc; [exact IH|]. right. eauto.
Qed.

Lemma strip_idem s : strip (strip s) = strip s.
Proof.
  unfold strip. destruct (lstrip_head s) as [-> | (c & rest & -> & Hc)];
    [reflexivity|].
  cbn [rstrip]. rewrite Hc. cbn [andb lstrip]. rewrite Hc.
  cbn [rstrip]. rewrite Hc, rstrip_idem. reflexivity.
Qed.

Lemma truthy_false_iff s : truthy s = false <-> s = EmptyString.
Proof. destruct s; simpl; split; congruence. Qed.

Lemma strip_empty_blank s :
  negb (truthy s) || negb (truthy (strip s)) = negb (truthy (strip s)).
Proof. destruct s; reflexivity. Qed.

(** ** Ingestion *)

Section IngestionProperties.

Variable hash_str : string -> string.
Variable attempt : string -> nat -> option (list R).

Let ingest := ingest_story hash_str attempt.

Lemma embed_with_retries_spec text remaining :
  forall retry_count,
    match embed_with_retries attempt text retry_count remaining with
    | Some e =>
        exists n, (n < remaining)%nat /\
                  attempt text (retry_count + n) = Some e /\
                  forall m, (m < n)%nat ->
                            attempt text (retry_count + m) = None
    | None =>
        forall m, (m < remaining)%nat ->
                  attempt text (retry_count + m) = None
    end.
Proof.
  induction remaining as [| k IH]; intros retry_count;
    cbn [embed_with_retries].
  - intros m Hm. lia.
  - destruct (attempt text retry_count) as [e|] eqn:Ha.
    + exists 0%nat. rewrite Nat.add_0_r.
      split; [lia|]. split; [exact Ha|]. intros m Hm. lia.
    + specialize (IH (S retry_count)).
      destruct (embed_with_retries attempt text (S retry_count) k) as [e|].
      * destruct IH as (n & Hn & He & Hbefore). exists (S n).
        split; [lia|]. split; [now rewrite Nat.add_succ_r|].
        intros [| m] Hm; [now rewrite Nat.add_0_r|].
        rewrite Nat.add_succ_r. apply Hbefore. lia.
      * intros [| m] Hm; [now rewrite Nat.add_0_r|].
        rewrite Nat.add_succ_r. apply IH. lia.
Qed.

(** X24.  [ingest_story] rejects a text that is empty or blank, and a
    text for which three calls of the embedding model fail; it makes no
    fourth call.  Otherwise the record holds the stripped text as its
    ["raw"], the hash of the stripped text as its id, the result of the
    first call that succeeds as its embedding, the score 0.5 and the
    access count 1, without a timestamp; its ["content_summary"] is the
    stripped text when that has at most 150 characters, and its first 150
    characters followed by three dots otherwise.  Surrounding white space
    makes no difference. *)
Theorem ingest_story_result raw_story_text :
  let text := strip raw_story_text in
  (ingest raw_story_text = None <->
   text = EmptyString \/
   forall n, (n < 3)%nat -> attempt text n = None)
  /\
  (forall parsed,
     ingest raw_story_text = Some parsed ->
     text <> EmptyString /\
     obj_id parsed = Some (hash_str text) /\
     obj_raw parsed = Some text /\
     obj_content_summary parsed
     = Some (if (150 <? String.length text)%nat
             then (str_take text 150 ++ "...")%string else text) /\
     (String.length (get_text (obj_content_summary parsed)) <= 153)%nat /\
     obj_metadata parsed
     = Some (mkMetadata (Some (5 / 10)) (Some 1%Z) None None) /\
     exists n,
       (n < 3)%nat /\
       obj_embedding parsed = attempt text n /\
       attempt text n <> None /\
       forall m, (m < n)%nat -> attempt text m = None)
  /\
  ingest (strip raw_story_text) = ingest raw_story_text.
Proof.
  cbv zeta. unfold ingest, ingest_story.
  rewrite !strip_empty_blank, strip_idem.
  set (text := strip raw_story_text).
  pose proof (embed_with_retries_spec text 3 0) as Hspec.
  cbn [Nat.add] in Hspec.
  split; [| split; [| reflexivity]].
  - destruct (truthy text) eqn:Ht; cbn [negb].
    + assert (Hne : text <> EmptyString)
        by (intros He; rewrite He in Ht; discriminate).
      destruct (embed_with_retries attempt text 0 3) as [e|].
      * split; [discriminate|].
        intros [H | Hall]; [contradiction|].
        destruct Hspec as (n & Hn & He & _).
        rewrite (Hall n Hn) in He. discriminate.
      * split; [| reflexivity]. intros _. right. exact Hspec.
    + apply truthy_false_iff in Ht.
      split; [intros _; now left | reflexivity].
  - intros parsed.
    destruct (truthy text) eqn:Ht; cbn [negb]; [| discriminate].
    assert (Hne : text <> EmptyString)
      by (intros He; rewrite He in Ht; discriminate).
    destruct (embed_with_retries attempt text 0 3) as [e|];
      [| discriminate].
    intros Hparsed. apply (f_equal (fun o => match o with
                                             | Some x => x
                                             | None => parsed
                                             end)) in Hparsed.
    cbv beta iota in Hparsed. subst parsed.
    cbn [obj_id obj_raw obj_content_summary obj_metadata
         obj_embedding get_text].
    split; [exact Hne|]. split; [reflexivity|]. split; [reflexivity|].
    split; [reflexivity|]. split; [| split; [reflexivity|]].
    + destruct (Nat.ltb_spec 150 (String.length text)).
      * rewrite string_length_app, str_take_length by lia.
        change (String.length "...") with 3%nat. lia.
      * lia.
    + destruct Hspec as (n & Hn & He & Hbefore). exists n.
      rewrite He.
      split; [exact Hn|]. split; [reflexivity|]. split; [discriminate|].
      exact Hbefore.
Qed.

End IngestionProperties.

Lemma ingest_story_id hash_str attempt raw_story_text parsed :
  ingest_story hash_str attempt raw_story_text = Some parsed ->
  obj_id parsed = Some (hash_str (strip raw_story_text)).
Proof.
  unfold ingest_story. destruct (_ || _); [discriminate|].
  destruct (embed_with_retries _ _ _ _); [| discriminate].
  intros Hp. apply (f_equal (fun o => match o with
                                      | Some x => obj_id x
                                      | None => None
                                      end)) in Hp.
  cbv beta iota in Hp. cbn [obj_id] in Hp. now rewrite <- Hp.
Qed.

Lemma NoDup_app_twice {A} (l : list A) x : ~ NoDup (l ++ [x; x]).
Proof.
  intros Hnd. apply NoDup_remove_2 in Hnd. apply Hnd.
  apply in_or_app. right. now left.
Qed.

Lemma find_app_not_last {A} (f : A -> bool) l x y :
  f x = true -> ~ In y l -> x <> y -> find f (l ++ [x; y]) <> Some y.
Proof.
  intros Hx Hy Hne. induction l as [| z t IH]; simpl.
  - rewrite Hx. congruence.
  - destruct (f z).
    + intros [= ->]. apply Hy. now left.
    + apply IH. intros Hin. apply Hy. now right.
Qed.

(** X25.  Nothing keeps a story from being stored twice: the id
    [ingest_story] gives a record is the hash of its stripped text, and
    [add_memory_to_ltm] keeps a given id and appends without looking at
    the store.  So when two ingestions of the same text (up to surrounding
    white space) are added, both calls return the same id, the store ends
    with the two dicts, its ids are no longer distinct, and a lookup of
    the id does not reach the second dict. *)
Theorem same_story_twice_shares_an_id {FaissIndex}
    FAISS_AVAILABLE new_index generate_embedding object_id utcnow1 utcnow2
    hash_str attempt1 attempt2 (r : FAISSRetriever FaissIndex)
    h store a1 a2 text1 text2 parsed1 parsed2 id1 id2 :
  strip text1 = strip text2 ->
  ingest_story hash_str attempt1 text1 = Some parsed1 ->
  ingest_story hash_str attempt2 text2 = Some parsed2 ->
  a1 <> a2 ->
  ~ In a2 store ->
  let out1 :=
    add_memory_to_ltm FAISS_AVAILABLE new_index generate_embedding
                      object_id utcnow1 r h store a1 parsed1 in
  let out2 :=
    add_memory_to_ltm FAISS_AVAILABLE new_index generate_embedding
                      object_id utcnow2 (retriever_after out1)
                      (heap_after out1) (store_after out1) a2 parsed2 in
  snd out1 = Some id1 ->
  snd out2 = Some id2 ->
  id1 = hash_str (strip text1) /\
  id2 = id1 /\
  store_after out2 = store ++ [a1; a2] /\
  ~ NoDup (stored_ids (heap_after out2) (store_after out2)) /\
  InMemoryBackend.get
    (mkBackend (heap_after out2) (store_after out2) []) id2
  <> Some a2.
Proof.
  intros Hstrip Hing1 Hing2 Hne Hfresh. cbv zeta. intros Hret1 Hret2.
  apply ingest_story_id in Hing1. apply ingest_story_id in Hing2.
  destruct (add_memory_to_ltm_returns_state _ _ _ _ _ _ _ _ _ _ _ _ Hret1)
    as (m1 & Hens1 & Hid1 & Hheap1 & Hstore1 & _).
  destruct (add_memory_to_ltm_returns_state _ _ _ _ _ _ _ _ _ _ _ _ Hret2)
    as (m2 & Hens2 & Hid2 & Hheap2 & Hstore2 & _).
  destruct (ensure_embedding_fields _ _ _ Hens1) as (Hm1 & _).
  destruct (ensure_embedding_fields _ _ _ Hens2) as (Hm2 & _).
  unfold completed_memory in Hm1, Hm2. cbn [mem_id] in Hm1, Hm2.
  rewrite Hing1 in Hm1. rewrite Hing2 in Hm2.
  assert (H1 : id1 = hash_str (strip text1)) by congruence.
  assert (H2 : id2 = id1) by congruence.
  split; [exact H1|]. split; [exact H2|].
  rewrite Hheap2, Hstore2, Hheap1, Hstore1, <- app_assoc. cbn [app].
  split; [reflexivity|].
  set (h2 := heap_set (heap_set h a1 m1) a2 m2).
  assert (Ha1 : mem_id (h2 a1) = id2).
  { unfold h2. rewrite heap_set_other by exact Hne.
    rewrite heap_set_same. congruence. }
  assert (Ha2 : mem_id (h2 a2) = id2)
    by (unfold h2; rewrite heap_set_same; congruence).
  split.
  - unfold stored_ids. rewrite map_app. cbn [map]. rewrite Ha1, Ha2.
    apply NoDup_app_twice.
  - unfold InMemoryBackend.get. cbn [objects _store].
    apply find_app_not_last; [| exact Hfresh | exact Hne].
    unfold has_id. rewrite Ha1. apply String.eqb_refl.
Qed.

Lemma same_story_twice_shares_an_id_witness :
  store_after knight_added_twice = [0%nat; 1%nat; 2%nat; 3%nat] /\
  ~ NoDup (stored_ids (heap_after knight_added_twice)
                      (store_after knight_added_twice)).
Proof.
  destruct (same_story_twice_shares_an_id false unit_index
              constant_embedding numbered_id "2026-11-03T09:00:00"%string
              "2026-11-03T09:05:00"%string constant_hash third_time_lucky
              third_time_lucky no_index two_records [0%nat; 1%nat]
              2%nat 3%nat knight_story
              "A knight fought a dragon."%string
              knight_parsed knight_parsed "4242"%string "4242"%string)
    as (_ & _ & Hstore & Hdup & _).
  - reflexivity.
  - reflexivity.
  - reflexivity.
  - discriminate.
  - simpl. intros [H | [H | []]]; discriminate.
  - reflexivity.
  - reflexivity.
  - split; [exact Hstore | exact Hdup].
Defined.

(** The example story is ingested on the third call of the embedding
    model. *)
Lemma ingest_story_of_knight_story :
  ingest_story constant_hash third_time_lucky knight_story
  = Some knight_parsed.
Proof. reflexivity. Qed.

(** ** Answering *)

Lemma concat_empty_length (parts : list string) :
  String.length (String.concat EmptyString parts)
  = fold_right (fun s n => (String.length s + n)%nat) 0%nat parts.
Proof.
  induction parts as [| s [| s' rest] IH].
  - reflexivity.
  - simpl. lia.
  - change (String.concat EmptyString (s :: s' :: rest))
      with (s ++ EmptyString ++ String.concat EmptyString (s' :: rest))%string.
    rewrite !string_length_app, IH. simpl. lia.
Qed.

Lemma context_parts_length texts max_chars :
  forall total_chars,
    (total_chars
     + Z.of_nat
         (fold_right (fun s n => (String.length s + n)%nat) 0%nat
                     (context_parts texts max_chars total_chars))
     <= Z.max total_chars max_chars)%Z.
Proof.
  induction texts as [| t rest IH]; intros total_chars;
    cbn [context_parts].
  - simpl. lia.
  - cbv zeta. destruct (negb (truthy (strip t))); [apply IH|].
    set (passage := (strip t ++ two_newlines)%string).
    destruct (Z.ltb_spec max_chars
                (total_chars + Z.of_nat (String.length passage)))
      as [Hover | Hfits].
    + destruct (Z.ltb_spec 100 (max_chars - total_chars)) as [Hroom | Hno].
      * cbn [fold_right].
        rewrite !string_length_app, str_take_length by lia.
        change (String.length "...") with 3%nat.
        change (String.length two_newlines) with 2%nat. lia.
      * simpl. lia.
    + cbn [fold_right].
      specialize (IH (total_chars + Z.of_nat (String.length passage))%Z).
      lia.
Qed.

(** X26.  The context [_build_context_from_memories] builds never has
    more than [max_chars] characters (none, when [max_chars] is negative),
    whatever the memories; and it is empty when there is no memory. *)
Theorem context_fits_max_chars h memories max_chars :
  (Z.of_nat (String.length
               (_build_context_from_memories h memories max_chars))
   <= Z.max 0 max_chars)%Z
  /\
  _build_context_from_memories h [] max_chars = EmptyString.
Proof.
  split; [| reflexivity].
  unfold _build_context_from_memories.
  pose proof (strip_length
                (String.concat EmptyString
                   (context_parts
                      (map (fun mem => text_to_index (h (res_source mem)))
                           memories) max_chars 0))) as Hstrip.
  rewrite concat_empty_length in Hstrip.
  pose proof (context_parts_length
                (map (fun mem => text_to_index (h (res_source mem)))
                     memories) max_chars 0) as Hparts.
  lia.
Qed.

(** X27.  [_calculate_confidence] is 0 for no memory and the score of
    the first memory for one memory; for more it is that score or, when
    the mean of the first three scores is above 0.4, that score raised by
    a tenth and capped at 1.  So when the first score lies in [0,1], the
    confidence lies between that score and 1. *)
Theorem confidence_is_first_score_or_boost top rest :
  _calculate_confidence [] = 0 /\
  _calculate_confidence [top] = score top /\
  (_calculate_confidence (top :: rest) = score top \/
   _calculate_confidence (top :: rest) = Rmin 1 (score top * (11 / 10))) /\
  (0 <= score top <= 1 ->
   score top <= _calculate_confidence (top :: rest) <= 1).
Proof.
  split; [reflexivity|]. split; [reflexivity|].
  assert (Hcases : _calculate_confidence (top :: rest) = score top \/
                   _calculate_confidence (top :: rest)
                   = Rmin 1 (score top * (11 / 10))).
  { unfold _calculate_confidence.
    destruct (1 <? List.length (top :: rest))%nat; [| now left].
    cbv zeta. destruct (Rgt_dec _ _); [now right | now left]. }
  split; [exact Hcases|].
  intros Hs. destruct Hcases as [-> | ->]; [lra|].
  unfold Rmin. destruct (Rle_dec 1 (score top * (11 / 10))); lra.
Qed.

Lemma confidence_is_first_score_or_boost_witness :
  score (mkResult 0 (9 / 10) 1 (2 / 3))
  <= _calculate_confidence
       [mkResult 0 (9 / 10) 1 (2 / 3); mkResult 1 (1 / 2) (1 / 2) (1 / 2)]
  <= 1.
Proof.
  destruct (confidence_is_first_score_or_boost
              (mkResult 0 (9 / 10) 1 (2 / 3))
              [mkResult 1 (1 / 2) (1 / 2) (1 / 2)]) as (_ & _ & _ & Hrange).
  apply Hrange. simpl. lra.
Defined.

(** ** The extractive summarizer *)

Lemma rstrip_take_length s k :
  (0 <= k)%Z -> (len (rstrip (str_take s k)) <= k)%Z.
Proof.
  intros Hk. unfold len.
  pose proof (rstrip_length (str_take s k)) as Hr.
  rewrite str_take_length in Hr by exact Hk. lia.
Qed.

Lemma starts_with_text_rstrip s :
  starts_with_text s -> starts_with_text (rstrip s).
Proof.
  destruct s as [| c rest]; [intros []|]. cbn [starts_with_text rstrip].
  intros Hc. rewrite Hc. exact Hc.
Qed.

Lemma starts_with_text_strip s :
  strip s <> EmptyString -> starts_with_text (strip s).
Proof.
  unfold strip. destruct (lstrip_head s) as [-> | (c & rest & -> & Hc)].
  - intros H. now contradiction H.
  - intros _. now apply starts_with_text_rstrip.
Qed.

Lemma starts_with_text_strip_id s :
  starts_with_text s -> starts_with_text (strip s).
Proof.
  destruct s as [| c rest]; [intros []|]. intros Hc. unfold strip.
  cbn [lstrip]. cbn [starts_with_text] in Hc. rewrite Hc.
  now apply starts_with_text_rstrip.
Qed.

Lemma starts_with_text_app s t :
  starts_with_text s -> starts_with_text (s ++ t).
Proof. destruct s; [intros [] | exact (fun H => H)]. Qed.

Lemma starts_with_text_take s k :
  starts_with_text s -> (1 <= k)%Z -> starts_with_text (str_take s k).
Proof.
  destruct s as [| c rest]; [intros []|]. intros Hc Hk.
  unfold str_take, py_take.
  destruct (Z.leb_spec 0 k) as [_ | Hneg]; [| lia].
  destruct (Z.to_nat k) as [| n] eqn:Hn; [lia|]. exact Hc.
Qed.

Lemma starts_with_text_not_empty s :
  starts_with_text s -> s <> EmptyString.
Proof. destruct s; [intros [] | discriminate]. Qed.

Lemma starts_with_text_concat sep x rest :
  starts_with_text x -> starts_with_text (String.concat sep (x :: rest)).
Proof.
  intros Hx. destruct rest as [| y rest]; [exact Hx|].
  change (String.concat sep (x :: y :: rest))
    with (x ++ sep ++ String.concat sep (y :: rest))%string.
  now apply starts_with_text_app.
Qed.

Lemma insert_by_score_Forall {A} (key : A -> R) (P : A -> Prop) x l :
  P x -> Forall P l -> Forall P (insert_by_score key x l).
Proof.
  intros Hx Hl. induction Hl as [| y t Hy Ht IH]; simpl.
  - constructor; [exact Hx | constructor].
  - destruct (Rlt_dec _ _); constructor; auto.
Qed.

Lemma sorted_by_score_desc_Forall {A} (key : A -> R) (P : A -> Prop) l :
  Forall P l -> Forall P (sorted_by_score_desc key l).
Proof.
  induction 1 as [| x t Hx Ht IH]; simpl; [constructor|].
  now apply insert_by_score_Forall.
Qed.

Lemma insert_by_score_not_nil {A} (key : A -> R) x l :
  insert_by_score key x l <> [].
Proof. destruct l; simpl; [| destruct (Rlt_dec _ _)]; discriminate. Qed.

Lemma insert_by_index_Forall {A} (key : A -> nat) (P : A -> Prop) x l :
  P x -> Forall P l -> Forall P (insert_by_index key x l).
Proof.
  intros Hx Hl. induction Hl as [| y t Hy Ht IH]; simpl.
  - constructor; [exact Hx | constructor].
  - destruct (_ <? _)%nat; constructor; auto.
Qed.

Lemma sorted_by_index_Forall {A} (key : A -> nat) (P : A -> Prop) l :
  Forall P l -> Forall P (sorted_by_index key l).
Proof.
  induction 1 as [| x t Hx Ht IH]; simpl; [constructor|].
  now apply insert_by_index_Forall.
Qed.

Lemma insert_by_index_length {A} (key : A -> nat) x l :
  List.length (insert_by_index key x l) = S (List.length l).
Proof.
  induction l as [| y t IH]; simpl; [reflexivity|].
  destruct (_ <? _)%nat; simpl; [now rewrite IH | reflexivity].
Qed.

Lemma sorted_by_index_length {A} (key : A -> nat) (l : list A) :
  List.length (sorted_by_index key l) = List.length l.
Proof.
  induction l as [| x t IH]; simpl; [reflexivity|].
  now rewrite insert_by_index_length, IH.
Qed.

Lemma select_sentences_Forall (P : string -> Prop) sorted min_len :
  forall total_len,
    Forall (fun x => P (sent_text x)) sorted ->
    Forall (fun p => P (snd p)) (select_sentences sorted min_len total_len).
Proof.
  induction sorted as [| x rest IH]; intros total_len Hall;
    cbn [select_sentences]; [constructor|].
  inversion Hall; subst.
  destruct (_ <=? _)%Z; constructor; auto.
Qed.

Lemma extend_summary_starts remaining min_len max_len :
  forall summary,
    starts_with_text summary ->
    starts_with_text (extend_summary remaining summary min_len max_len).
Proof.
  induction remaining as [| [i s] rest IH]; intros summary Hs;
    cbn [extend_summary]; [exact Hs|].
  destruct (_ <=? _)%Z; [exact Hs|]. cbv zeta.
  assert (Hs' : starts_with_text (strip (summary ++ " " ++ s)))
    by (now apply starts_with_text_strip_id, starts_with_text_app).
  destruct (_ <=? _)%Z; [exact Hs' | now apply IH].
Qed.

Lemma join_selected_starts selected :
  selected <> [] ->
  Forall (fun p => starts_with_text (snd p)) selected ->
  starts_with_text (join_selected selected).
Proof.
  intros Hne Hall. destruct selected as [| p rest]; [now contradiction Hne|].
  inversion Hall; subst. unfold join_selected. cbn [map].
  now apply starts_with_text_strip_id, starts_with_text_concat.
Qed.

Lemma Forall_firstn {A} (P : A -> Prop) n l :
  Forall P l -> Forall P (firstn n l).
Proof.
  intros Hall. revert n. induction Hall as [| x t Hx Ht IH];
    intros [| n]; simpl; constructor; auto.
Qed.

Lemma py_take_Forall {A} (P : A -> Prop) l k :
  Forall P l -> Forall P (py_take l k).
Proof.
  intros Hall. unfold py_take. destruct (0 <=? k)%Z;
    now apply Forall_firstn.
Qed.

Lemma py_take_drop_last_not_nil {A} (l : list A) :
  (1 < List.length l)%nat -> py_take l (-1) <> [].
Proof.
  intros Hlen Hnil. apply (f_equal (@List.length A)) in Hnil.
  unfold py_take in Hnil. cbn [Z.leb Z.compare] in Hnil.
  rewrite length_firstn in Hnil. simpl in Hnil. lia.
Qed.

Section SummarizerProperties.

Variable split_sentences : string -> list string.
Variable findall_words : string -> list string.

Let summarize := summarize_memory split_sentences findall_words.

(** The sentences [sents] of a text are stripped and not empty. *)
Lemma sents_start_with_text text :
  Forall starts_with_text
         (map strip
              (filter (fun s => truthy (strip s)) (split_sentences text))).
Proof.
  induction (split_sentences text) as [| s rest IH]; cbn [filter map];
    [constructor|].
  destruct (truthy (strip s)) eqn:Ht; [| exact IH].
  cbn [map]. constructor; [| exact IH].
  apply starts_with_text_strip. intros He. rewrite He in Ht. discriminate.
Qed.

Lemma sent_scores_start_with_text tokens sents :
  forall i,
    Forall starts_with_text sents ->
    Forall (fun x => starts_with_text (sent_text x))
           (map (fun p =>
                   mkScoredSentence (fst p) (snd p)
                     (sentence_score findall_words tokens (snd p))
                     (String.length (snd p)))
                (enumerate_from i sents)).
Proof.
  induction sents as [| s rest IH]; intros i Hall; cbn [enumerate_from map];
    [constructor|].
  inversion Hall; subst. constructor; [assumption | now apply IH].
Qed.

(** The summary, in the terms of its properties: it is at most [max_len]
    long, and it starts with text when the text does. *)
Lemma summarize_memory_spec text min_len max_len :
  ((0 <= max_len)%Z -> (len (summarize text min_len max_len) <= max_len)%Z)
  /\
  ((1 <= max_len)%Z -> strip text <> EmptyString ->
   starts_with_text (summarize text min_len max_len)).
Proof.
  unfold summarize, summarize_memory.
  destruct (truthy text) eqn:Htext; cbn [negb];
    [| split; [intros; unfold len; simpl; lia
              | intros _ H; apply truthy_false_iff in Htext; subst text;
                now contradiction H]].
  cbv zeta.
  pose proof (sents_start_with_text (strip text)) as Hsents.
  set (sents := map strip
                    (filter (fun s => truthy (strip s))
                            (split_sentences (strip text)))) in *.
  destruct (Z.leb_spec (len (strip text)) max_len) as [Hshort | Hlong].
  { split; [intros _; exact Hshort|].
    intros _ Hne. now apply starts_with_text_strip. }
  assert (Hcut : forall s,
            ((0 <= max_len)%Z ->
             (len (rstrip (str_take s max_len)) <= max_len)%Z) /\
            ((1 <= max_len)%Z -> starts_with_text s ->
             starts_with_text (rstrip (str_take s max_len)))).
  { intros s. split; [apply rstrip_take_length|].
    intros Hk Hs. now apply starts_with_text_rstrip, starts_with_text_take. }
  destruct sents as [| first more] eqn:Hs.
  { split; [apply Hcut|]. intros Hk Hne.
    apply Hcut; [exact Hk | now apply starts_with_text_strip]. }
  destruct (_tokens findall_words (strip text)) as [| tok toks] eqn:Htok.
  { split; [apply Hcut|]. intros Hk _.
    apply Hcut; [exact Hk | now inversion Hsents]. }
  set (tokens := tok :: toks) in *.
  pose proof (sent_scores_start_with_text tokens (first :: more) 0 Hsents)
    as Hscored.
  apply (sorted_by_score_desc_Forall sent_score) in Hscored.
  set (sorted :=
         sorted_by_score_desc sent_score
           (map (fun p =>
                   mkScoredSentence (fst p) (snd p)
                     (sentence_score findall_words tokens (snd p))
                     (String.length (snd p)))
                (enumerate_from 0 (first :: more)))) in *.
  assert (Hsorted : sorted <> []).
  { unfold sorted. cbn [enumerate_from map sorted_by_score_desc fold_right].
    apply insert_by_score_not_nil. }
  pose proof (select_sentences_Forall starts_with_text sorted min_len 0
                Hscored) as Hsel.
  destruct (select_sentences sorted min_len 0) as [| p selected0] eqn:Hselq.
  { destruct sorted as [| best rest]; [now contradiction Hsorted|].
    split; [apply Hcut|]. intros Hk _.
    apply Hcut; [exact Hk | now inversion Hscored]. }
  apply (sorted_by_index_Forall fst) in Hsel.
  pose proof (sorted_by_index_length fst (p :: selected0)) as Hlen.
  set (selected := sorted_by_index fst (p :: selected0)) in *.
  assert (Hselne : selected <> [])
    by (intros He; rewrite He in Hlen; discriminate).
  pose proof (join_selected_starts selected Hselne Hsel) as Hjoin.
  destruct (Z.ltb_spec max_len (len (join_selected selected)))
    as [Hover | Hfits].
  - destruct (Nat.ltb_spec 1 (List.length selected)) as [Hmany | Hone].
    + pose proof (join_selected_starts (py_take selected (-1))
                    (py_take_drop_last_not_nil selected Hmany)
                    (py_take_Forall _ selected (-1) Hsel)) as Hjoin'.
      destruct (Z.ltb_spec max_len
                  (len (join_selected (py_take selected (-1)))))
        as [Hover' | Hfits'].
      * split; [apply Hcut|]. intros Hk _. now apply Hcut.
      * split; [intros _; exact Hfits' | intros _ _; exact Hjoin'].
    + split; [apply Hcut|]. intros Hk _. now apply Hcut.
  - destruct (Z.ltb_spec (len (join_selected selected)) min_len)
      as [Htoo_short | Hok].
    + match goal with
      | |- context [extend_summary ?rem ?s ?a ?b] =>
          pose proof (extend_summary_starts rem a b s Hjoin) as Hext;
          set (extended := extend_summary rem s a b) in *
      end.
      destruct (Z.ltb_spec max_len (len extended)) as [Hover' | Hfits'].
      * split; [apply Hcut|]. intros Hk _. now apply Hcut.
      * split; [intros _; exact Hfits' | intros _ _; exact Hext].
    + split; [intros _; exact Hfits | intros _ _; exact Hjoin].
Qed.

End SummarizerProperties.

(** X28.  For a [max_len] that is not negative, the summary
    [summarize_memory] returns has at most [max_len] characters, whatever
    the text, [min_len] and the sentences and words found in the text; and
    a text that has at most [max_len] characters once stripped is returned
    stripped, as it is. *)
Theorem summary_fits_max_len split_sentences findall_words
    text min_len max_len :
  (0 <= max_len)%Z ->
  (len (summarize_memory split_sentences findall_words
                         text min_len max_len) <= max_len)%Z
  /\
  ((len (strip text) <= max_len)%Z ->
   summarize_memory split_sentences findall_words text min_len max_len
   = strip text).
Proof.
  intros Hk. split.
  - now apply summarize_memory_spec.
  - intros Hshort. unfold summarize_memory.
    destruct text as [| c rest]; [reflexivity|]. cbn [truthy negb].
    cbv zeta. apply Z.leb_le in Hshort. now rewrite Hshort.
Qed.

Lemma summary_fits_max_len_witness :
  (len (summarize_memory one_sentence one_word
          "A knight fought a dragon in the mountains." 20 80) <= 80)%Z.
Proof.
  destruct (summary_fits_max_len one_sentence one_word
              "A knight fought a dragon in the mountains."%string 20%Z 80%Z)
    as [Hlen _].
  - lia.
  - exact Hlen.
Defined.

(** X29.  For a [max_len] of at least 1, [summarize_memory] returns the
    empty string exactly for the texts that are empty or blank; the
    summary of any other text starts with a character that is not white
    space. *)
Theorem summary_is_empty_only_for_blank_text split_sentences findall_words
    text min_len max_len :
  (1 <= max_len)%Z ->
  (summarize_memory split_sentences findall_words text min_len max_len
   = EmptyString
   <-> strip text = EmptyString)
  /\
  (strip text <> EmptyString ->
   starts_with_text
     (summarize_memory split_sentences findall_words text min_len max_len)).
Proof.
  intros Hk.
  destruct (summarize_memory_spec split_sentences findall_words
              text min_len max_len) as [_ Hstarts].
  split; [| now apply Hstarts].
  split.
  - intros Hempty.
    destruct (string_dec (strip text) EmptyString) as [He | Hne];
      [exact He|].
    specialize (Hstarts Hk Hne). rewrite Hempty in Hstarts.
    destruct Hstarts.
  - intros Hblank. unfold summarize_memory.
    destruct text as [| c rest]; [reflexivity|]. cbn [truthy negb].
    cbv zeta. rewrite Hblank.
    destruct (Z.leb_spec (len EmptyString) max_len) as [_ | Hlt];
      [reflexivity|].
    unfold len in Hlt. simpl in Hlt. lia.
Qed.

Lemma summary_is_empty_only_for_blank_text_witness :
  summarize_memory one_sentence one_word "   " 20 80 = EmptyString.
Proof.
  destruct (summary_is_empty_only_for_blank_text one_sentence one_word
              "   "%string 20%Z 80%Z) as [[_ Hblank] _].
  - lia.
  - apply Hblank. reflexivity.
Defined.

(** X30.  The decay engine of the application, whose summarizer is
    [summarize_memory]: on a store with distinct ids, a stored dict with
    metadata that is not yet consolidated, has a text and a recomputed
    score in the consolidation band, comes out of the cycle with the
    summary of its text as its ["raw"] and its ["content_summary"].  That
    summary has at most 80 characters, and it is empty exactly when the
    text was blank. *)
Theorem consolidation_with_summarize_memory
    config age_days_of split_sentences findall_words b a md :
  NoDup (stored_ids (objects b) (_store b)) ->
  In a (_store b) ->
  metadata (objects b a) = Some md ->
  get_consolidated md = false ->
  in_consolidation_band config age_days_of (objects b a) ->
  text_to_summarize (objects b a) <> EmptyString ->
  let b' :=
    fst (run_decay_cycle config age_days_of
           (summarize_memory_fn split_sentences findall_words) b) in
  let gist :=
    summarize_memory split_sentences findall_words
                     (text_to_summarize (objects b a)) 20 80 in
  raw (objects b' a) = Some gist /\
  content_summary (objects b' a) = Some gist /\
  consolidated (get_metadata (objects b' a)) = Some true /\
  (String.length gist <= 80)%nat /\
  (gist = EmptyString
   <-> strip (text_to_summarize (objects b a)) = EmptyString).
Proof.
  intros Hnd Hin Hmd Hnc [Hf Hc] Htext. cbv zeta.
  set (gist := summarize_memory split_sentences findall_words
                 (text_to_summarize (objects b a)) 20 80).
  assert (Hret : summarizer_returns
                   (summarize_memory_fn split_sentences findall_words)
                   (objects b a) gist).
  { eexists. split; [reflexivity|]. split; [| reflexivity].
    destruct (text_to_summarize (objects b a)); [now contradiction Htext|].
    reflexivity. }
  rewrite (run_decay_cycle_local config age_days_of
             (summarize_memory_fn split_sentences findall_words) b
             (mkStats 0 0 0 0 0) a Hnd Hin).
  rewrite (process_memory_summarizer_returns config age_days_of
             (summarize_memory_fn split_sentences findall_words)
             b (mkStats 0 0 0 0 0) a md gist Hmd Hnc
             (Rle_ge _ _ Hf) Hc Hret).
  split; [reflexivity|]. split; [reflexivity|]. split; [reflexivity|].
  split.
  - destruct (summarize_memory_spec split_sentences findall_words
                (text_to_summarize (objects b a)) 20 80) as [Hlen _].
    fold gist in Hlen. unfold len in Hlen. lia.
  - destruct (summarize_memory_spec split_sentences findall_words
                (text_to_summarize (objects b a)) 20 80) as [_ Hstarts].
    fold gist in Hstarts. split.
    + intros Hempty.
      destruct (string_dec (strip (text_to_summarize (objects b a)))
                           EmptyString) as [He | Hne]; [exact He|].
      assert (Hs : starts_with_text gist) by (apply Hstarts; [lia | exact Hne]).
      rewrite Hempty in Hs. destruct Hs.
    + intros Hblank. unfold gist, summarize_memory.
      destruct (text_to_summarize (objects b a)) as [| c rest];
        [reflexivity|].
      cbn [truthy negb]. cbv zeta. rewrite Hblank. reflexivity.
Qed.

Lemma consolidation_with_summarize_memory_witness :
  raw
    (objects
       (fst (run_decay_cycle default_config (clock 0)
               (summarize_memory_fn one_sentence one_word)
               (single (example_record "m0" (3 / 10) 1 today))))
       0%nat)
  = Some "A knight fought a dragon in the mountains."%string.
Proof.
  destruct (consolidation_with_summarize_memory default_config (clock 0)
              one_sentence one_word
              (single (example_record "m0" (3 / 10) 1 today)) 0%nat
              (mkMetadata (Some (3 / 10)) (Some 1%Z) today None))
    as (Hraw & _).
  - simpl. constructor; [simpl; tauto | constructor].
  - simpl. tauto.
  - reflexivity.
  - reflexivity.
  - unfold in_consolidation_band. cbn [single objects].
    rewrite calculate_decay_keeps by (apply example_young; simpl; lia).
    unfold_example. lra.
  - discriminate.
  - exact Hraw.
Defined.
